(** * Markyfy: a shallow embedding of the Markdown-to-HTML converter

    The development follows the TypeScript sources: the token model
    ([token.ts]), the syntax highlighter ([syntaxHighlighter.ts]) and the
    [Markyfy] class (block tokenizer, inline tokenizer, renderer, facade).

    A JavaScript string is a sequence of UTF-16 code units; it is modelled
    as a list of code units, each one a number of type [N].  Indices and
    lengths are natural numbers; a result of [indexOf] that JavaScript
    reports as [-1] is [None]. *)

From Stdlib Require Import ZArith NArith List String Ascii Lia Bool.
From stdpp Require Import base tactics option list gmap.

Set Default Proof Using "Type".

(* ===================================================================== *)
(** ** JavaScript strings *)
(* ===================================================================== *)

Module JS.

Definition jsstring := list N.

(** The code unit of an ASCII character, and the string of an ASCII
    literal. *)
Definition ch (a : ascii) : N := N_of_ascii a.

Definition str (s : string) : jsstring := map ch (list_ascii_of_string s).

Definition is_ch (a : ascii) (c : N) : bool := N.eqb c (ch a).

(** The double quote, written by its code unit. *)
Definition dquote : N := 34%N.

(** [LineTerminator] of ECMAScript: LF, CR, LS, PS.  The regular
    expression atom [.] (without the [s] flag) matches every code unit
    but these. *)
Definition isLineTerminator (c : N) : bool :=
  (N.eqb c 10 || N.eqb c 13 || N.eqb c 8232 || N.eqb c 8233)%N.

Definition isDot (c : N) : bool := negb (isLineTerminator c).

(** [WhiteSpace] or [LineTerminator] of ECMAScript: the class [\s], and
    the code units that [String.prototype.trim] removes. *)
Definition isSpace (c : N) : bool :=
  (N.eqb c 9 || N.eqb c 10 || N.eqb c 11 || N.eqb c 12 || N.eqb c 13
   || N.eqb c 32 || N.eqb c 160 || N.eqb c 5760
   || (N.leb 8192 c && N.leb c 8202)
   || N.eqb c 8232 || N.eqb c 8233 || N.eqb c 8239 || N.eqb c 8287
   || N.eqb c 12288 || N.eqb c 65279)%N.

(** The class [\d]. *)
Definition isDigit (c : N) : bool := (N.leb 48 c && N.leb c 57)%N.

Definition eqb (s t : jsstring) : bool := bool_decide (s = t).

(** Truthiness of a string: it is not empty. *)
Definition truthy (s : jsstring) : bool :=
  match s with [] => false | _ :: _ => true end.

(** [s.startsWith(p)] and [s.startsWith(p, i)]. *)
Fixpoint starts_with (p s : jsstring) : bool :=
  match p, s with
  | [], _ => true
  | _ :: _, [] => false
  | a :: p', b :: s' => N.eqb a b && starts_with p' s'
  end.

Definition startsWith (s p : jsstring) (i : nat) : bool :=
  starts_with p (drop i s).

(** [s.indexOf(p, from)] for a pattern [p] that is not empty: the least
    index [k >= from] at which [p] occurs, [None] for [-1]. *)
Fixpoint index_from (p s : jsstring) (k : nat) : option nat :=
  match s with
  | [] => None
  | _ :: s' => if starts_with p s then Some k else index_from p s' (S k)
  end.

Definition indexOf (s p : jsstring) (from : nat) : option nat :=
  index_from p (drop from s) from.

(** [s.slice(a, b)] and [s.slice(a)] on indices that are not negative. *)
Definition slice (s : jsstring) (a b : nat) : jsstring :=
  take (b - a) (drop a s).

Definition slice_from (s : jsstring) (a : nat) : jsstring := drop a s.

(** [s.substr(i, n)]. *)
Definition substr (s : jsstring) (i n : nat) : jsstring := take n (drop i s).

(** [s[i]]: [None] where JavaScript gives [undefined]. *)
Definition at_ (s : jsstring) (i : nat) : option N := s !! i.

Definition at_is (s : jsstring) (i : nat) (a : ascii) : bool :=
  match at_ s i with Some c => is_ch a c | None => false end.

(** [s.trim()]. *)
Fixpoint trimStart (s : jsstring) : jsstring :=
  match s with
  | [] => []
  | c :: s' => if isSpace c then trimStart s' else s
  end.

Definition trimEnd (s : jsstring) : jsstring := rev (trimStart (rev s)).

Definition trim (s : jsstring) : jsstring := trimEnd (trimStart s).

(** [s.split("\n")]: always at least one line. *)
Fixpoint split_lines (s : jsstring) : list jsstring :=
  match s with
  | [] => [[]]
  | c :: s' =>
      if N.eqb c 10 then [] :: split_lines s'
      else match split_lines s' with
           | l :: ls => (c :: l) :: ls
           | [] => [[c]]
           end
  end.

(** [lines.join("\n")]. *)
Fixpoint join_lines (ls : list jsstring) : jsstring :=
  match ls with
  | [] => []
  | [l] => l
  | l :: ls' => l ++ 10%N :: join_lines ls'
  end.

(** [lines.slice(a, b)] on an array. *)
Definition slice_lines (ls : list jsstring) (a b : nat) : list jsstring :=
  take (b - a) (drop a ls).

(** The longest prefix of code units in a class, and what follows it. *)
Fixpoint span (f : N -> bool) (s : jsstring) : jsstring * jsstring :=
  match s with
  | [] => ([], [])
  | c :: s' =>
      if f c then let '(a, b) := span f s' in (c :: a, b) else ([], s)
  end.

(** A number printed in a template literal (decimal digits). *)
Fixpoint digits_of (fuel n : nat) (acc : jsstring) : jsstring :=
  match fuel with
  | 0 => acc
  | S fuel' =>
      let acc' := (48 + N.of_nat (n mod 10))%N :: acc in
      if n <? 10 then acc' else digits_of fuel' (n / 10) acc'
  end.

Definition of_nat (n : nat) : jsstring := digits_of (S n) n [].

(** [undefined] printed in a template literal. *)
Definition undefined : jsstring := str "undefined".

End JS.

Export JS.

(* ===================================================================== *)
(** ** Exceptions *)
(* ===================================================================== *)

(** What a JavaScript computation comes to: a value, a thrown exception, or
    no answer within the iteration budget the model was given.  The last is
    not an exception: no [catch] sees it. *)

Inductive exn :=
| Error (message : jsstring)   (* [new Error(message)] *)
| TypeError                    (* a property of [undefined] is read *)
| RangeError.                  (* call stack exhausted *)

Inductive outcome (A : Type) :=
| Ok (a : A)
| Throw (e : exn)
| OutOfFuel.

Arguments Ok {A} a.
Arguments Throw {A} e.
Arguments OutOfFuel {A}.

#[global] Instance outcome_ret : MRet outcome := fun A a => Ok a.

#[global] Instance outcome_bind : MBind outcome := fun A B f m =>
  match m with
  | Ok a => f a
  | Throw e => Throw e
  | OutOfFuel => OutOfFuel
  end.

(** [try { body } catch (error) { handler }] *)
Definition try_catch {A} (body : outcome A) (handler : exn -> outcome A)
  : outcome A :=
  match body with
  | Throw e => handler e
  | o => o
  end.

(** [xs.map(f)] for an [f] that may throw: left to right, stopping at the
    first element on which [f] does not return. *)
Fixpoint map_outcome {A B} (f : A -> outcome B) (xs : list A)
  : outcome (list B) :=
  match xs with
  | [] => Ok []
  | x :: xs' => y ← f x; ys ← map_outcome f xs'; Ok (y :: ys)
  end.

(* ===================================================================== *)
(** ** Token model ([token.ts]) *)
(* ===================================================================== *)

Module TokenType.
Inductive t :=
| paragraph | header | code_block | code | bold | italic | link
| list | list_item | blockquote | text.

#[global] Instance eq_dec : EqDecision t.
Proof. solve_decision. Defined.
End TokenType.

(** An optional field that is absent is [None]. *)
#[warnings="-register-all"]
Inductive Token := mkToken {
  type : TokenType.t;
  raw : jsstring;
  text : option jsstring;
  depth : option nat;
  items : option (list Token);
  lang : option jsstring;
  url : option jsstring;
  children : option (list Token);
  ordered : option bool;
}.

(** [{ type, raw }], every optional field absent. *)
Definition token (ty : TokenType.t) (r : jsstring) : Token :=
  {| type := ty; raw := r; text := None; depth := None; items := None;
     lang := None; url := None; children := None; ordered := None |}.

Definition set_text (v : jsstring) (t : Token) : Token :=
  {| type := type t; raw := raw t; text := Some v; depth := depth t;
     items := items t; lang := lang t; url := url t;
     children := children t; ordered := ordered t |}.

Definition set_depth (v : nat) (t : Token) : Token :=
  {| type := type t; raw := raw t; text := text t; depth := Some v;
     items := items t; lang := lang t; url := url t;
     children := children t; ordered := ordered t |}.

Definition set_items (v : list Token) (t : Token) : Token :=
  {| type := type t; raw := raw t; text := text t; depth := depth t;
     items := Some v; lang := lang t; url := url t;
     children := children t; ordered := ordered t |}.

Definition set_lang (v : jsstring) (t : Token) : Token :=
  {| type := type t; raw := raw t; text := text t; depth := depth t;
     items := items t; lang := Some v; url := url t;
     children := children t; ordered := ordered t |}.

Definition set_url (v : jsstring) (t : Token) : Token :=
  {| type := type t; raw := raw t; text := text t; depth := depth t;
     items := items t; lang := lang t; url := Some v;
     children := children t; ordered := ordered t |}.

Definition set_children (v : list Token) (t : Token) : Token :=
  {| type := type t; raw := raw t; text := text t; depth := depth t;
     items := items t; lang := lang t; url := url t;
     children := Some v; ordered := ordered t |}.

Definition set_ordered (v : bool) (t : Token) : Token :=
  {| type := type t; raw := raw t; text := text t; depth := depth t;
     items := items t; lang := lang t; url := url t;
     children := children t; ordered := Some v |}.

(** [token.text || ""] and the like. *)
Definition or_empty (o : option jsstring) : jsstring := default [] o.

(* ===================================================================== *)
(** ** Regular expressions

    The patterns of the tokenizer are written as terms and run by a
    backtracking matcher with the semantics of ECMAScript for a pattern
    without flags: a quantifier is greedy and gives back one repetition at
    a time, an optional part is tried before it is left out, [$] is the end
    of the subject and [.] is any code unit but a line terminator.  Every
    pattern of the tokenizer starts with [^], so a match starts at the
    start of the subject. *)
(* ===================================================================== *)

Module Regex.

Inductive t :=
| Rep (cls : N -> bool) (min : nat) (max : option nat)
    (* a class repeated, [{min,max}] *)
| Cat (r1 r2 : t)                 (* one after the other *)
| Opt (r : t)                     (* [(?:r)?] *)
| Grp (n : nat) (r : t)           (* the capture group [n] *)
| Eos.                            (* [$] *)

Definition One (cls : N -> bool) : t := Rep cls 1 (Some 1).
Definition Plus (cls : N -> bool) : t := Rep cls 1 None.
Definition Star (cls : N -> bool) : t := Rep cls 0 None.

(** The groups that took part in a match, the latest first. *)
Definition captures := list (nat * jsstring).

(** [cls{min,max}] on [s], then [k] on what is left: one more repetition
    is tried first, and only when the rest of the match fails with it does
    the repetition stop here, if [min] has been reached. *)
Fixpoint run_rep {R} (cls : N -> bool) (min : nat) (max : option nat)
  (s : jsstring) (k : jsstring -> option R) : option R :=
  let stop := match min with 0 => k s | S _ => None end in
  match s with
  | c :: s' =>
      if cls c && negb (bool_decide (max = Some 0)) then
        match run_rep cls (pred min) (pred <$> max) s' k with
        | Some r => Some r
        | None => stop
        end
      else stop
  | [] => stop
  end.

(** [r] on [s] with the captures so far, then [k] on what is left. *)
Fixpoint run {R} (r : t) (s : jsstring) (caps : captures)
  (k : jsstring -> captures -> option R) : option R :=
  match r with
  | Rep cls min max => run_rep cls min max s (fun s' => k s' caps)
  | Cat r1 r2 => run r1 s caps (fun s' caps' => run r2 s' caps' k)
  | Opt r' =>
      match run r' s caps k with
      | Some x => Some x
      | None => k s caps
      end
  | Grp n r' =>
      run r' s caps
        (fun s' caps' => k s' ((n, take (length s - length s') s) :: caps'))
  | Eos => match s with [] => k s caps | _ :: _ => None end
  end.

(** [s.match(/^r/)]: the captures, [None] for [null]. *)
Definition exec (r : t) (s : jsstring) : option captures :=
  run r s [] (fun _ caps => Some caps).

(** [/^r/.test(s)] *)
Definition test (r : t) (s : jsstring) : bool :=
  match exec r s with Some _ => true | None => false end.

(** [match[n]]: [None] for [undefined]. *)
Fixpoint group (n : nat) (caps : captures) : option jsstring :=
  match caps with
  | [] => None
  | (m, g) :: caps' => if m =? n then Some g else group n caps'
  end.

(** [match[n]] where the group [n] takes part in every match. *)
Definition group_ (n : nat) (caps : captures) : jsstring :=
  default [] (group n caps).

(** [s.replace(/c/g, rep)] for a single code unit [c]. *)
Definition replace_unit (c : N) (rep s : jsstring) : jsstring :=
  flat_map (fun x => if N.eqb x c then rep else [x]) s.

(** [s.replace(/[class]+/g, rep)]: every maximal run of the class becomes
    one [rep]. [inrun] says that the unit before was in the class. *)
Fixpoint replace_runs (f : N -> bool) (rep : jsstring) (inrun : bool)
  (s : jsstring) : jsstring :=
  match s with
  | [] => []
  | c :: s' =>
      if f c then
        if inrun then replace_runs f rep true s'
        else rep ++ replace_runs f rep true s'
      else c :: replace_runs f rep false s'
  end.

End Regex.

(** The patterns of the block tokenizer. *)
Module Pattern.
Import Regex.

Definition isBullet (c : N) : bool :=
  is_ch "-" c || is_ch "*" c || is_ch "+" c.

(** [/^(#{1,6})(\s+(.+))?$/] *)
Definition header : Regex.t :=
  Cat (Grp 1 (Rep (is_ch "#") 1 (Some 6)))
    (Cat (Opt (Grp 2 (Cat (Plus isSpace) (Grp 3 (Plus isDot))))) Eos).

(** [/^[-*+]\s+.+/] *)
Definition unordered_start : Regex.t :=
  Cat (One isBullet) (Cat (Plus isSpace) (Plus isDot)).

(** [/^\d+\.\s+.+/] *)
Definition ordered_start : Regex.t :=
  Cat (Plus isDigit) (Cat (One (is_ch ".")) (Cat (Plus isSpace) (Plus isDot))).

(** [/^\d+\.\s/] *)
Definition ordered_marker : Regex.t :=
  Cat (Plus isDigit) (Cat (One (is_ch ".")) (One isSpace)).

(** [/^\d+\.\s+(.+)$/] *)
Definition ordered_item_test : Regex.t :=
  Cat (Plus isDigit)
    (Cat (One (is_ch "."))
       (Cat (Plus isSpace) (Cat (Grp 1 (Plus isDot)) Eos))).

(** [/^[-*+]\s+(.+)$/] *)
Definition unordered_item_test : Regex.t :=
  Cat (One isBullet) (Cat (Plus isSpace) (Cat (Grp 1 (Plus isDot)) Eos)).

(** [/^(\d+\.)\s+(.+)$/] *)
Definition ordered_item : Regex.t :=
  Cat (Grp 1 (Cat (Plus isDigit) (One (is_ch "."))))
    (Cat (Plus isSpace) (Cat (Grp 2 (Plus isDot)) Eos)).

(** [/^([-*+])\s+(.+)$/] *)
Definition unordered_item : Regex.t :=
  Cat (Grp 1 (One isBullet))
    (Cat (Plus isSpace) (Cat (Grp 2 (Plus isDot)) Eos)).

(** The indent pattern of [parseList]: a caret and the group of a starred
    [\s]. *)
Definition indent : Regex.t := Grp 1 (Star isSpace).

End Pattern.

(* ===================================================================== *)
(** ** What the host provides

    The [URL] constructor and the regular expressions that the syntax
    highlighter builds at run time are the host's.  The scheme of a URL is
    worked out below from the URL standard; whether the rest of a URL with
    an authority parses, and what a highlighting pattern matches, is the
    host's answer. *)
(* ===================================================================== *)

(** A regular expression object: [source] and [flags]. *)
Record RegExp := { source : jsstring; flags : jsstring }.

Class Host := {
  (** [url_authority_parses scheme rest]: the URL parser accepts [rest],
      the input after the colon of [scheme], when the scheme is special or
      [rest] begins an authority. *)
  url_authority_parses : jsstring -> jsstring -> bool;
  (** [s.replace(re, callback)] *)
  String_replace : RegExp -> (jsstring -> jsstring) -> jsstring -> jsstring;
  (** The successive results of [re.exec(s)] for a global [re], each as
      [(match.index, re.lastIndex)]. *)
  RegExp_exec_all : RegExp -> jsstring -> list (nat * nat);
}.

(* ===================================================================== *)
(** ** [new URL(url).protocol] *)
(* ===================================================================== *)

Module URL.

Definition isC0ControlOrSpace (c : N) : bool := N.leb c 32.

Definition isTabOrNewline (c : N) : bool :=
  (N.eqb c 9 || N.eqb c 10 || N.eqb c 13)%N.

Definition isUpper (c : N) : bool := (N.leb 65 c && N.leb c 90)%N.
Definition isLower (c : N) : bool := (N.leb 97 c && N.leb c 122)%N.
Definition isAlpha (c : N) : bool := isUpper c || isLower c.

Definition isSchemeUnit (c : N) : bool :=
  isAlpha c || isDigit c || is_ch "+" c || is_ch "-" c || is_ch "." c.

Definition lower (c : N) : N := if isUpper c then (c + 32)%N else c.

Fixpoint strip_leading (s : jsstring) : jsstring :=
  match s with
  | [] => []
  | c :: s' => if isC0ControlOrSpace c then strip_leading s' else s
  end.

(** Leading and trailing C0 controls and spaces are removed, then every
    tab and newline. *)
Definition preprocess (input : jsstring) : jsstring :=
  filter (fun c => negb (isTabOrNewline c))
         (rev (strip_leading (rev (strip_leading input)))).

(** Scheme start state and scheme state, without a base URL: the scheme
    in lower case and what follows its colon. *)
Definition scheme_of (s : jsstring) : option (jsstring * jsstring) :=
  match s with
  | c :: s' =>
      if isAlpha c then
        let '(body, rest) := span isSchemeUnit s' in
        match rest with
        | c' :: remaining =>
            if is_ch ":" c' then Some (map lower (c :: body), remaining)
            else None
        | [] => None
        end
      else None
  | [] => None
  end.

Definition isSpecial (scheme : jsstring) : bool :=
  bool_decide (scheme ∈ map str ["ftp"; "file"; "http"; "https"; "ws"; "wss"]%string).

(** [Some protocol] when [new URL(input)] returns, [None] when it throws.
    A scheme that is not special, followed by anything but two slashes,
    has an opaque path or a plain path, which always parses. *)
Definition protocol `{Host} (input : jsstring) : option jsstring :=
  match scheme_of (preprocess input) with
  | None => None
  | Some (scheme, remaining) =>
      if isSpecial scheme || starts_with (str "//") remaining then
        if url_authority_parses scheme remaining
        then Some (scheme ++ str ":") else None
      else Some (scheme ++ str ":")
  end.

End URL.

(* ===================================================================== *)
(** ** [SyntaxHighlighter] ([syntaxHighlighter.ts]) *)
(* ===================================================================== *)

Module SyntaxHighlighter.

Record SyntaxRule := { pattern : RegExp; token : jsstring }.

Record LanguageDefinition := { name : jsstring; rules : list SyntaxRule }.

(** [private languages: Map<string, LanguageDefinition>] *)
Abbreviation Languages := (gmap jsstring LanguageDefinition).

Definition registerLanguage (nm : jsstring) (definition : LanguageDefinition)
  (languages : Languages) : Languages :=
  <[nm := definition]> languages.

Definition re (src fl : jsstring) : RegExp := {| source := src; flags := fl |}.

Definition javascript_rules : list SyntaxRule :=
  [ {| pattern :=
         re (str "'(?:[^'\\]|\\.)*'|" ++ dquote :: str "(?:[^" ++ dquote
             :: str "\\]|\\.)*" ++ dquote :: str "|`(?:[^`\\]|\\.)*`")
            (str "g");
       token := str "string" |};
    {| pattern := re (str "\/\/.*$|\/\*[\s\S]*?\*\/") (str "gm");
       token := str "comment" |};
    {| pattern :=
         re (str "\b(function|class|extends|new|this|super|return|if|else|for|while|do|switch|case|break|continue|try|catch|throw|async|await|import|export|default|const|let|var)\b")
            (str "g");
       token := str "keyword" |};
    {| pattern := re (str "\b\d+\.?\d*\b") (str "g");
       token := str "number" |};
    {| pattern := re (str "[{}[\]();,.]") (str "g");
       token := str "punctuation" |};
    {| pattern := re (str "\b[a-zA-Z_$][0-9a-zA-Z_$]*(?=\()") (str "g");
       token := str "function" |};
    {| pattern := re (str "\b(true|false)\b") (str "g");
       token := str "boolean" |} ].

(** The registry after the constructor has run. *)
Definition new : Languages :=
  registerLanguage (str "js")
    {| name := str "javascript"; rules := javascript_rules |}
    (registerLanguage (str "javascript")
       {| name := str "javascript"; rules := javascript_rules |} ∅).

Section WithHost.
Context `{Host}.

(** The pattern of [isInsideString]: a quote of one of three kinds,
    lazily what is no backslash or an escaped unit, and the same quote
    again; global. *)
Definition quoted_string : RegExp :=
  re (str "('|" ++ dquote :: str "|`)(?:[^\\]|\\.)*?\1") (str "g").

Definition isInsideString (txt char : jsstring) : bool :=
  match indexOf txt char 0 with
  | None => false
  | Some p =>
      existsb (fun '(index, lastIndex) => (index <=? p) && (p <? lastIndex))
              (RegExp_exec_all quoted_string txt)
  end.

(** The callback of [escapeHtmlExceptStrings] on one match. *)
Definition escape_unit (txt : jsstring) (c : N) : jsstring :=
  if is_ch "'" c && isInsideString txt [c] then [c]
  else if is_ch "&" c then str "&amp;"
  else if is_ch "<" c then str "&lt;"
  else if is_ch ">" c then str "&gt;"
  else if N.eqb c dquote then str "&quot;"
  else if is_ch "'" c then str "&#039;"
  else [c].

Definition escapeHtmlExceptStrings (txt : jsstring) : jsstring :=
  flat_map (escape_unit txt) txt.

(** The pattern of a rule between its two guards.  The source is built
    by a template literal, in which an escaped slash is a slash. *)
Definition guarded (rule : SyntaxRule) : RegExp :=
  re (str "(?!<span[^>]*>)(" ++ source (pattern rule)
        ++ str ")(?![^<]*</span>)")
     (flags (pattern rule)).

Definition wrap (rule : SyntaxRule) (m : jsstring) : jsstring :=
  str "<span class=" ++ dquote :: str "token " ++ token rule
    ++ dquote :: str ">" ++ m ++ str "</span>".

Definition highlight (languages : Languages) (code lang : jsstring)
  : jsstring :=
  match languages !! lang with
  | None => code
  | Some language =>
      fold_left
        (fun highlighted rule =>
           String_replace (guarded rule) (wrap rule) highlighted)
        (rules language) (escapeHtmlExceptStrings code)
  end.

End WithHost.

End SyntaxHighlighter.

(* ===================================================================== *)
(** ** [Markyfy]: options and text helpers *)
(* ===================================================================== *)

(** [Required<ParserOptions>] *)
Record ParserOptions := {
  gfm : bool;
  breaks : bool;
  headerIds : bool;
  sanitize : bool;
}.

(** The options of [new Markyfy()]. *)
Definition default_options : ParserOptions :=
  {| gfm := true; breaks := false; headerIds := true; sanitize := true |}.

(** [escapeHtml]: five global replacements, the ampersand first. *)
Definition escapeHtml (txt : jsstring) : jsstring :=
  Regex.replace_unit (ch "'") (str "&#039;")
    (Regex.replace_unit dquote (str "&quot;")
       (Regex.replace_unit (ch ">") (str "&gt;")
          (Regex.replace_unit (ch "<") (str "&lt;")
             (Regex.replace_unit (ch "&") (str "&amp;") txt)))).

(** [toLowerCase], exact on every code unit whose lower case meets ASCII
    (the capitals, the Kelvin sign, the dotted capital I); any other code
    unit outside ASCII is left as it is, and [slugify] deletes it whatever
    its case. *)
Definition toLowerCase (txt : jsstring) : jsstring :=
  flat_map (fun c =>
    if URL.isUpper c then [(c + 32)%N]
    else if N.eqb c 8490 then [ch "k"]
    else if N.eqb c 304 then [ch "i"; 775%N]
    else [c]) txt.

Definition isSlugUnit (c : N) : bool :=
  URL.isLower c || isDigit c || is_ch " " c || is_ch "-" c.

Definition slugify (txt : jsstring) : jsstring :=
  Regex.replace_runs (is_ch "-") (str "-") false
    (Regex.replace_runs isSpace (str "-") false
       (filter (fun c => isSlugUnit c) (toLowerCase txt))).

Definition sanitizeUrl `{Host} (u : jsstring) : jsstring :=
  match URL.protocol u with
  | Some protocol => if eqb protocol (str "javascript:") then [] else u
  | None => u      (* [catch { return url; }] *)
  end.

(* ===================================================================== *)
(** ** Inline tokenizer: [parseInline] *)
(* ===================================================================== *)

(** [if (current) tokens.push({ type: "text", raw: current, text: current })] *)
Definition flush (current : jsstring) : list Token :=
  if truthy current then [set_text current (token TokenType.text current)]
  else [].

(** Each construct gives its token and the index behind it. *)
Definition inline_bold (txt : jsstring) (i : nat) : option (Token * nat) :=
  if startsWith txt (str "**") i || startsWith txt (str "__") i then
    let marker := substr txt i 2 in
    match indexOf txt marker (i + 2) with
    | Some end_ =>
        Some (set_text (slice txt (i + 2) end_)
                (token TokenType.bold (slice txt i (end_ + 2))),
              end_ + 2)
    | None => None
    end
  else None.

Definition inline_italic (txt : jsstring) (i : nat) : option (Token * nat) :=
  match at_ txt i with
  | Some c =>
      if is_ch "*" c || is_ch "_" c then
        match indexOf txt [c] (i + 1) with
        | Some end_ =>
            Some (set_text (slice txt (i + 1) end_)
                    (token TokenType.italic (slice txt i (end_ + 1))),
                  end_ + 1)
        | None => None
        end
      else None
  | None => None
  end.

Definition inline_code (txt : jsstring) (i : nat) : option (Token * nat) :=
  if at_is txt i "`" then
    match indexOf txt (str "`") (i + 1) with
    | Some end_ =>
        Some (set_text (slice txt (i + 1) end_)
                (token TokenType.code (slice txt i (end_ + 1))),
              end_ + 1)
    | None => None
    end
  else None.

Definition inline_link (txt : jsstring) (i : nat) : option (Token * nat) :=
  if at_is txt i "[" then
    match indexOf txt (str "]") i with
    | Some titleEnd =>
        if at_is txt (titleEnd + 1) "(" then
          match indexOf txt (str ")") (titleEnd + 2) with
          | Some urlEnd =>
              Some (set_url (slice txt (titleEnd + 2) urlEnd)
                      (set_text (slice txt (i + 1) titleEnd)
                         (token TokenType.link (slice txt i (urlEnd + 1)))),
                    urlEnd + 1)
          | None => None
          end
        else None
    | None => None
    end
  else None.

(** The first construct recognised at [i], in the order of the source:
    bold, italic, inline code, link. *)
Definition inline_construct (txt : jsstring) (i : nat) : option (Token * nat) :=
  match inline_bold txt i with
  | Some r => Some r
  | None =>
      match inline_italic txt i with
      | Some r => Some r
      | None =>
          match inline_code txt i with
          | Some r => Some r
          | None => inline_link txt i
          end
      end
  end.

(** The [while (i < text.length)] loop; [fuel] bounds its iterations. *)
Fixpoint parseInline_loop (fuel : nat) (txt : jsstring) (i : nat)
  (current : jsstring) (tokens : list Token) : option (list Token) :=
  match fuel with
  | 0 => None
  | S fuel' =>
      match at_ txt i with
      | None => Some (tokens ++ flush current)     (* [i >= text.length] *)
      | Some c =>
          match inline_construct txt i with
          | Some (t, i') =>
              parseInline_loop fuel' txt i' [] (tokens ++ flush current ++ [t])
          | None =>
              parseInline_loop fuel' txt (S i) (current ++ [c]) tokens
          end
      end
  end.

(** Every iteration moves [i] forward, so one more than the length of the
    text is fuel enough ([parseInline_loop_returns]). *)
Definition parseInline (txt : jsstring) : list Token :=
  default [] (parseInline_loop (S (length txt)) txt 0 [] []).

(* ===================================================================== *)
(** ** Block parsers *)
(* ===================================================================== *)

Definition paragraph_of (line : jsstring) : Token :=
  set_children (parseInline line) (token TokenType.paragraph line).

Definition parseHeader (line : jsstring) : Token :=
  match Regex.exec Pattern.header line with
  | None => paragraph_of line                            (* [!match] *)
  | Some m =>
      if negb (truthy (or_empty (Regex.group 2 m))) then
        paragraph_of line                                (* [!match[2]] *)
      else
        set_children (parseInline (Regex.group_ 3 m))
          (set_depth (length (Regex.group_ 1 m))
             (set_text (Regex.group_ 3 m) (token TokenType.header line)))
  end.

(** A sub-parser that consumes lines scans the lines from its index on;
    [rest] is [lines] without its first [i] lines, so that its head is
    [lines[i]] and it is empty when [i >= lines.length]. *)

Definition isBlank (line : jsstring) : bool := eqb (trim line) [].

(** [lines[i].startsWith(">") || lines[i].trim() === ""] *)
Definition quoted (line : jsstring) : bool :=
  starts_with (str ">") line || isBlank line.

Fixpoint blockquote_scan (rest : list jsstring) (i : nat)
  (content : list jsstring) : nat * list jsstring :=
  match rest with
  | line :: rest' =>
      if quoted line then
        blockquote_scan rest' (S i)
          (if negb (isBlank line)
           then content ++ [trim (slice_from line 1)] else content)
      else (i, content)
  | [] => (i, content)
  end.

(** [tokenize] is the block tokenizer the blockquote calls back. *)
Definition parseBlockquote (tokenize : jsstring -> outcome (list Token))
  (lines : list jsstring) (startIndex : nat) : outcome (Token * Z) :=
  let '(i, content) := blockquote_scan (drop startIndex lines) startIndex [] in
  kids ← tokenize (join_lines content);
  Ok (set_children kids
        (token TokenType.blockquote
           (join_lines (slice_lines lines startIndex i))),
      (Z.of_nat i - 1)%Z).

Definition fence : jsstring := str "```".

Fixpoint codeblock_scan (rest : list jsstring) (i : nat)
  (content : list jsstring) : nat * list jsstring :=
  match rest with
  | line :: rest' =>
      if negb (starts_with fence line)
      then codeblock_scan rest' (S i) (content ++ [line])
      else (i, content)
  | [] => (i, content)
  end.

Definition parseCodeBlock (lines : list jsstring) (startIndex : nat)
  : outcome (Token * Z) :=
  match lines !! startIndex with
  | None => Throw TypeError
  | Some opening =>
      let lang_ := trim (slice_from opening 3) in
      let '(i, content) :=
        codeblock_scan (drop (startIndex + 1) lines) (startIndex + 1) [] in
      if length lines <=? i then Throw (Error (str "Unclosed code block"))
      else
        Ok (set_lang lang_
              (set_text (join_lines content)
                 (token TokenType.code_block
                    (join_lines (slice_lines lines startIndex (i + 1))))),
            Z.of_nat i)
  end.

(** *** [parseList]

    The arrays of list items are shared: the array of a nested level is at
    once the top of [listStack] and the [items] of an item of the level
    above.  The model keeps the arrays in a store, addressed by number; an
    item refers to its nested array by address.  The root array [items] is
    at address 0. *)

Record ListItem := {
  li_raw : jsstring;
  li_text : jsstring;
  li_ordered : bool;
  li_children : list Token;
  li_items : option nat;
}.

Record ListScan := {
  store : list (list ListItem);
  listStack : list nat;
  currentIndent : Z;
}.

Definition ListScan_init : ListScan :=
  {| store := [[]]; listStack := [0]; currentIndent := 0 |}.

Definition array_at (st : ListScan) (a : nat) : list ListItem :=
  default [] (store st !! a).

(** [listStack[listStack.length - 1]] *)
Definition top (st : ListScan) : nat := default 0 (last (listStack st)).

Definition alter_last {A} (f : A -> A) (l : list A) : list A :=
  alter f (length l - 1) l.

Definition set_li_items (a : nat) (it : ListItem) : ListItem :=
  {| li_raw := li_raw it; li_text := li_text it; li_ordered := li_ordered it;
     li_children := li_children it; li_items := Some a |}.

(** The lazy continuation of the last item: its text and its children
    grow. *)
Definition continue_item (more : jsstring) (it : ListItem) : ListItem :=
  if truthy (li_text it) then
    {| li_raw := li_raw it;
       li_text := li_text it ++ 10%N :: more;
       li_ordered := li_ordered it;
       li_children :=
         li_children it ++ [set_text more (token TokenType.text more)];
       li_items := li_items it |}
  else it.

Definition continuation (line : jsstring) (st : ListScan) : ListScan :=
  {| store := alter (alter_last (continue_item (trim line))) (top st) (store st);
     listStack := listStack st;
     currentIndent := currentIndent st |}.

(** [indent > currentIndent]: a new array, attached to the last item of the
    array on top of the stack when there is one, and pushed. *)
Definition open_level (indent : Z) (st : ListScan) : ListScan :=
  let newList := length (store st) in
  let parentList := top st in
  {| store :=
       alter (alter_last (set_li_items newList)) parentList (store st)
         ++ [[]];
     listStack := listStack st ++ [newList];
     currentIndent := indent |}.

(** [while (indent < currentIndent && listStack.length > 1)]; at most
    [n] pops, and the stack has no more levels than that to give. *)
Fixpoint pop_levels (n : nat) (indent : Z) (st : ListScan) : ListScan :=
  match n with
  | 0 => st
  | S n' =>
      if (indent <? currentIndent st)%Z && (1 <? length (listStack st)) then
        pop_levels n' indent
          {| store := store st;
             listStack := removelast (listStack st);
             currentIndent := (currentIndent st - 2)%Z |}
      else st
  end.

Definition adjust_levels (indent : Z) (st : ListScan) : ListScan :=
  if (currentIndent st <? indent)%Z then open_level indent st
  else if (indent <? currentIndent st)%Z
       then pop_levels (length (listStack st)) indent st
       else st.

Definition push_item (it : ListItem) (st : ListScan) : ListScan :=
  {| store := alter (fun currentList => currentList ++ [it]) (top st) (store st);
     listStack := listStack st;
     currentIndent := currentIndent st |}.

Definition indent_of (line : jsstring) : Z :=
  match Regex.exec Pattern.indent line with
  | Some indentMatch => Z.of_nat (length (Regex.group_ 1 indentMatch))
  | None => 0%Z
  end.

(** What the loop body computes of a line before it branches. *)
Definition listItemMatch (isOrderedList : bool) (line : jsstring)
  : option (jsstring * jsstring) :=
  let isOrderedItem := Regex.test Pattern.ordered_item_test (trim line) in
  let isUnorderedItem := Regex.test Pattern.unordered_item_test (trim line) in
  let isValidListItem :=
    if isOrderedList then isOrderedItem else isUnorderedItem in
  let m :=
    Regex.exec
      (if isOrderedList then Pattern.ordered_item else Pattern.unordered_item)
      (trim line) in
  match m with
  | Some groups =>
      if isValidListItem
      then Some (Regex.group_ 1 groups, Regex.group_ 2 groups)
      else None
  | None => None
  end.

(** One item line: the levels are adjusted, then the item is pushed. *)
Definition item_step (isOrderedList : bool) (line content : jsstring)
  (st : ListScan) : ListScan :=
  push_item
    {| li_raw := line; li_text := content; li_ordered := isOrderedList;
       li_children := parseInline content; li_items := None |}
    (adjust_levels (indent_of line) st).

Fixpoint list_scan (isOrderedList : bool) (rest : list jsstring) (i : nat)
  (st : ListScan) : nat * ListScan :=
  match rest with
  | [] => (i, st)
  | line :: rest' =>
      match listItemMatch isOrderedList line with
      | None =>
          if (currentIndent st <? indent_of line)%Z && truthy (trim line)
          then list_scan isOrderedList rest' (S i) (continuation line st)
          else (i, st)                                       (* [break] *)
      | Some (_, content) =>
          list_scan isOrderedList rest' (S i)
            (item_step isOrderedList line content st)
      end
  end.

(** The token tree below an array of the store.  An array refers only to
    arrays made after it, so as many steps as the store has arrays reach
    every item. *)
Fixpoint list_items (depth_ : nat) (heap : list (list ListItem)) (a : nat)
  : list Token :=
  match depth_ with
  | 0 => []
  | S d =>
      map (fun it =>
             let t :=
               set_children (li_children it)
                 (set_ordered (li_ordered it)
                    (set_text (li_text it)
                       (token TokenType.list_item (li_raw it)))) in
             match li_items it with
             | Some b => set_items (list_items d heap b) t
             | None => t
             end)
          (default [] (heap !! a))
  end.

Definition parseList (lines : list jsstring) (startIndex : nat)
  : outcome (Token * Z) :=
  match lines !! startIndex with
  | None => Throw TypeError
  | Some first =>
      let firstLine := trim first in
      let isOrderedList := Regex.test Pattern.ordered_marker firstLine in
      let '(i, st) :=
        list_scan isOrderedList (drop startIndex lines) startIndex
          ListScan_init in
      Ok (set_items (list_items (length (store st)) (store st) 0)
            (set_ordered isOrderedList
               (token TokenType.list
                  (join_lines (slice_lines lines startIndex i)))),
          (Z.of_nat i - 1)%Z)
  end.

(* ===================================================================== *)
(** ** Block tokenizer: [tokenize]

    The call stack is a budget: [tokenize] with no stack left throws a
    [RangeError], as a JavaScript call does, and each nested call (a
    blockquote tokenizes its content) has one frame less.  [fuel] bounds
    the iterations of the [for] loop, whose index the sub-parsers set. *)
(* ===================================================================== *)

(** [{ type: "paragraph", raw: lines[i], text: this.escapeHtml(lines[i]) }] *)
Definition demoted (line : jsstring) : Token :=
  set_text (escapeHtml line) (token TokenType.paragraph line).

(** The body of the [for] loop at index [i], where [line] is [lines[i]]:
    the tokens after it and the value of [i] when the body ends. *)
Definition tokenize_line (tokenize : jsstring -> outcome (list Token))
  (lines : list jsstring) (i : nat) (line : jsstring) (tokens : list Token)
  : outcome (list Token * Z) :=
  try_catch
    (if starts_with (str "#") line then
       Ok (tokens ++ [parseHeader line], Z.of_nat i)
     else if starts_with (str ">") line then
       '(t, newIndex) ← parseBlockquote tokenize lines i;
       Ok (tokens ++ [t], newIndex)
     else if starts_with fence line then
       '(t, newIndex) ← parseCodeBlock lines i;
       Ok (tokens ++ [t], newIndex)
     else if Regex.test Pattern.unordered_start (trim line)
             || Regex.test Pattern.ordered_start (trim line) then
       '(t, newIndex) ← parseList lines i;
       Ok (tokens ++ [t], newIndex)
     else if truthy (trim line) then
       Ok (tokens ++ [paragraph_of line], Z.of_nat i)
     else Ok (tokens, Z.of_nat i))
    (fun error => Ok (tokens ++ [demoted line], Z.of_nat i)).

Fixpoint tokenize_loop (tokenize : jsstring -> outcome (list Token))
  (fuel : nat) (lines : list jsstring) (i : nat) (tokens : list Token)
  : outcome (list Token) :=
  match fuel with
  | 0 => OutOfFuel
  | S fuel' =>
      match lines !! i with
      | None => Ok tokens                        (* [i >= lines.length] *)
      | Some line =>
          '(tokens', i') ← tokenize_line tokenize lines i line tokens;
          tokenize_loop tokenize fuel' lines (Z.to_nat (i' + 1)) tokens'
      end
  end.

Fixpoint tokenize (stack fuel : nat) (markdown : jsstring)
  : outcome (list Token) :=
  match stack with
  | 0 => Throw RangeError
  | S stack' =>
      tokenize_loop (tokenize stack' fuel) fuel
        (split_lines (trim markdown)) 0 []
  end.

(* ===================================================================== *)
(** ** HTML renderer: [tokensToHtml], [renderChildren] *)
(* ===================================================================== *)

Module Html.

(** The template literal of the [code_block] case. *)
Definition code_block_html (lang_ highlighted : jsstring) : jsstring :=
  str "
            <pre>
              <code class="
    ++ [dquote]
    ++ str "language-"
    ++ lang_
    ++ [dquote]
    ++ str ">"
    ++ highlighted
    ++ str "</code>
            </pre>
            <style>
              pre {
                display: flex;
                flex-direction: column;
                justify-content: center;
                background: #282c34;
                color: #abb2bf;
                padding: 1rem;
                border-radius: 5px;
                overflow-x: auto;

                code {
                  font-family: "
    ++ [dquote]
    ++ str "Fira Code"
    ++ [dquote]
    ++ str ", monospace;
                  font-size: 14px;
                  background: initial;
                  color: white;
                  line-height: 1.5;
                }
              }
              .token.keyword { color: #c678dd; }
              .token.function { color: #61afef; }
              .token.string { color: #ce9178; }
              .token.comment { color: #7c858d; }
              .token.number { color: #b5cea8; }
              .token.boolean { color: #569cd6; }
              .token.type { color: #4ec9b0; }
              .token.class { color: #4ec9b0; }
              .token.punctuation { color: #abb2bf; } 
            </style>
          ".

(** The template literal of the [list] case. *)
Definition list_html (tag rendered : jsstring) : jsstring :=
  str "
              <"
    ++ tag
    ++ str ">
"
    ++ rendered
    ++ str "
</"
    ++ tag
    ++ str ">
              <style>
                ul {
                  list-style-type: disc;
                  padding-left: 20px;
                  display: block;
                  margin-block-start: 1em;
                  margin-block-end: 1em;
                  margin-inline-start: 0px;
                  margin-inline-end: 0px;
                  padding-inline-start: 40px;
                  unicode-bidi: isolate;
                }
                
                ol {
                  list-style-type: decimal;
                  padding-left: 20px;
                  display: block;
                  margin-block-start: 1em;
                  margin-block-end: 1em;
                  margin-inline-start: 0px;
                  margin-inline-end: 0px;
                  padding-inline-start: 40px;
                  unicode-bidi: isolate;
                }

                ul ul {
                  list-style-type: circle;
                }
                
                ul ul ul {
                  list-style-type: square;
                }
                
                ol ol {
                  list-style-type: lower-alpha;
                }
                
                ol ol ol {
                  list-style-type: lower-roman;
                }
              </>
            ".

End Html.

Section Render.
Context `{Host}.
Variable options : ParserOptions.
Variable languages : SyntaxHighlighter.Languages.

(** [renderChildren], over the renderer it calls for each child. *)
Definition renderChildren_with
  (tokensToHtml : list Token -> outcome jsstring)
  (kids : option (list Token)) : outcome jsstring :=
  match kids with
  | None => Ok []
  | Some cs =>
      parts ← map_outcome (fun child => tokensToHtml [child]) cs;
      Ok (concat parts)
  end.

(** The closure [renderListItems] of the [list] case. *)
Fixpoint renderListItems (renderChildren : option (list Token) -> outcome jsstring)
  (stack : nat) (its : list Token) : outcome jsstring :=
  match stack with
  | 0 => Throw RangeError
  | S stack' =>
      parts ← map_outcome
        (fun item =>
           itemContent ← renderChildren (children item);
           nestedList ←
             match items item with
             | Some nested =>
                 r ← renderListItems renderChildren stack' nested;
                 Ok (10%N :: r ++ [10%N])
             | None => Ok []
             end;
           Ok (str "<li>" ++ itemContent ++ nestedList ++ str "</li>"))
        its;
      Ok (join_lines parts)
  end.

(** A number or [undefined] in a template literal. *)
Definition show_depth (d : option nat) : jsstring :=
  match d with Some n => of_nat n | None => JS.undefined end.

Definition render_token (tokensToHtml : list Token -> outcome jsstring)
  (stack : nat) (t : Token) : outcome jsstring :=
  let renderChildren := renderChildren_with tokensToHtml in
  match type t with
  | TokenType.header =>
      let id :=
        if headerIds options
        then str " id=" ++ dquote :: slugify (or_empty (text t)) ++ [dquote]
        else [] in
      inner ← renderChildren (children t);
      Ok (str "<h" ++ show_depth (depth t) ++ id ++ str ">" ++ inner
            ++ str "</h" ++ show_depth (depth t) ++ str ">")
  | TokenType.code_block =>
      let highlighted :=
        SyntaxHighlighter.highlight languages
          (or_empty (text t)) (or_empty (lang t)) in
      Ok (Html.code_block_html (or_empty (lang t)) highlighted)
  | TokenType.paragraph =>
      inner ← renderChildren (children t);
      Ok (str "<p>" ++ inner ++ str "</p>")
  | TokenType.blockquote =>
      inner ← tokensToHtml (default [] (children t));
      Ok (str "<blockquote>" ++ inner ++ str "</blockquote>")
  | TokenType.list =>
      let tag := if default false (ordered t) then str "ol" else str "ul" in
      rendered ← renderListItems renderChildren stack (default [] (items t));
      Ok (Html.list_html tag rendered)
  | TokenType.bold =>
      Ok (str "<strong>" ++ escapeHtml (or_empty (text t)) ++ str "</strong>")
  | TokenType.italic =>
      Ok (str "<em>" ++ escapeHtml (or_empty (text t)) ++ str "</em>")
  | TokenType.code =>
      Ok (str "<code>" ++ escapeHtml (or_empty (text t)) ++ str "</code>")
  | TokenType.link =>
      let u :=
        if sanitize options then sanitizeUrl (or_empty (url t))
        else default JS.undefined (url t) in
      Ok (str "<a href=" ++ dquote :: u ++ dquote :: str ">"
            ++ escapeHtml (or_empty (text t)) ++ str "</a>")
  | _ => Ok (escapeHtml (or_empty (text t)))
  end.

(** A call of [tokensToHtml] takes a frame of the stack, and so does each
    call it makes of itself, through [renderChildren] or for the content
    of a blockquote. *)
Fixpoint tokensToHtml (stack : nat) (tokens : list Token)
  : outcome jsstring :=
  match stack with
  | 0 => Throw RangeError
  | S stack' =>
      parts ← map_outcome (render_token (tokensToHtml stack') stack') tokens;
      Ok (join_lines parts)
  end.

Definition renderChildren (stack : nat) (kids : option (list Token))
  : outcome jsstring :=
  renderChildren_with (tokensToHtml stack) kids.

(* =================================================================== *)
(** ** Facade: [parse] *)
(* =================================================================== *)

(** The tokenize-then-render pipeline inside the [try] of [parse]. *)
Definition pipeline (stack fuel : nat) (markdown : jsstring)
  : outcome jsstring :=
  tokens ← tokenize stack fuel markdown;
  tokensToHtml stack tokens.

Definition parse (stack fuel : nat) (markdown : jsstring) : outcome jsstring :=
  try_catch (pipeline stack fuel markdown)
    (fun error => Ok (escapeHtml markdown)).

End Render.

(** An engine of regular expressions in which no highlighting pattern
    matches, and a URL parser that accepts every authority: the host of the
    examples. *)
#[local] Instance plain_host : Host := {|
  url_authority_parses := fun _ _ => true;
  String_replace := fun _ _ s => s;
  RegExp_exec_all := fun _ _ => [];
|}.

(* ===================================================================== *)
(** ** Notions of the statements and of the proofs *)
(* ===================================================================== *)

(** The [raw] fields of a sequence of tokens, concatenated. *)
Definition raws (tokens : list Token) : jsstring := concat (map raw tokens).

(** A run of [n] number signs. *)
Definition hashes (n : nat) : jsstring := replicate n (ch "#").

(** What [\s+(.+)$] captures at the start of [s].  [\s+] first takes the
    whole run of white space; if nothing is left for [.+] it gives one code
    unit back.  A line terminator in what [.+] has to cover makes every
    split fail. *)
Definition space_then_rest (s : jsstring) : option jsstring :=
  let '(w, r) := span isSpace s in
  match w, r with
  | [], _ => None
  | _ :: _, _ :: _ => if forallb isDot r then Some r else None
  | _ :: _, [] =>
      match last w with
      | Some c => if isDot c && (2 <=? length w) then Some [c] else None
      | None => None
      end
  end.

(** The groups of the header pattern, read off the line directly
    ([header_exec_spec] proves that the matcher finds just these). *)
Definition header_groups (line : jsstring) : option Regex.captures :=
  let '(h, rest) := span (is_ch "#") line in
  if (1 <=? length h) && (length h <=? 6) then
    match rest with
    | [] => Some [(1, h)]
    | _ :: _ =>
        match space_then_rest rest with
        | Some t => Some [(2, rest); (3, t); (1, h)]
        | None => None
        end
    end
  else None.

(** What follows the number signs of a header: the optional group and the
    end of the line. *)
Definition header_tail (line s' : jsstring) : option Regex.captures :=
  match space_then_rest s' with
  | Some t => Some [(2, s'); (3, t); (1, take (length line - length s') line)]
  | None =>
      match s' with
      | [] => Some [(1, take (length line - length s') line)]
      | _ :: _ => None
      end
  end.

(** An item of the store refers only to an array made after the array it
    is in. *)
Definition Store_ok (heap : list (list ListItem)) : Prop :=
  forall a arr it b,
    heap !! a = Some arr -> it ∈ arr -> li_items it = Some b ->
    a < b < length heap.

(** The first of [f (lo + len - 1)], ..., [f lo] that is not [None]. *)
Fixpoint first_down {R} (f : nat -> option R) (lo len : nat) : option R :=
  match len with
  | 0 => None
  | S l =>
      match f (lo + l) with
      | Some x => Some x
      | None => first_down f lo l
      end
  end.

(** How far a repetition of [cls] can reach into [s]. *)
Definition reach (cls : N -> bool) (max : option nat) (s : jsstring) : nat :=
  match max with
  | Some m => Nat.min m (length (fst (span cls s)))
  | None => length (fst (span cls s))
  end.

(** The lines a blockquote consumes: the longest run of quoted or blank
    lines. *)
Fixpoint consumed_lines (rest : list jsstring) : list jsstring :=
  match rest with
  | line :: rest' => if quoted line then line :: consumed_lines rest' else []
  | [] => []
  end.

(** What the consumed lines contribute: each line that is not blank,
    without its first code unit and trimmed. *)
Definition blockquote_content (consumed : list jsstring) : list jsstring :=
  map (fun line => trim (slice_from line 1))
      (filter (fun line => negb (isBlank line)) consumed).

(** The contribution of a line in the words of the specification: the
    leading [>] and one following space are removed, nothing else. *)
Definition strip_marker_and_one_space (line : jsstring) : jsstring :=
  match line with
  | c :: r =>
      if is_ch ">" c then
        match r with
        | c' :: r' => if is_ch " " c' then r' else r
        | [] => r
        end
      else line
  | [] => []
  end.

(** Every level of the stack is an array of the store, and the stack is
    never empty. *)
Definition ListScan_wf (st : ListScan) : Prop :=
  listStack st ≠ [] /\ Forall (fun a => a < length (store st)) (listStack st).

(** The five code units that [escapeHtml] replaces, and what each code
    unit becomes. *)
Definition isHtmlSpecial (c : N) : bool :=
  is_ch "&" c || is_ch "<" c || is_ch ">" c || N.eqb c dquote || is_ch "'" c.

Definition entity (c : N) : jsstring :=
  if is_ch "&" c then str "&amp;"
  else if is_ch "<" c then str "&lt;"
  else if is_ch ">" c then str "&gt;"
  else if N.eqb c dquote then str "&quot;"
  else if is_ch "'" c then str "&#039;"
  else [c].

(** A code unit that is no carriage return, line separator or paragraph
    separator: a line feed or what [.] matches. *)
Definition tame (c : N) : bool := isDot c || N.eqb c 10.

(** The code units at which [parseInline] looks for a construct. *)
Definition isInlineMarker (c : N) : bool :=
  is_ch "*" c || is_ch "_" c || is_ch "`" c || is_ch "[" c.

(** What every token of [parseInline] looks like. *)
Definition inline_shaped (t : Token) : Prop :=
  type t ∈ [TokenType.text; TokenType.bold; TokenType.italic;
            TokenType.code; TokenType.link]
  /\ raw t ≠ []
  /\ is_Some (text t)
  /\ (is_Some (url t) <-> type t = TokenType.link)
  /\ children t = None /\ items t = None.

(** The code units of a slug: lower case letters, digits and the hyphen. *)
Definition isSlugOut (c : N) : bool :=
  URL.isLower c || isDigit c || is_ch "-" c.

(** No unit of the class [f] follows another one ([prev]: the unit before
    was in the class). *)
Fixpoint no_run (f : N -> bool) (prev : bool) (s : jsstring) : bool :=
  match s with
  | [] => true
  | c :: s' => negb (prev && f c) && no_run f (f c) s'
  end.

(** The tests of the dispatch of [tokenize] that come before the paragraph:
    header, blockquote, fence, list. *)
Definition startsBlock (line : jsstring) : bool :=
  starts_with (str "#") line || starts_with (str ">") line
  || starts_with fence line
  || Regex.test Pattern.unordered_start (trim line)
  || Regex.test Pattern.ordered_start (trim line).

(** The paragraph element of a line without inline constructs. *)
Definition plain_paragraph (line : jsstring) : jsstring :=
  str "<p>" ++ escapeHtml line ++ str "</p>".

(** The header element of depth [n] around the text [txt]. *)
Definition header_html (options : ParserOptions) (n : nat) (txt : jsstring)
  : jsstring :=
  str "<h" ++ of_nat n
    ++ (if headerIds options
        then str " id=" ++ dquote :: slugify txt ++ [dquote] else [])
    ++ str ">" ++ escapeHtml txt ++ str "</h" ++ of_nat n ++ str ">".

(** The content of an item line: the second group of the item pattern. *)
Definition item_content (isOrderedList : bool) (line : jsstring) : jsstring :=
  match listItemMatch isOrderedList line with
  | Some (_, content) => content
  | None => []
  end.

(** The [list_item] token of an item line that has no nested list. *)
Definition list_item_of (isOrderedList : bool) (line : jsstring) : Token :=
  {| type := TokenType.list_item; raw := line;
     text := Some (item_content isOrderedList line);
     depth := None; items := None; lang := None; url := None;
     children := Some (parseInline (item_content isOrderedList line));
     ordered := Some isOrderedList |}.

(** The loop of [parseList] ends before [post]: there is no line left, or
    the next line is no item and no continuation at the tracked
    indentation [cur]. *)
Definition list_ends (isOrderedList : bool) (cur : Z) (post : list jsstring)
  : bool :=
  match post with
  | [] => true
  | line :: _ =>
      match listItemMatch isOrderedList line with
      | Some _ => false
      | None => negb ((cur <? indent_of line)%Z && truthy (trim line))
      end
  end.

(** The [li] element of an item without inline constructs: the escaped
    content, and what is rendered of a nested list. *)
Definition li_html (content nested : jsstring) : jsstring :=
  str "<li>" ++ escapeHtml content ++ nested ++ str "</li>".

Definition list_tag (isOrderedList : bool) : jsstring :=
  if isOrderedList then str "ol" else str "ul".

(* ===================================================================== *)
(** * Properties *)
(* ===================================================================== *)

(** ** Strings *)

Lemma starts_with_length p s :
  starts_with p s = true -> length p <= length s.
Proof.
  revert s. induction p as [|a p IH]; intros [|b s]; simpl; try lia; try done.
  intros [_ Hp]%andb_prop. specialize (IH _ Hp). lia.
Qed.

Lemma starts_with_head p a s c :
  starts_with (a :: p) (c :: s) = true -> c = a.
Proof. simpl. intros [Ha _]%andb_prop. apply N.eqb_eq in Ha. done. Qed.

Lemma index_from_spec p s k e :
  index_from p s k = Some e ->
  k <= e /\ e - k < length s /\ starts_with p (drop (e - k) s) = true.
Proof.
  revert k. induction s as [|c s IH]; intros k; simpl; [done|].
  destruct (starts_with p (c :: s)) eqn:Hp.
  - intros [= <-]. rewrite Nat.sub_diag. simpl. repeat split; [lia | lia | done].
  - intros He. apply IH in He as (Hle & Hlt & Hs).
    replace (e - k) with (S (e - S k)) by lia. simpl.
    repeat split; [lia | lia | done].
Qed.

(** What [indexOf] finds lies at or after [from] and fits in the string. *)
Lemma indexOf_bounds s p from e :
  indexOf s p from = Some e ->
  from <= e /\ e + length p <= length s /\ e < length s.
Proof.
  unfold indexOf. intros He. apply index_from_spec in He as (Hle & Hlt & Hs).
  apply starts_with_length in Hs.
  rewrite !length_drop in *. lia.
Qed.

Lemma slice_take s i j :
  i <= j -> take i s ++ slice s i j = take j s.
Proof.
  intros Hij. unfold slice.
  rewrite <- (take_drop i (take j s)) at 1.
  rewrite take_take, Nat.min_l by lia.
  by rewrite skipn_firstn_comm.
Qed.

Lemma at_Some_lt s i c : at_ s i = Some c -> i < length s.
Proof. unfold at_. apply lookup_lt_Some. Qed.

Lemma at_None_ge s i : at_ s i = None -> length s <= i.
Proof. unfold at_. apply lookup_ge_None. Qed.

Lemma at_is_Some s i a : at_is s i a = true -> at_ s i = Some (ch a).
Proof.
  unfold at_is. destruct (at_ s i) as [c|]; [|done].
  unfold is_ch. intros ->%N.eqb_eq. done.
Qed.

(** ** Inline tokenizer *)

(** A recognised construct covers the text from [i] up to the index the
    scan continues at, which is further on and within the text. *)
Lemma inline_bold_span txt i t i' :
  inline_bold txt i = Some (t, i') ->
  raw t = slice txt i i' /\ i < i' <= length txt.
Proof.
  unfold inline_bold.
  destruct (startsWith txt (str "**") i || startsWith txt (str "__") i) eqn:Hm;
    [|done].
  assert (length (substr txt i 2) = 2) as Hlen.
  { unfold substr. rewrite length_take, length_drop.
    apply orb_prop in Hm as [Hm|Hm]; unfold startsWith in Hm;
      apply starts_with_length in Hm; rewrite length_drop in Hm;
      simpl in Hm; lia. }
  destruct (indexOf txt (substr txt i 2) (i + 2)) as [e|] eqn:He; [|done].
  intros [= <- <-]. apply indexOf_bounds in He. simpl. split; [done | lia].
Qed.

Lemma inline_italic_span txt i t i' :
  inline_italic txt i = Some (t, i') ->
  raw t = slice txt i i' /\ i < i' <= length txt.
Proof.
  unfold inline_italic. destruct (at_ txt i) as [c|]; [|done].
  destruct (is_ch "*" c || is_ch "_" c); [|done].
  destruct (indexOf txt [c] (i + 1)) as [e|] eqn:He; [|done].
  intros [= <- <-]. apply indexOf_bounds in He. simpl in *. split; [done | lia].
Qed.

Lemma inline_code_span txt i t i' :
  inline_code txt i = Some (t, i') ->
  raw t = slice txt i i' /\ i < i' <= length txt.
Proof.
  unfold inline_code. destruct (at_is txt i "`"); [|done].
  destruct (indexOf txt (str "`") (i + 1)) as [e|] eqn:He; [|done].
  intros [= <- <-]. apply indexOf_bounds in He. simpl in *. split; [done | lia].
Qed.

Lemma inline_link_span txt i t i' :
  inline_link txt i = Some (t, i') ->
  raw t = slice txt i i' /\ i < i' <= length txt.
Proof.
  unfold inline_link. destruct (at_is txt i "["); [|done].
  destruct (indexOf txt (str "]") i) as [titleEnd|] eqn:Ht; [|done].
  destruct (at_is txt (titleEnd + 1) "("); [|done].
  destruct (indexOf txt (str ")") (titleEnd + 2)) as [urlEnd|] eqn:Hu; [|done].
  intros [= <- <-]. apply indexOf_bounds in Ht, Hu. simpl in *.
  split; [done | lia].
Qed.

Lemma inline_construct_span txt i t i' :
  inline_construct txt i = Some (t, i') ->
  raw t = slice txt i i' /\ i < i' <= length txt.
Proof.
  unfold inline_construct.
  destruct (inline_bold txt i) as [[t1 i1]|] eqn:Hb.
  { intros [= <- <-]. by apply inline_bold_span. }
  destruct (inline_italic txt i) as [[t1 i1]|] eqn:Hi.
  { intros [= <- <-]. by apply inline_italic_span. }
  destruct (inline_code txt i) as [[t1 i1]|] eqn:Hc.
  { intros [= <- <-]. by apply inline_code_span. }
  apply inline_link_span.
Qed.

(** Bold is tried first: where it is recognised, it is the construct. *)
Lemma inline_construct_bold txt i r :
  inline_bold txt i = Some r -> inline_construct txt i = Some r.
Proof. unfold inline_construct. by intros ->. Qed.

Lemma raws_app ts us : raws (ts ++ us) = raws ts ++ raws us.
Proof. unfold raws. by rewrite map_app, concat_app. Qed.

Lemma raws_flush current : raws (flush current) = current.
Proof.
  unfold flush. destruct current; simpl; [done|].
  unfold raws. simpl. by rewrite app_nil_r.
Qed.

(** The invariant of the scan: the tokens and the pending text cover the
    text up to [i]; with fuel for the rest of the text the loop returns,
    and its tokens cover all of the text. *)
Lemma parseInline_loop_returns fuel txt i current tokens :
  i <= length txt ->
  raws tokens ++ current = take i txt ->
  length txt - i < fuel ->
  exists ts, parseInline_loop fuel txt i current tokens = Some ts
             /\ raws ts = txt.
Proof.
  revert i current tokens.
  induction fuel as [|fuel IH]; intros i current tokens Hi Hinv Hfuel; [lia|].
  simpl. destruct (at_ txt i) as [c|] eqn:Hc.
  - apply at_Some_lt in Hc as Hlt.
    destruct (inline_construct txt i) as [[t i']|] eqn:Hk.
    + apply inline_construct_span in Hk as [Hraw Hi'].
      apply IH; [lia | | lia].
      rewrite !raws_app, raws_flush, app_nil_r, app_assoc, Hinv.
      unfold raws at 1. simpl. rewrite app_nil_r, Hraw.
      apply slice_take. lia.
    + apply IH; [lia | | lia].
      rewrite app_assoc, Hinv. symmetry. by apply take_S_r.
  - apply at_None_ge in Hc. eexists. split; [done|].
    rewrite raws_app, raws_flush, Hinv. apply take_ge. lia.
Qed.

Lemma parseInline_loop_total txt :
  parseInline_loop (S (length txt)) txt 0 [] [] = Some (parseInline txt).
Proof.
  destruct (parseInline_loop_returns (S (length txt)) txt 0 [] [])
    as (ts & Hts & _); [lia | done | lia |].
  unfold parseInline. by rewrite Hts.
Qed.

(** C9. For every line, the [raw] fields of the tokens of
    [parseInline(line)], concatenated in order, are the line: the raw spans
    cover it without gap or overlap. *)
Theorem parseInline_raw_covers_line (line : jsstring) :
  concat (map raw (parseInline line)) = line.
Proof.
  destruct (parseInline_loop_returns (S (length line)) line 0 [] [])
    as (ts & Hts & Hraws); [lia | done | lia |].
  unfold parseInline. rewrite Hts. exact Hraws.
Qed.

(** C4. Bold is tried before italic at every index, and [**a*b*c**] is one
    bold token with text [a*b*c], no italic token and no children. *)
Theorem parseInline_bold_precedence :
  (forall txt i r, inline_bold txt i = Some r -> inline_construct txt i = Some r)
  /\ parseInline (str "**a*b*c**")
     = [ {| type := TokenType.bold;
            raw := str "**a*b*c**";
            text := Some (str "a*b*c");
            depth := None; items := None; lang := None; url := None;
            children := None; ordered := None |} ].
Proof. split; [apply inline_construct_bold | reflexivity]. Qed.

Lemma parseInline_bold_precedence_witness :
  inline_bold (str "**a*b*c**") 0
  = Some (set_text (str "a*b*c") (token TokenType.bold (str "**a*b*c**")), 9)
  /\ inline_construct (str "**a*b*c**") 0
     = Some (set_text (str "a*b*c") (token TokenType.bold (str "**a*b*c**")), 9).
Proof.
  split; [reflexivity|].
  apply (proj1 parseInline_bold_precedence). reflexivity.
Defined.

(** ** The matcher *)

Lemma first_down_shift {R} (f : nat -> option R) lo len :
  first_down (fun j => f (S j)) lo len = first_down f (S lo) len.
Proof. induction len as [|l IH]; [done|]. cbn. by rewrite IH. Qed.

Lemma first_down_zero {R} (f : nat -> option R) len :
  first_down f 0 (S len)
  = match first_down f 1 len with Some x => Some x | None => f 0 end.
Proof.
  induction len as [|l IH]; [cbn; by destruct (f 0)|].
  change (first_down f 0 (S (S l)))
    with (match f (0 + S l) with
          | Some x => Some x
          | None => first_down f 0 (S l)
          end).
  rewrite IH. cbn. by destruct (f (S l)).
Qed.

Lemma first_down_none {R} (f : nat -> option R) lo len :
  (forall j, lo <= j < lo + len -> f j = None) -> first_down f lo len = None.
Proof.
  induction len as [|l IH]; intros Hf; [done|].
  cbn. rewrite Hf by lia. apply IH. intros j Hj. apply Hf. lia.
Qed.

Lemma first_down_top {R} (f : nat -> option R) lo l :
  (forall j, lo <= j < lo + l -> f j = None) ->
  first_down f lo (S l) = f (lo + l).
Proof.
  intros Hf. cbn. rewrite (first_down_none f lo l Hf). by destruct (f (lo + l)).
Qed.

Lemma first_down_second {R} (f : nat -> option R) lo l x :
  f (lo + S l) = None -> f (lo + l) = Some x ->
  first_down f lo (S (S l)) = Some x.
Proof.
  intros Htop Hnext.
  change (first_down f lo (S (S l)))
    with (match f (lo + S l) with
          | Some x => Some x
          | None => first_down f lo (S l)
          end).
  rewrite Htop. cbn. by rewrite Hnext.
Qed.

(** A greedy repetition tries its continuation on what is left after
    [j] repetitions, from as many as it can reach down to [min]. *)
Lemma run_rep_spec {R} cls min max s (k : jsstring -> option R) :
  Regex.run_rep cls min max s k
  = first_down (fun j => k (drop j s)) min (S (reach cls max s) - min).
Proof.
  revert min max. induction s as [|c s IH]; intros min max.
  { assert (reach cls max [] = 0) as -> by (destruct max; cbn; lia).
    destruct min; cbn; [by destruct (k [])|done]. }
  cbn [Regex.run_rep].
  destruct (cls c && negb (bool_decide (max = Some 0))) eqn:Hgo.
  - apply andb_prop in Hgo as [Hc Hmax].
    apply negb_true_iff, bool_decide_eq_false in Hmax.
    assert (reach cls max (c :: s) = S (reach cls (pred <$> max) s)) as ->.
    { unfold reach. cbn [span]. rewrite Hc.
      destruct (span cls s) as [a b]. cbn [fst length].
      destruct max as [[|m]|]; cbn; [done | lia | done]. }
    rewrite IH. destruct min as [|m].
    + cbn [pred]. rewrite !Nat.sub_0_r.
      rewrite (first_down_zero (fun j => k (drop j (c :: s)))).
      rewrite <- first_down_shift. cbn [drop]. done.
    + cbn [pred]. rewrite <- first_down_shift. cbn [drop].
      replace (S (S (reach cls (pred <$> max) s)) - S m)
        with (S (reach cls (pred <$> max) s) - m) by lia.
      by destruct (first_down _ _ _).
  - assert (reach cls max (c :: s) = 0) as ->.
    { unfold reach. cbn [span].
      apply andb_false_iff in Hgo as [Hc | Hmax].
      - rewrite Hc. destruct max; cbn; lia.
      - apply negb_false_iff, bool_decide_eq_true in Hmax. subst max. cbn. lia. }
    destruct min; cbn; [by destruct (k (c :: s))|done].
Qed.

Lemma run_rep_ext {R} cls min max s (k k' : jsstring -> option R) :
  (forall s', k s' = k' s') ->
  Regex.run_rep cls min max s k = Regex.run_rep cls min max s k'.
Proof.
  intros Hk. rewrite !run_rep_spec.
  generalize (S (reach cls max s) - min). intros len.
  induction len as [|l IH]; [done|]. cbn. by rewrite Hk, IH.
Qed.

(** A repetition without upper bound before the end of the subject takes
    all of what is left, which has to be in the class. *)
Lemma run_rep_to_end {R} cls min s (k : jsstring -> option R) :
  (forall s', s' ≠ [] -> k s' = None) ->
  Regex.run_rep cls min None s k
  = if forallb cls s && (min <=? length s) then k [] else None.
Proof.
  intros Hk. revert min. induction s as [|c s IH]; intros min.
  { destruct min; cbn; [by destruct (k [])|done]. }
  cbn [Regex.run_rep forallb length].
  assert (match min with 0 => k (c :: s) | S _ => None end = None) as ->.
  { destruct min; [by apply Hk | done]. }
  destruct (cls c); cbn [andb negb]; [|done].
  rewrite bool_decide_eq_false_2 by done. cbn [negb fmap option_fmap option_map].
  rewrite IH.
  replace (pred min <=? length s) with (min <=? S (length s)).
  2:{ destruct min; [done|]. cbn [pred]. done. }
  by destruct (forallb cls s && (min <=? S (length s))); [destruct (k [])|].
Qed.

(** ** Spans *)

Lemma span_spec f s w r :
  span f s = (w, r) -> s = w ++ r /\ forallb f w = true.
Proof.
  revert w r. induction s as [|c s IH]; intros w r; simpl.
  { by intros [= <- <-]. }
  destruct (f c) eqn:Hc.
  - destruct (span f s) as [a b]. intros [= <- <-].
    destruct (IH a b eq_refl) as [-> Ha]. simpl. by rewrite Hc, Ha.
  - by intros [= <- <-].
Qed.

Lemma span_app f a b :
  forallb f a = true ->
  span f (a ++ b) = (a ++ fst (span f b), snd (span f b)).
Proof.
  induction a as [|c a IH]; simpl.
  { intros _. by destruct (span f b). }
  intros [-> Ha]%andb_prop. rewrite (IH Ha). done.
Qed.

Lemma span_stop f s :
  (forall c, head s = Some c -> f c = false) -> span f s = ([], s).
Proof.
  destruct s as [|c s]; simpl; [done|]. intros Hc. by rewrite (Hc c).
Qed.

Lemma forallb_last {A} (f : A -> bool) l c :
  forallb f l = true -> last l = Some c -> f c = true.
Proof.
  intros Hl Hc. rewrite forallb_forall in Hl. apply Hl.
  apply list_elem_of_In. by apply last_Some_elem_of.
Qed.


Lemma forallb_drop_last {A} (f : A -> bool) (w : list A) c j :
  last w = Some c -> f c = false -> j < length w ->
  forallb f (drop j w) = false.
Proof.
  intros [w' ->]%last_Some Hc Hj. rewrite length_app in Hj. simpl in Hj.
  rewrite drop_app_le by lia. rewrite forallb_app. cbn. rewrite Hc.
  by rewrite andb_false_r.
Qed.

Lemma span_fst_length f s w r : span f s = (w, r) -> reach f None s = length w.
Proof. unfold reach. by intros ->. Qed.

(** [\s+(.+)$]: the white space gives back at most one code unit to the
    text. *)
Lemma spaces_then_text {R} s (G : jsstring -> R) :
  Regex.run_rep isSpace 1 None s
    (fun sa =>
       if forallb isDot sa && (1 <=? length sa) then Some (G sa) else None)
  = G <$> space_then_rest s.
Proof.
  rewrite run_rep_spec. unfold space_then_rest.
  destruct (span isSpace s) as [w r] eqn:Hspan.
  rewrite (span_fst_length _ _ _ _ Hspan).
  apply span_spec in Hspan as [-> Hw].
  replace (S (length w) - 1) with (length w) by lia.
  destruct w as [|c0 w0]; [done|].
  destruct r as [|c r].
  - rewrite app_nil_r.
    destruct (last (c0 :: w0)) as [cl|] eqn:Hlast.
    2:{ by apply last_None in Hlast. }
    destruct w0 as [|c1 w1].
    { cbn in Hlast. injection Hlast as <-. cbn.
      by rewrite andb_false_r. }
    destruct (isDot cl) eqn:Hcl.
    + cbn [length andb Nat.leb fmap option_fmap option_map].
      apply first_down_second.
      * replace (1 + S (length w1)) with (length (c0 :: c1 :: w1)) by (cbn; lia).
        by rewrite drop_all.
      * apply last_Some in Hlast as [w' Hw'].
        rewrite Hw'. replace (1 + length w1) with (length w').
        2:{ apply (f_equal length) in Hw'. rewrite length_app in Hw'.
            cbn in Hw'. lia. }
        rewrite drop_app_length. cbn. by rewrite Hcl.
    + cbn [andb fmap option_fmap option_map].
      apply first_down_none. intros j Hj.
      destruct (decide (j = length (c0 :: c1 :: w1))) as [->|Hne].
      * by rewrite drop_all.
      * rewrite (forallb_drop_last isDot _ cl j); [done | done | done |].
        cbn [length] in *. lia.
  - destruct (forallb isDot (c :: r)) eqn:Hr.
    + cbn [length]. cbn [first_down].
      replace (1 + length w0) with (length (c0 :: w0)) by (cbn; lia).
      rewrite drop_app_length, Hr. done.
    + cbn [fmap option_fmap option_map].
      apply first_down_none. intros j Hj.
      rewrite drop_app_le by (cbn [length] in *; lia).
      rewrite forallb_app, Hr. by rewrite andb_false_r.
Qed.

Lemma span_rest f s w r c :
  span f s = (w, r) -> head r = Some c -> f c = false.
Proof.
  revert w r. induction s as [|c' s IH]; intros w r; cbn [span].
  { by intros [= <- <-]. }
  destruct (f c') eqn:Hc'.
  - destruct (span f s) as [a b]. intros [= <- <-]. by apply (IH a b).
  - intros [= <- <-]. cbn. by intros [= <-].
Qed.

Lemma header_tail_hash line c s : is_ch "#" c = true -> header_tail line (c :: s) = None.
Proof.
  intros ->%N.eqb_eq. unfold header_tail, space_then_rest.
  by cbn [span].
Qed.

(** The matcher on the header pattern finds the groups that
    [header_groups] reads off the line. *)
Lemma header_exec_spec line :
  Regex.exec Pattern.header line = header_groups line.
Proof.
  unfold Regex.exec, Pattern.header, Regex.Plus. cbn [Regex.run].
  rewrite (run_rep_ext _ _ _ _ _ (header_tail line)).
  2:{ intros s'. unfold header_tail.
      rewrite (run_rep_ext _ _ _ _ _
                 (fun sa =>
                    if forallb isDot sa && (1 <=? length sa)
                    then Some [(2, s'); (3, sa);
                               (1, take (length line - length s') line)]
                    else None)).
      2:{ intros sa. rewrite run_rep_to_end by (by intros [|? ?]).
          cbn [length]. by rewrite !Nat.sub_0_r, !take_ge by lia. }
      rewrite (spaces_then_text s'
                 (fun sa => [(2, s'); (3, sa);
                             (1, take (length line - length s') line)])).
      by destruct (space_then_rest s'). }
  rewrite run_rep_spec. unfold header_groups, reach.
  destruct (span (is_ch "#") line) as [h rest] eqn:Hspan. cbn [fst].
  pose proof (fun c => span_rest _ _ _ _ c Hspan) as Hrest.
  apply span_spec in Hspan as [-> Hh].
  assert (forall j, j < length h ->
            header_tail (h ++ rest) (drop j (h ++ rest)) = None) as Hlow.
  { intros j Hj. rewrite drop_app_le by lia.
    destruct (drop j h) as [|c tl] eqn:Hdrop.
    { apply (f_equal length) in Hdrop. rewrite length_drop in Hdrop.
      cbn in Hdrop. lia. }
    apply header_tail_hash.
    rewrite forallb_forall in Hh. apply Hh, list_elem_of_In.
    apply (subseteq_drop j h). rewrite Hdrop. left. }
  destruct (Nat.le_gt_cases (length h) 6) as [Hle|Hgt].
  - rewrite Nat.min_r by lia.
    replace (S (length h) - 1) with (length h) by lia.
    destruct (length h) as [|m] eqn:Hlen.
    { done. }
    replace (S m <=? 6) with true by (symmetry; apply Nat.leb_le; lia).
    cbn [Nat.leb andb]. rewrite first_down_top.
    2:{ intros j Hj. apply Hlow. lia. }
    replace (1 + m) with (length h) by lia.
    rewrite drop_app_length. unfold header_tail.
    rewrite length_app.
    replace (length h + length rest - length rest) with (length h) by lia.
    rewrite take_app_length.
    destruct rest as [|c rest']; [done|].
    by destruct (space_then_rest (c :: rest')).
  - rewrite Nat.min_l by lia.
    replace (length h <=? 6) with false by (symmetry; apply Nat.leb_gt; lia).
    rewrite andb_false_r. apply first_down_none. intros j Hj. apply Hlow. lia.
Qed.

(** ** Header *)

Lemma forallb_hashes n : forallb (is_ch "#") (hashes n) = true.
Proof.
  unfold hashes. induction n as [|n IH]; [done|].
  cbn [replicate forallb]. rewrite IH. reflexivity.
Qed.

Lemma span_hashes n rest :
  head rest ≠ Some (ch "#") ->
  span (is_ch "#") (hashes n ++ rest) = (hashes n, rest).
Proof.
  intros Hrest. rewrite span_app by apply forallb_hashes.
  rewrite span_stop, app_nil_r; [done|].
  intros c Hc. destruct (is_ch "#" c) eqn:Hh; [|done].
  apply N.eqb_eq in Hh. subst c. done.
Qed.

(** White space and then text without a line terminator: the pattern
    [\s+(.+)$] matches, whatever white space the text itself begins with. *)
Lemma space_then_rest_matches ws txt :
  ws ≠ [] -> forallb isSpace ws = true ->
  txt ≠ [] -> forallb isDot txt = true ->
  exists t, space_then_rest (ws ++ txt) = Some t.
Proof.
  intros Hws Hsp Htxt Hdot. unfold space_then_rest.
  rewrite span_app by done.
  destruct (span isSpace txt) as [w2 r] eqn:Hspan.
  apply span_spec in Hspan as [-> Hw2]. cbn [fst snd].
  rewrite forallb_app in Hdot. apply andb_prop in Hdot as [Hd2 Hdr].
  destruct (ws ++ w2) as [|c0 w] eqn:Hw.
  { destruct ws; simpl in Hw; done. }
  destruct r as [|c r].
  - rewrite app_nil_r in Htxt.
    destruct (last (c0 :: w)) as [c|] eqn:Hlast.
    2:{ by apply last_None in Hlast. }
    assert (last w2 = Some c) as Hl2.
    { rewrite <- Hw, last_app in Hlast.
      destruct (last w2) eqn:E; [done|]. by apply last_None in E. }
    rewrite (forallb_last _ _ _ Hd2 Hl2).
    assert (2 <= length (c0 :: w)) as Hlen.
    { rewrite <- Hw, length_app. destruct ws, w2; simpl; try done; lia. }
    apply Nat.leb_le in Hlen. rewrite Hlen. eauto.
  - rewrite Hdr. eauto.
Qed.

Lemma header_matches n ws txt :
  1 <= n <= 6 ->
  ws ≠ [] -> forallb isSpace ws = true ->
  txt ≠ [] -> forallb isDot txt = true ->
  exists t, header_groups (hashes n ++ ws ++ txt)
            = Some [(2, ws ++ txt); (3, t); (1, hashes n)].
Proof.
  intros Hn Hws Hsp Htxt Hdot. unfold header_groups.
  rewrite span_hashes.
  2:{ destruct ws as [|c ws]; [done|]. simpl in *.
      apply andb_prop in Hsp as [Hc _]. intros [= ->]. done. }
  unfold hashes at 1 2. rewrite length_replicate.
  replace (1 <=? n) with true by (symmetry; apply Nat.leb_le; lia).
  replace (n <=? 6) with true by (symmetry; apply Nat.leb_le; lia).
  cbn [andb].
  destruct (space_then_rest_matches ws txt) as (t & Hm); try done.
  rewrite Hm. destruct (ws ++ txt) eqn:E.
  { destruct ws; done. }
  eauto.
Qed.

Lemma header_too_many n rest :
  6 < n -> head rest ≠ Some (ch "#") ->
  header_groups (hashes n ++ rest) = None.
Proof.
  intros Hn Hrest. unfold header_groups. rewrite span_hashes by done.
  unfold hashes. rewrite length_replicate.
  replace (n <=? 6) with false by (symmetry; apply Nat.leb_gt; lia).
  by rewrite andb_false_r.
Qed.

Lemma header_bare n :
  header_groups (hashes n) = None
  \/ header_groups (hashes n) = Some [(1, hashes n)].
Proof.
  assert (span (is_ch "#") (hashes n) = (hashes n, [])) as Hspan.
  { rewrite <- (app_nil_r (hashes n)) at 1. by rewrite span_hashes. }
  unfold header_groups. rewrite Hspan.
  destruct ((1 <=? length (hashes n)) && (length (hashes n) <=? 6)); auto.
Qed.

(** C6, as the code has it.  A line of one to six [#], white space, and
    text that is not empty and holds no line terminator is a header token
    whose depth is the number of [#].  A line that begins with more than
    six [#], and a bare run of [#], are paragraph tokens whose children are
    the inline tokens of the line itself. *)
Theorem parseHeader_depth_and_fallback :
  (forall n ws txt,
      1 <= n <= 6 ->
      ws ≠ [] -> forallb isSpace ws = true ->
      txt ≠ [] -> forallb isDot txt = true ->
      type (parseHeader (hashes n ++ ws ++ txt)) = TokenType.header
      /\ depth (parseHeader (hashes n ++ ws ++ txt)) = Some n
      /\ raw (parseHeader (hashes n ++ ws ++ txt)) = hashes n ++ ws ++ txt)
  /\ (forall n rest,
        6 < n -> head rest ≠ Some (ch "#") ->
        parseHeader (hashes n ++ rest)
        = set_children (parseInline (hashes n ++ rest))
            (token TokenType.paragraph (hashes n ++ rest)))
  /\ (forall n,
        parseHeader (hashes n)
        = set_children (parseInline (hashes n))
            (token TokenType.paragraph (hashes n))).
Proof.
  split; [|split].
  - intros n ws txt Hn Hws Hsp Htxt Hdot.
    destruct (header_matches n ws txt) as (t & Hm); try done.
    unfold parseHeader. rewrite header_exec_spec, Hm.
    cbn [Regex.group Regex.group_ Nat.eqb or_empty default id].
    assert (truthy (ws ++ txt) = true) as -> by (destruct ws; done).
    cbn [negb]. split; [done | split; [|done]].
    cbn [depth set_children set_depth]. f_equal.
    unfold hashes. apply length_replicate.
  - intros n rest Hn Hrest. unfold parseHeader.
    by rewrite header_exec_spec, header_too_many.
  - intros n. unfold parseHeader. rewrite header_exec_spec.
    by destruct (header_bare n) as [-> | ->].
Qed.

Lemma parseHeader_depth_and_fallback_witness :
  (type (parseHeader (str "## Title")) = TokenType.header
   /\ depth (parseHeader (str "## Title")) = Some 2
   /\ raw (parseHeader (str "## Title")) = str "## Title")
  /\ parseHeader (str "####### x")
     = set_children (parseInline (str "####### x"))
         (token TokenType.paragraph (str "####### x")).
Proof.
  split.
  - apply (proj1 parseHeader_depth_and_fallback 2 (str " ") (str "Title"));
      [lia | done | reflexivity | done | reflexivity].
  - apply (proj1 (proj2 parseHeader_depth_and_fallback) 7 (str " x"));
      [lia | done].
Defined.

(** C6 as the specification words it fails on text with a line terminator:
    the first line of a document with CR LF line ends, [# Title] and a
    carriage return, is one [#], white space and text that is not empty,
    and [parseHeader] makes a paragraph of it; so it does of [# a], a
    carriage return and [b]. *)
Lemma parseHeader_carriage_return_counterexample :
  let n := 1 in
  let ws := str " " in
  let txt := str "Title" ++ [13%N] in
  let line := hashes n ++ ws ++ txt in
  (1 <= n <= 6) /\ ws ≠ [] /\ forallb isSpace ws = true /\ txt ≠ []
  /\ split_lines (str "# Title" ++ [13%N; 10%N] ++ str "body") !! 0 = Some line
  /\ type (parseHeader line) = TokenType.paragraph
  /\ type (parseHeader line) ≠ TokenType.header
  /\ type (parseHeader (hashes 1 ++ str " " ++ str "a" ++ 13%N :: str "b"))
     = TokenType.paragraph.
Proof. cbv zeta. repeat split; try done; lia. Qed.

(** ** Blockquote *)

Lemma blockquote_content_app a b :
  blockquote_content (a ++ b) = blockquote_content a ++ blockquote_content b.
Proof. unfold blockquote_content. by rewrite filter_app, map_app. Qed.

Lemma blockquote_scan_spec rest i content :
  blockquote_scan rest i content
  = (i + length (consumed_lines rest),
     content ++ blockquote_content (consumed_lines rest)).
Proof.
  revert i content. induction rest as [|line rest IH]; intros i content.
  { cbn. by rewrite Nat.add_0_r, app_nil_r. }
  cbn [blockquote_scan consumed_lines]. destruct (quoted line) eqn:Hq.
  - rewrite IH. cbn [length]. f_equal; [lia|].
    change (line :: consumed_lines rest) with ([line] ++ consumed_lines rest).
    rewrite blockquote_content_app, app_assoc. f_equal.
    unfold blockquote_content. rewrite filter_cons, filter_nil.
    destruct (isBlank line) eqn:Hb; cbn [negb].
    + rewrite decide_False by (simpl; tauto). cbn. by rewrite app_nil_r.
    + rewrite decide_True by (simpl; tauto). done.
  - cbn. by rewrite Nat.add_0_r, app_nil_r.
Qed.

Lemma consumed_lines_prefix rest :
  take (length (consumed_lines rest)) rest = consumed_lines rest.
Proof.
  induction rest as [|line rest IH]; simpl; [done|].
  destruct (quoted line); simpl; [by rewrite IH | done].
Qed.

Lemma consumed_lines_quoted rest :
  Forall (fun line => isBlank line = false -> exists r, line = ch ">" :: r)
         (consumed_lines rest).
Proof.
  induction rest as [|line rest IH]; simpl; [constructor|].
  destruct (quoted line) eqn:Hq; [|constructor].
  constructor; [|done]. intros Hb. unfold quoted in Hq. rewrite Hb in Hq.
  rewrite orb_false_r in Hq. destruct line as [|c r]; [done|].
  apply starts_with_head in Hq. subst c. eauto.
Qed.

(** C5, as the code has it.  The lines a blockquote consumes from
    [startIndex] are the longest run of lines that start with [>] or are
    blank; each one that is not blank starts with [>] and contributes
    itself without that [>] and trimmed of all white space at both ends;
    the contributions, joined by newlines, are tokenized by the block
    tokenizer, and its tokens are the children of the blockquote. *)
Theorem parseBlockquote_content
  (tokenize : jsstring -> outcome (list Token))
  (lines : list jsstring) (startIndex : nat) (kids : list Token) :
  let consumed := consumed_lines (drop startIndex lines) in
  let content :=
    map (fun line => trim (slice_from line 1))
        (filter (fun line => negb (isBlank line)) consumed) in
  tokenize (join_lines content) = Ok kids ->
  Forall (fun line => isBlank line = false -> exists r, line = ch ">" :: r)
         consumed
  /\ parseBlockquote tokenize lines startIndex
     = Ok (set_children kids
             (token TokenType.blockquote (join_lines consumed)),
           (Z.of_nat (startIndex + length consumed) - 1)%Z).
Proof.
  intros consumed content Hkids. split; [apply consumed_lines_quoted|].
  unfold parseBlockquote. rewrite blockquote_scan_spec. cbv beta iota.
  rewrite app_nil_l.
  change (blockquote_content (consumed_lines (drop startIndex lines)))
    with content.
  rewrite Hkids. unfold slice_lines. fold consumed.
  replace (startIndex + length consumed - startIndex) with (length consumed)
    by lia.
  unfold consumed at 1. rewrite consumed_lines_prefix. reflexivity.
Qed.

Lemma parseBlockquote_content_witness :
  parseBlockquote (tokenize 1 5) [str "intro"; str ">   a  "; []; str "> b"; str "end"] 1
  = Ok (set_children
          [paragraph_of (str "a"); paragraph_of (str "b")]
          (token TokenType.blockquote
             (join_lines [str ">   a  "; []; str "> b"])),
        3%Z).
Proof.
  apply (parseBlockquote_content (tokenize 1 5)
           [str "intro"; str ">   a  "; []; str "> b"; str "end"] 1).
  reflexivity.
Defined.

(** C5 as the specification words it fails on a quoted line with more
    white space than one space after the [>], or with white space at its
    end: all of it is trimmed away. *)
Lemma parseBlockquote_one_space_counterexample :
  let line := str ">   a  " in
  consumed_lines [line] = [line]
  /\ isBlank line = false
  /\ snd (blockquote_scan [line] 0 []) = [str "a"]
  /\ strip_marker_and_one_space line = str "  a  "
  /\ snd (blockquote_scan [line] 0 []) ≠ [strip_marker_and_one_space line].
Proof. cbv zeta. repeat split; done. Qed.

(** ** Fenced code block *)

Lemma codeblock_scan_no_fence rest i content :
  Forall (fun line => starts_with fence line = false) rest ->
  codeblock_scan rest i content = (i + length rest, content ++ rest).
Proof.
  revert i content. induction rest as [|line rest IH]; intros i content Hall;
    cbn [codeblock_scan].
  { cbn. by rewrite Nat.add_0_r, app_nil_r. }
  inversion Hall as [|? ? Hline Hrest]; subst. rewrite Hline. cbn [negb].
  rewrite IH by done. cbn [length]. f_equal; [lia|]. by rewrite <- app_assoc.
Qed.

Lemma parseCodeBlock_unclosed lines i line :
  lines !! i = Some line ->
  Forall (fun l => starts_with fence l = false) (drop (S i) lines) ->
  parseCodeBlock lines i = Throw (Error (str "Unclosed code block")).
Proof.
  intros Hline Hall. unfold parseCodeBlock. rewrite Hline.
  replace (i + 1) with (S i) by lia.
  rewrite codeblock_scan_no_fence by done.
  apply lookup_lt_Some in Hline. rewrite length_drop.
  replace (length lines <=? S i + (length lines - S i)) with true; [done|].
  symmetry. apply Nat.leb_le. lia.
Qed.

Lemma fence_not_hash_nor_quote line :
  starts_with fence line = true ->
  starts_with (str "#") line = false /\ starts_with (str ">") line = false.
Proof.
  destruct line as [|c line]; [done|]. intros Hc.
  apply starts_with_head in Hc. subst c. done.
Qed.

(** C2. Where the line at [i] opens a fence and no later line starts with
    a fence, [parseCodeBlock] throws, the handler of the loop catches it,
    the opening line alone becomes a paragraph token with its escaped raw
    text, and the loop goes on with the line after it. *)
Theorem tokenize_unclosed_fence
  (tokenize : jsstring -> outcome (list Token)) (fuel : nat)
  (lines : list jsstring) (i : nat) (line : jsstring) (tokens : list Token) :
  lines !! i = Some line ->
  starts_with fence line = true ->
  Forall (fun l => starts_with fence l = false) (drop (S i) lines) ->
  let paragraph :=
    {| type := TokenType.paragraph; raw := line;
       text := Some (escapeHtml line);
       depth := None; items := None; lang := None; url := None;
       children := None; ordered := None |} in
  parseCodeBlock lines i = Throw (Error (str "Unclosed code block"))
  /\ tokenize_line tokenize lines i line tokens
     = Ok (tokens ++ [paragraph], Z.of_nat i)
  /\ tokenize_loop tokenize (S fuel) lines i tokens
     = tokenize_loop tokenize fuel lines (S i) (tokens ++ [paragraph]).
Proof.
  intros Hline Hfence Hall paragraph.
  pose proof (parseCodeBlock_unclosed lines i line Hline Hall) as Hthrow.
  destruct (fence_not_hash_nor_quote line Hfence) as [Hh Hq].
  assert (tokenize_line tokenize lines i line tokens
          = Ok (tokens ++ [paragraph], Z.of_nat i)) as Hstep.
  { unfold tokenize_line. rewrite Hh, Hq, Hfence, Hthrow. reflexivity. }
  split; [done | split; [done|]].
  simpl. rewrite Hline, Hstep. simpl.
  by replace (Z.to_nat (Z.of_nat i + 1)) with (S i) by lia.
Qed.

Lemma tokenize_unclosed_fence_witness :
  tokenize_loop (tokenize 1 5) 4 (split_lines (str "```js
code
more")) 0 []
  = tokenize_loop (tokenize 1 5) 3 (split_lines (str "```js
code
more")) 1 [demoted (str "```js")]
  /\ tokenize 2 5 (str "```js
code
more")
     = Ok [demoted (str "```js"); paragraph_of (str "code");
           paragraph_of (str "more")].
Proof.
  split; [|reflexivity].
  apply (tokenize_unclosed_fence (tokenize 1 5) 3
           (split_lines (str "```js
code
more")) 0 (str "```js") []).
  - reflexivity.
  - reflexivity.
  - repeat constructor.
Defined.

(** ** List nesting *)

Lemma alter_last_nil {A} (f : A -> A) : alter_last f [] = [].
Proof. done. Qed.

Lemma alter_last_snoc {A} (f : A -> A) l x :
  alter_last f (l ++ [x]) = l ++ [f x].
Proof.
  unfold alter_last. rewrite length_app. simpl.
  replace (length l + 1 - 1) with (length l + 0) by lia.
  rewrite (alter_app_r f l [x] 0). done.
Qed.

Lemma top_lt st : ListScan_wf st -> top st < length (store st).
Proof.
  intros [Hne Hall]. unfold top.
  destruct (last (listStack st)) as [a|] eqn:Hlast.
  - rewrite Forall_forall in Hall. apply Hall.
    by apply last_Some_elem_of.
  - by apply last_None in Hlast.
Qed.

(** The [while] loop that pops: [k] levels go, the tracked indentation
    goes down by two for each, every one of the [k] tests succeeded and the
    one after them failed. *)
Lemma pop_levels_spec n indent st :
  length (listStack st) <= S n ->
  exists k,
    pop_levels n indent st
    = {| store := store st;
         listStack := take (length (listStack st) - k) (listStack st);
         currentIndent := (currentIndent st - 2 * Z.of_nat k)%Z |}
    /\ (forall j, j < k ->
          (indent < currentIndent st - 2 * Z.of_nat j)%Z
          /\ 1 < length (listStack st) - j)
    /\ ((currentIndent st - 2 * Z.of_nat k <= indent)%Z
        \/ length (listStack st) - k <= 1).
Proof.
  revert st. induction n as [|n IH]; intros st Hlen.
  { exists 0. cbn [pop_levels]. rewrite Nat.sub_0_r, take_ge by lia.
    rewrite Z.mul_0_r, Z.sub_0_r. split; [by destruct st|].
    split; [lia | lia]. }
  cbn [pop_levels].
  destruct ((indent <? currentIndent st)%Z && (1 <? length (listStack st)))
    eqn:Hcond.
  - apply andb_prop in Hcond as [Hi%Z.ltb_lt Hl%Nat.ltb_lt].
    set (st' := {| store := store st;
                   listStack := removelast (listStack st);
                   currentIndent := (currentIndent st - 2)%Z |}).
    assert (length (listStack st') = length (listStack st) - 1) as Hlen'.
    { cbn. rewrite removelast_firstn_len, length_take. lia. }
    destruct (IH st') as (k & Heq & Hbefore & Hafter); [lia|].
    exists (S k). rewrite Heq. cbn [store listStack currentIndent st'] in *.
    split; [|split].
    + f_equal.
      * rewrite Hlen'. rewrite removelast_firstn_len, take_take. f_equal. lia.
      * lia.
    + intros j Hj. destruct j as [|j]; [split; lia|].
      destruct (Hbefore j) as [H1 H2]; [lia|]. rewrite Hlen' in H2. split; lia.
    + rewrite Hlen' in Hafter. destruct Hafter; [left | right]; lia.
  - exists 0. rewrite Nat.sub_0_r, take_ge by lia.
    rewrite Z.mul_0_r, Z.sub_0_r. split; [by destruct st|].
    split; [lia|].
    apply andb_false_iff in Hcond as [Hi%Z.ltb_ge | Hl%Nat.ltb_ge]; lia.
Qed.

Lemma open_level_parent_empty indent st :
  array_at st (top st) = [] ->
  store (open_level indent st) = store st ++ [[]].
Proof.
  intros Hempty. cbn [open_level store]. f_equal.
  apply list_eq. intros a. unfold array_at in Hempty.
  destruct (decide (a = top st)) as [->|Hne].
  - rewrite list_lookup_alter_eq.
    destruct (store st !! top st) as [arr|] eqn:Harr; simpl in *; [|done].
    by subst arr.
  - by rewrite list_lookup_alter_ne.
Qed.

Lemma open_level_parent_last indent st init lastItem :
  array_at st (top st) = init ++ [lastItem] ->
  default [] (store (open_level indent st) !! top st)
  = init ++ [set_li_items (length (store st)) lastItem].
Proof.
  intros Harr. unfold array_at in Harr. cbn [open_level store].
  destruct (store st !! top st) as [arr|] eqn:Hlook; simpl in Harr.
  2:{ by destruct init. }
  subst arr. rewrite lookup_app_l.
  2:{ rewrite length_alter. by apply lookup_lt_Some in Hlook. }
  rewrite list_lookup_alter_eq, Hlook. simpl. apply alter_last_snoc.
Qed.

Lemma adjust_levels_pops indent st :
  ListScan_wf st -> (indent < currentIndent st)%Z ->
  exists k,
    adjust_levels indent st
    = {| store := store st;
         listStack := take (length (listStack st) - k) (listStack st);
         currentIndent := (currentIndent st - 2 * Z.of_nat k)%Z |}
    /\ k < length (listStack st)
    /\ (forall j, j < k ->
          (indent < currentIndent st - 2 * Z.of_nat j)%Z
          /\ 1 < length (listStack st) - j)
    /\ ((currentIndent st - 2 * Z.of_nat k <= indent)%Z
        \/ length (listStack st) - k = 1).
Proof.
  intros [Hne _] Hlt. unfold adjust_levels.
  replace (currentIndent st <? indent)%Z with false
    by (symmetry; apply Z.ltb_ge; lia).
  replace (indent <? currentIndent st)%Z with true
    by (symmetry; apply Z.ltb_lt; lia).
  destruct (pop_levels_spec (length (listStack st)) indent st)
    as (k & Heq & Hbefore & Hafter); [lia|].
  assert (k < length (listStack st)) as Hk.
  { destruct k as [|k].
    - destruct (listStack st); [done | simpl; lia].
    - destruct (Hbefore k); lia. }
  exists k. repeat split; try done; try (by apply Hbefore).
  destruct Hafter; [by left | right; lia].
Qed.

Lemma adjust_levels_wf indent st :
  ListScan_wf st -> ListScan_wf (adjust_levels indent st).
Proof.
  intros Hwf. pose proof Hwf as [Hne Hall].
  destruct (Z.lt_trichotomy (currentIndent st) indent) as [Hlt|[Heq|Hgt]].
  - unfold adjust_levels.
    replace (currentIndent st <? indent)%Z with true
      by (symmetry; apply Z.ltb_lt; lia).
    split; cbn [open_level listStack store].
    + by destruct (listStack st).
    + rewrite length_app, length_alter. cbn [length].
      apply Forall_app. split.
      * eapply Forall_impl; [exact Hall|]. intros a Ha. simpl in Ha. lia.
      * repeat constructor. lia.
  - unfold adjust_levels. rewrite Heq, Z.ltb_irrefl. done.
  - destruct (adjust_levels_pops indent st Hwf Hgt) as (k & -> & Hk & _).
    split; cbn [listStack store].
    + intros Hnil. apply (f_equal length) in Hnil.
      rewrite length_take in Hnil. simpl in Hnil. lia.
    + by apply Forall_take.
Qed.

Lemma push_item_wf it st : ListScan_wf st -> ListScan_wf (push_item it st).
Proof.
  intros [Hne Hall]. split; cbn [push_item listStack store]; [done|].
  by rewrite length_alter.
Qed.

Lemma continuation_wf line st :
  ListScan_wf st -> ListScan_wf (continuation line st).
Proof.
  intros [Hne Hall]. split; cbn [continuation listStack store]; [done|].
  by rewrite length_alter.
Qed.

(** Every state of a list scan is well formed. *)
Lemma list_scan_wf isOrderedList rest i st :
  ListScan_wf st -> ListScan_wf (snd (list_scan isOrderedList rest i st)).
Proof.
  revert i st. induction rest as [|line rest IH]; intros i st Hwf;
    cbn [list_scan]; [done|].
  destruct (listItemMatch isOrderedList line) as [[marker content]|].
  - apply IH. unfold item_step. by apply push_item_wf, adjust_levels_wf.
  - destruct ((currentIndent st <? indent_of line)%Z && truthy (trim line));
      [|done].
    by apply IH, continuation_wf.
Qed.

Lemma ListScan_init_wf : ListScan_wf ListScan_init.
Proof. split; [done|]. repeat constructor. Qed.

(** *** The token tree of the store *)

Lemma list_items_enough heap :
  Store_ok heap ->
  forall d d' a,
    length heap - a <= d -> length heap - a <= d' ->
    list_items d heap a = list_items d' heap a.
Proof.
  intros Hok d. induction d as [|d IH]; intros d' a Hd Hd'.
  { assert (heap !! a = None) as Hnone by (apply lookup_ge_None; lia).
    destruct d'; cbn [list_items]; [done|]. by rewrite Hnone. }
  destruct d' as [|d'].
  { assert (heap !! a = None) as Hnone by (apply lookup_ge_None; lia).
    cbn [list_items]. by rewrite Hnone. }
  cbn [list_items]. destruct (heap !! a) as [arr|] eqn:Harr; [|done].
  cbn [default]. apply map_ext_in. intros it Hit%list_elem_of_In.
  destruct (li_items it) as [b|] eqn:Hb; [|done].
  destruct (Hok a arr it b Harr Hit Hb) as [Hab Hbl].
  f_equal. apply IH; lia.
Qed.

Lemma elem_of_alter_last {A} (f : A -> A) (l : list A) x :
  x ∈ alter_last f l -> x ∈ l \/ exists y, last l = Some y /\ x = f y.
Proof.
  destruct (last l) as [y|] eqn:Hlast.
  - apply last_Some in Hlast as [l' ->]. rewrite alter_last_snoc.
    intros [Hx | ->%list_elem_of_singleton]%elem_of_app.
    + left. apply elem_of_app. by left.
    + right. eauto.
  - apply last_None in Hlast. subst l. by left.
Qed.

Lemma Store_ok_alter f a heap :
  Store_ok heap ->
  (forall arr it b,
      heap !! a = Some arr -> it ∈ f arr -> li_items it = Some b ->
      a < b < length heap) ->
  Store_ok (alter f a heap).
Proof.
  intros Hok Hf a' arr it b Ha' Hit Hb. rewrite length_alter.
  destruct (decide (a = a')) as [<-|Hne].
  - rewrite list_lookup_alter_eq in Ha'.
    destruct (heap !! a) as [arr0|] eqn:Harr0; [|done].
    cbn in Ha'. injection Ha' as <-. by apply (Hf arr0 it b).
  - rewrite list_lookup_alter_ne in Ha' by done. by apply (Hok a' arr it b).
Qed.

Lemma Store_ok_grow heap :
  Store_ok heap -> Store_ok (heap ++ [[]]).
Proof.
  intros Hok a arr it b Ha Hit Hb. rewrite length_app. cbn [length].
  destruct (decide (a < length heap)) as [Hlt|Hge].
  - rewrite lookup_app_l in Ha by done.
    destruct (Hok a arr it b Ha Hit Hb). lia.
  - rewrite lookup_app_r in Ha by lia.
    destruct (a - length heap) as [|m]; cbn in Ha; [|done].
    injection Ha as <-. by apply elem_of_nil in Hit.
Qed.

Lemma open_level_store_ok indent st :
  ListScan_wf st -> Store_ok (store st) ->
  Store_ok (store (open_level indent st)).
Proof.
  intros Hwf Hok. cbn [open_level store].
  pose proof (top_lt st Hwf) as Htop.
  intros a arr it b Ha Hit Hb.
  rewrite length_app, length_alter. cbn [length].
  destruct (decide (a < length (store st))) as [Hlt|Hge].
  - rewrite lookup_app_l in Ha by (by rewrite length_alter).
    destruct (decide (a = top st)) as [->|Hne].
    + rewrite list_lookup_alter_eq in Ha.
      destruct (store st !! top st) as [arr0|] eqn:Harr0; [|done].
      cbn in Ha. injection Ha as <-.
      apply elem_of_alter_last in Hit as [Hit | (y & Hy & ->)].
      * destruct (Hok _ _ _ _ Harr0 Hit Hb). lia.
      * cbn in Hb. injection Hb as <-. lia.
    + rewrite list_lookup_alter_ne in Ha by done.
      destruct (Hok _ _ _ _ Ha Hit Hb). lia.
  - rewrite lookup_app_r in Ha by (rewrite length_alter; lia).
    rewrite length_alter in Ha.
    destruct (a - length (store st)) as [|m]; cbn in Ha; [|done].
    injection Ha as <-. by apply elem_of_nil in Hit.
Qed.

Lemma adjust_levels_store_ok indent st :
  ListScan_wf st -> Store_ok (store st) ->
  Store_ok (store (adjust_levels indent st)).
Proof.
  intros Hwf Hok.
  destruct (Z.lt_trichotomy (currentIndent st) indent) as [Hlt|[Heq|Hgt]].
  - unfold adjust_levels.
    replace (currentIndent st <? indent)%Z with true
      by (symmetry; apply Z.ltb_lt; lia).
    by apply open_level_store_ok.
  - unfold adjust_levels. by rewrite Heq, Z.ltb_irrefl.
  - by destruct (adjust_levels_pops indent st Hwf Hgt) as (k & -> & _).
Qed.

Lemma push_item_store_ok it st :
  li_items it = None -> Store_ok (store st) ->
  Store_ok (store (push_item it st)).
Proof.
  intros Hnone Hok. cbn [push_item store]. apply Store_ok_alter; [done|].
  intros arr it' b Harr [Hit | ->%list_elem_of_singleton]%elem_of_app Hb.
  - by apply (Hok _ _ _ _ Harr Hit).
  - congruence.
Qed.

Lemma continuation_store_ok line st :
  Store_ok (store st) -> Store_ok (store (continuation line st)).
Proof.
  intros Hok. cbn [continuation store]. apply Store_ok_alter; [done|].
  intros arr it b Harr Hit Hb.
  apply elem_of_alter_last in Hit as [Hit | (y & Hy & ->)].
  - by apply (Hok _ _ _ _ Harr Hit).
  - apply (Hok _ _ y _ Harr); [by apply last_Some_elem_of|].
    unfold continue_item in Hb. by destruct (truthy (li_text y)).
Qed.

Lemma list_scan_store_ok isOrderedList rest i st :
  ListScan_wf st -> Store_ok (store st) ->
  Store_ok (store (snd (list_scan isOrderedList rest i st))).
Proof.
  revert i st. induction rest as [|line rest IH]; intros i st Hwf Hok;
    cbn [list_scan]; [done|].
  destruct (listItemMatch isOrderedList line) as [[marker content]|].
  - apply IH.
    + unfold item_step. by apply push_item_wf, adjust_levels_wf.
    + unfold item_step. apply push_item_store_ok; [done|].
      by apply adjust_levels_store_ok.
  - destruct ((currentIndent st <? indent_of line)%Z && truthy (trim line));
      [|done].
    apply IH; [by apply continuation_wf | by apply continuation_store_ok].
Qed.

(** The items of the list token of [parseList] are the whole tree below
    the root array: more steps than the store has arrays find nothing
    more. *)
Lemma parseList_items_complete isOrderedList rest i d :
  let st := snd (list_scan isOrderedList rest i ListScan_init) in
  length (store st) <= d ->
  list_items (length (store st)) (store st) 0 = list_items d (store st) 0.
Proof.
  intros st Hd. apply list_items_enough; [|lia|lia].
  apply list_scan_store_ok; [apply ListScan_init_wf|].
  intros a arr it b Ha Hit Hb.
  destruct a as [|a]; cbn in Ha; [|done].
  injection Ha as <-. by apply elem_of_nil in Hit.
Qed.

(** C3, as the code has it.  On an item line indented more than the
    tracked indentation, one new level is opened: a new empty array is
    pushed on the stack and becomes the [items] of the last item of the
    level that was on top (nothing is attached when that level is empty),
    the tracked indentation becomes the indent of the line, and the item of
    the line goes into the new array.  On an item line indented less, the
    levels are popped one by one, the tracked indentation going down by 2
    with each, as long as the indent of the line is below the tracked
    indentation and more than the root level is left. *)
Theorem parseList_nesting_levels :
  (forall indent st,
      ListScan_wf st -> (currentIndent st < indent)%Z ->
      let newList := length (store st) in
      let st' := adjust_levels indent st in
      listStack st' = listStack st ++ [newList]
      /\ currentIndent st' = indent
      /\ array_at st' newList = []
      /\ (array_at st (top st) = [] -> store st' = store st ++ [[]])
      /\ (forall init lastItem,
            array_at st (top st) = init ++ [lastItem] ->
            array_at st' (top st)
            = init ++ [set_li_items newList lastItem])
      /\ (forall isOrderedList line content,
            indent_of line = indent ->
            array_at (item_step isOrderedList line content st) newList
            = [ {| li_raw := line; li_text := content;
                   li_ordered := isOrderedList;
                   li_children := parseInline content;
                   li_items := None |} ]))
  /\ (forall indent st,
        ListScan_wf st -> (indent < currentIndent st)%Z ->
        exists k,
          adjust_levels indent st
          = {| store := store st;
               listStack := take (length (listStack st) - k) (listStack st);
               currentIndent := (currentIndent st - 2 * Z.of_nat k)%Z |}
          /\ k < length (listStack st)
          /\ (forall j, j < k ->
                (indent < currentIndent st - 2 * Z.of_nat j)%Z
                /\ 1 < length (listStack st) - j)
          /\ ((currentIndent st - 2 * Z.of_nat k <= indent)%Z
              \/ length (listStack st) - k = 1)).
Proof.
  split; [|apply adjust_levels_pops].
  intros indent st Hwf Hlt newList st'.
  assert (st' = open_level indent st) as Hst'.
  { unfold st', adjust_levels.
    by replace (currentIndent st <? indent)%Z with true
      by (symmetry; apply Z.ltb_lt; lia). }
  pose proof (top_lt st Hwf) as Htop.
  assert (array_at st' newList = []) as Hnew.
  { rewrite Hst'. unfold array_at. cbn [open_level store].
    rewrite lookup_app_r by (rewrite length_alter; unfold newList; lia).
    rewrite length_alter. unfold newList. by rewrite Nat.sub_diag. }
  rewrite Hst'. repeat split; try done.
  - by rewrite <- Hst'.
  - apply open_level_parent_empty.
  - intros init lastItem Harr. by apply open_level_parent_last.
  - intros isOrderedList line content Hindent.
    unfold item_step. rewrite Hindent. fold st'.
    unfold array_at in *. cbn [push_item store].
    assert (top st' = newList) as ->.
    { rewrite Hst'. unfold top. cbn [open_level listStack].
      by rewrite last_snoc. }
    rewrite list_lookup_alter_eq.
    destruct (store st' !! newList) as [arr|] eqn:Harr.
    + simpl in Hnew. by subst arr.
    + apply lookup_ge_None in Harr. rewrite Hst' in Harr.
      cbn [open_level store] in Harr.
      rewrite length_app, length_alter in Harr. simpl in Harr.
      unfold newList in Harr. lia.
Qed.

Lemma parseList_nesting_levels_witness :
  let st1 := snd (list_scan false [str "- a"] 0 ListScan_init) in
  let st2 := snd (list_scan false [str "- a"; str "  - b"] 0 ListScan_init) in
  (listStack (adjust_levels 2 st1) = listStack st1 ++ [length (store st1)]
   /\ currentIndent (adjust_levels 2 st1) = 2%Z
   /\ array_at (adjust_levels 2 st1) (length (store st1)) = [])
  /\ exists k,
       adjust_levels 0 st2
       = {| store := store st2;
            listStack := take (length (listStack st2) - k) (listStack st2);
            currentIndent := (currentIndent st2 - 2 * Z.of_nat k)%Z |}
       /\ k < length (listStack st2)
       /\ (forall j, j < k ->
             (0 < currentIndent st2 - 2 * Z.of_nat j)%Z
             /\ 1 < length (listStack st2) - j)
       /\ ((currentIndent st2 - 2 * Z.of_nat k <= 0)%Z
           \/ length (listStack st2) - k = 1).
Proof.
  intros st1 st2. split.
  - assert (ListScan_wf st1) as Hwf
      by (split; [done | repeat constructor; vm_compute; lia]).
    assert (currentIndent st1 < 2)%Z as Hlt by (by vm_compute).
    destruct (proj1 parseList_nesting_levels 2%Z st1 Hwf Hlt)
      as (H1 & H2 & H3 & _).
    exact (conj H1 (conj H2 H3)).
  - apply (proj2 parseList_nesting_levels 0%Z st2).
    + split; [done | repeat constructor; vm_compute; lia].
    + by vm_compute.
Defined.

(** C3 as the specification words it fails where the indentation is not
    in steps of two: after [- a], a [- b] indented by one and a [- c]
    indented by three, the item line [- d] indented by two pops one level
    and stops with the tracked indentation at 1, which is not the indent of
    the line, and with two levels on the stack. *)
Lemma parseList_pop_overshoot_counterexample :
  let st :=
    snd (list_scan false [str "- a"; str " - b"; str "   - c"] 0
           ListScan_init) in
  let line := str "  - d" in
  let st' := adjust_levels (indent_of line) st in
  listItemMatch false line = Some (str "-", str "d")
  /\ (indent_of line < currentIndent st)%Z
  /\ currentIndent st' = 1%Z
  /\ currentIndent st' ≠ indent_of line
  /\ length (listStack st') = 2
  /\ length (listStack st') ≠ 1.
Proof. cbv zeta. repeat split; try done; vm_compute; done. Qed.

(** ** Highlighter *)

(** C8. For a language tag that the registry does not hold, [highlight]
    returns the code as it is, neither wrapped nor escaped; such are all
    tags but [javascript] and [js] in the registry the constructor makes. *)
Theorem highlight_unregistered_language `{Host}
  (languages : SyntaxHighlighter.Languages) (code lang : jsstring) :
  (languages !! lang = None ->
   SyntaxHighlighter.highlight languages code lang = code)
  /\ (lang ≠ str "javascript" -> lang ≠ str "js" ->
      SyntaxHighlighter.highlight SyntaxHighlighter.new code lang = code).
Proof.
  split.
  - intros Hnone. unfold SyntaxHighlighter.highlight. by rewrite Hnone.
  - intros Hjavascript Hjs. unfold SyntaxHighlighter.highlight.
    unfold SyntaxHighlighter.new, SyntaxHighlighter.registerLanguage.
    rewrite lookup_insert_ne by done. rewrite lookup_insert_ne by done.
    by rewrite lookup_empty.
Qed.

Lemma highlight_unregistered_language_witness :
  SyntaxHighlighter.highlight SyntaxHighlighter.new
    (str "<b>if (x) print('&')</b>") (str "python")
  = str "<b>if (x) print('&')</b>".
Proof.
  apply (proj1 (highlight_unregistered_language SyntaxHighlighter.new
                  (str "<b>if (x) print('&')</b>") (str "python"))).
  vm_compute. reflexivity.
Defined.

(** ** URL sanitizer *)

(** C10. [sanitizeUrl] gives the empty string exactly for the input that
    the URL parser accepts with the protocol [javascript:]; every other
    input, one that does not parse or one of another scheme, comes back
    unchanged, and with the [sanitize] option on it is what the renderer
    puts in the [href] of the link. *)
Theorem sanitizeUrl_blocks_javascript_only `{Host} (u : jsstring) :
  (URL.protocol u = Some (str "javascript:") -> sanitizeUrl u = [])
  /\ (URL.protocol u ≠ Some (str "javascript:") -> sanitizeUrl u = u)
  /\ (forall options languages tokensToHtml stack t,
        type t = TokenType.link -> url t = Some u ->
        sanitize options = true ->
        URL.protocol u ≠ Some (str "javascript:") ->
        render_token options languages tokensToHtml stack t
        = Ok (str "<a href=" ++ dquote :: u ++ dquote :: str ">"
                ++ escapeHtml (or_empty (text t)) ++ str "</a>")).
Proof.
  assert (URL.protocol u ≠ Some (str "javascript:") -> sanitizeUrl u = u)
    as Hother.
  { unfold sanitizeUrl. destruct (URL.protocol u) as [protocol|]; [|done].
    intros Hne. unfold eqb. rewrite bool_decide_eq_false_2; [done|].
    intros ->. done. }
  split; [|split; [done|]].
  - unfold sanitizeUrl. intros ->. done.
  - intros options languages tokensToHtml stack t Htype Hurl Hsan Hne.
    unfold render_token. rewrite Htype, Hsan, Hurl.
    cbn [or_empty default id]. by rewrite Hother.
Qed.

Lemma sanitizeUrl_blocks_javascript_only_witness :
  sanitizeUrl (str "JavaScript:alert(1)") = []
  /\ sanitizeUrl (str "data:text/html,<script>alert(1)</script>")
     = str "data:text/html,<script>alert(1)</script>"
  /\ sanitizeUrl (str "/relative/path") = str "/relative/path".
Proof.
  split; [|split].
  - apply (proj1 (sanitizeUrl_blocks_javascript_only _)). reflexivity.
  - apply (proj1 (proj2 (sanitizeUrl_blocks_javascript_only _))).
    vm_compute. discriminate.
  - apply (proj1 (proj2 (sanitizeUrl_blocks_javascript_only _))).
    vm_compute. discriminate.
Defined.

(** ** Rendering a link *)

(** C7. [[x](javascript:alert(1))] is a link whose URL runs up to the
    first closing parenthesis, and the text of that parenthesis.  With
    [sanitize] on the link is rendered with an empty [href]; with
    [sanitize] off the [href] is the captured URL as it is. *)
Theorem parse_javascript_link `{Host}
  (gfm_ breaks_ headerIds_ : bool)
  (languages : SyntaxHighlighter.Languages) (stack fuel : nat) :
  let markdown := str "[x](javascript:alert(1))" in
  let options s :=
    {| gfm := gfm_; breaks := breaks_; headerIds := headerIds_;
       sanitize := s |} in
  parseInline markdown
  = [ set_url (str "javascript:alert(1")
        (set_text (str "x")
           (token TokenType.link (str "[x](javascript:alert(1)")));
      set_text (str ")") (token TokenType.text (str ")")) ]
  /\ parse (options true) languages (S (S stack)) (S (S fuel)) markdown
     = Ok (str "<p><a href=" ++ [dquote; dquote] ++ str ">x</a>)</p>")
  /\ parse (options false) languages (S (S stack)) (S (S fuel)) markdown
     = Ok (str "<p><a href=" ++ dquote :: str "javascript:alert(1"
             ++ dquote :: str ">x</a>)</p>").
Proof. cbv zeta. split; [reflexivity | split; reflexivity]. Qed.

(** ** A loop that does not end

    A line that the dispatch of [tokenize] takes for a list item, because
    the pattern there has no end anchor, but that [parseList] does not take
    for one, because its pattern has: [parseList] consumes nothing and
    hands back the index before the line, and the loop comes to the same
    line again, with one more empty list token, whatever the fuel. *)
Lemma tokenize_loop_stuck_on_item_with_line_terminator
  (tokenize : jsstring -> outcome (list Token)) (fuel : nat)
  (tokens : list Token) :
  tokenize_loop tokenize fuel [str "- a" ++ 13%N :: str "b"] 0 tokens
  = OutOfFuel.
Proof.
  revert tokens. induction fuel as [|fuel IH]; intros tokens; [done|].
  cbn [tokenize_loop].
  change ([str "- a" ++ 13%N :: str "b"] !! 0)
    with (Some (str "- a" ++ 13%N :: str "b")).
  cbv beta iota.
  change (tokenize_line tokenize [str "- a" ++ 13%N :: str "b"] 0
            (str "- a" ++ 13%N :: str "b") tokens)
    with (Ok (tokens ++
                [set_items []
                   (set_ordered false
                      (token TokenType.list []))], (-1)%Z)).
  apply IH.
Qed.

(** ** Facade *)

(** C1. [parse] never throws: when the pipeline throws, whatever the
    exception, [parse] returns the escaped input, the whole of it and
    nothing rendered; when the pipeline returns, [parse] returns its
    result. *)
Theorem parse_contains_exceptions `{Host} (options : ParserOptions)
  (languages : SyntaxHighlighter.Languages) (stack fuel : nat)
  (markdown : jsstring) :
  (forall e, parse options languages stack fuel markdown ≠ Throw e)
  /\ (forall e,
        pipeline options languages stack fuel markdown = Throw e ->
        parse options languages stack fuel markdown
        = Ok (escapeHtml markdown))
  /\ (forall html,
        pipeline options languages stack fuel markdown = Ok html ->
        parse options languages stack fuel markdown = Ok html).
Proof.
  unfold parse, try_catch.
  destruct (pipeline options languages stack fuel markdown); repeat split;
    intros; congruence.
Qed.

Lemma parse_contains_exceptions_witness :
  pipeline default_options SyntaxHighlighter.new 1 5 (str "  <b>x</b> & y  ")
  = Throw RangeError
  /\ parse default_options SyntaxHighlighter.new 1 5 (str "  <b>x</b> & y  ")
     = Ok (str "  &lt;b&gt;x&lt;/b&gt; &amp; y  ").
Proof.
  split; [reflexivity|].
  apply (proj1 (proj2 (parse_contains_exceptions default_options
                         SyntaxHighlighter.new 1 5
                         (str "  <b>x</b> & y  "))) RangeError).
  reflexivity.
Defined.

(* ===================================================================== *)
(** * Further properties *)
(* ===================================================================== *)

(** ** [escapeHtml] *)

Lemma replace_unit_app c rep a b :
  Regex.replace_unit c rep (a ++ b)
  = Regex.replace_unit c rep a ++ Regex.replace_unit c rep b.
Proof. unfold Regex.replace_unit. apply flat_map_app. Qed.

Lemma escapeHtml_app a b : escapeHtml (a ++ b) = escapeHtml a ++ escapeHtml b.
Proof. unfold escapeHtml. by rewrite !replace_unit_app. Qed.

Lemma escapeHtml_unit c : escapeHtml [c] = entity c.
Proof.
  unfold escapeHtml, entity, is_ch.
  destruct (N.eqb c (ch "&")) eqn:H1; [apply N.eqb_eq in H1; by subst|].
  destruct (N.eqb c (ch "<")) eqn:H2; [apply N.eqb_eq in H2; by subst|].
  destruct (N.eqb c (ch ">")) eqn:H3; [apply N.eqb_eq in H3; by subst|].
  destruct (N.eqb c dquote) eqn:H4; [apply N.eqb_eq in H4; by subst|].
  destruct (N.eqb c (ch "'")) eqn:H5; [apply N.eqb_eq in H5; by subst|].
  unfold Regex.replace_unit. cbn [flat_map app].
  rewrite H1. cbn [flat_map app]. rewrite H2. cbn [flat_map app].
  rewrite H3. cbn [flat_map app]. rewrite H4. cbn [flat_map app].
  by rewrite H5.
Qed.

(** The five replacements in a row are one replacement, unit by unit. *)
Lemma escapeHtml_flat txt : escapeHtml txt = flat_map entity txt.
Proof.
  induction txt as [|c txt IH]; [done|].
  change (c :: txt) with ([c] ++ txt).
  rewrite escapeHtml_app, escapeHtml_unit, IH. done.
Qed.

Lemma entity_cases c :
  (isHtmlSpecial c = false /\ entity c = [c])
  \/ (isHtmlSpecial c = true
      /\ exists tl, entity c = ch "&" :: tl /\ tl ≠ []
         /\ Forall (fun x => isHtmlSpecial x = false) tl).
Proof.
  unfold isHtmlSpecial, entity, is_ch.
  destruct (N.eqb c (ch "&")) eqn:H1.
  { right. split; [done|]. eexists. split; [reflexivity|].
    split; [done | repeat constructor]. }
  destruct (N.eqb c (ch "<")) eqn:H2.
  { right. split; [done|]. eexists. split; [reflexivity|].
    split; [done | repeat constructor]. }
  destruct (N.eqb c (ch ">")) eqn:H3.
  { right. split; [done|]. eexists. split; [reflexivity|].
    split; [done | repeat constructor]. }
  destruct (N.eqb c dquote) eqn:H4.
  { right. split; [done|]. eexists. split; [reflexivity|].
    split; [done | repeat constructor]. }
  destruct (N.eqb c (ch "'")) eqn:H5.
  { right. split; [done|]. eexists. split; [reflexivity|].
    split; [done | repeat constructor]. }
  by left.
Qed.

(** X1. The result of [escapeHtml] holds none of [<], [>], the double
    quote and the single quote, whatever the input; and [escapeHtml] works
    unit by unit, so the escape of a concatenation is the concatenation of
    the escapes. *)
Theorem escapeHtml_output_is_inert :
  (forall txt c,
      In c (escapeHtml txt) ->
      c ≠ ch "<" /\ c ≠ ch ">" /\ c ≠ dquote /\ c ≠ ch "'")
  /\ (forall a b, escapeHtml (a ++ b) = escapeHtml a ++ escapeHtml b).
Proof.
  split; [|apply escapeHtml_app].
  intros txt c. rewrite escapeHtml_flat. intros (x & _ & Hc)%in_flat_map.
  destruct (entity_cases x) as [[Hx Hent] | (Hx & tl & Hent & _ & Htl)].
  - rewrite Hent in Hc. destruct Hc as [<-|[]].
    unfold isHtmlSpecial, is_ch in Hx.
    repeat (apply orb_false_iff in Hx as [Hx ?]).
    repeat split; intros ->; done.
  - rewrite Hent in Hc. destruct Hc as [<-|Hc]; [repeat split; done|].
    rewrite Forall_forall in Htl. apply list_elem_of_In, Htl in Hc.
    unfold isHtmlSpecial, is_ch in Hc.
    repeat (apply orb_false_iff in Hc as [Hc ?]).
    repeat split; intros ->; done.
Qed.

Lemma escapeHtml_output_is_inert_witness :
  ch "a" ≠ ch "<" /\ ch "a" ≠ ch ">" /\ ch "a" ≠ dquote /\ ch "a" ≠ ch "'".
Proof.
  apply (proj1 escapeHtml_output_is_inert (str "<a href='x'>") (ch "a")).
  vm_compute. do 4 right. by left.
Defined.

Lemma entity_head_inj x y s t :
  entity x ++ s = entity y ++ t -> x = y /\ s = t.
Proof.
  unfold entity, is_ch.
  destruct (N.eqb_spec x (ch "&")) as [->|Hx1];
    [|destruct (N.eqb_spec x (ch "<")) as [->|Hx2];
      [|destruct (N.eqb_spec x (ch ">")) as [->|Hx3];
        [|destruct (N.eqb_spec x dquote) as [->|Hx4];
          [|destruct (N.eqb_spec x (ch "'")) as [->|Hx5]]]]];
  (destruct (N.eqb_spec y (ch "&")) as [->|Hy1];
    [|destruct (N.eqb_spec y (ch "<")) as [->|Hy2];
      [|destruct (N.eqb_spec y (ch ">")) as [->|Hy3];
        [|destruct (N.eqb_spec y dquote) as [->|Hy4];
          [|destruct (N.eqb_spec y (ch "'")) as [->|Hy5]]]]]);
  cbn; intros Heq; simplify_eq; done.
Qed.

Lemma escapeHtml_inj a b : escapeHtml a = escapeHtml b -> a = b.
Proof.
  rewrite !escapeHtml_flat. revert b.
  induction a as [|x a IH]; intros [|y b]; cbn [flat_map].
  - done.
  - intros Heq. destruct (entity_cases y) as [[_ Hy] | (_ & tl & Hy & _)];
      rewrite Hy in Heq; done.
  - intros Heq. destruct (entity_cases x) as [[_ Hx] | (_ & tl & Hx & _)];
      rewrite Hx in Heq; done.
  - intros [-> Heq]%entity_head_inj. f_equal. by apply IH.
Qed.

Lemma escapeHtml_length txt : length txt <= length (escapeHtml txt).
Proof.
  rewrite escapeHtml_flat. induction txt as [|c txt IH]; [done|].
  cbn [flat_map]. rewrite length_app. cbn [length].
  destruct (entity_cases c) as [[_ Hc] | (_ & tl & Hc & _)]; rewrite Hc;
    cbn [length]; lia.
Qed.

Lemma escapeHtml_plain txt :
  Forall (fun c => isHtmlSpecial c = false) txt -> escapeHtml txt = txt.
Proof.
  rewrite escapeHtml_flat. induction 1 as [|c txt Hc _ IH]; [done|].
  cbn [flat_map]. rewrite IH.
  destruct (entity_cases c) as [[_ ->] | [Hs _]]; [done | congruence].
Qed.

Lemma escapeHtml_fixed txt :
  escapeHtml txt = txt -> Forall (fun c => isHtmlSpecial c = false) txt.
Proof.
  induction txt as [|c txt IH]; [constructor|].
  change (c :: txt) with ([c] ++ txt) at 1.
  rewrite escapeHtml_app, escapeHtml_unit.
  destruct (entity_cases c) as [[Hc Hent] | (_ & tl & Hent & Htl & _)];
    rewrite Hent.
  - intros [= Heq]. constructor; [done | by apply IH].
  - intros [= _ Heq]. apply (f_equal length) in Heq.
    rewrite length_app in Heq. pose proof (escapeHtml_length txt).
    destruct tl; [done | cbn in Heq; lia].
Qed.

(** X2. [escapeHtml] loses nothing: two texts with the same escape are the
    same text. *)
Theorem escapeHtml_injective (a b : jsstring) :
  escapeHtml a = escapeHtml b -> a = b.
Proof. apply escapeHtml_inj. Qed.

Lemma escapeHtml_injective_witness :
  str "a<b" ++ [dquote] = str "a<b" ++ [dquote].
Proof.
  apply (escapeHtml_injective (str "a<b" ++ [dquote]) (str "a<b" ++ [dquote])).
  reflexivity.
Defined.

(** X3. [escapeHtml] leaves a text as it is exactly when the text holds
    none of the five code units it replaces, and escaping twice is escaping
    once only for those texts: any other text is escaped again, its
    ampersands doubled. *)
Theorem escapeHtml_fixed_points (txt : jsstring) :
  (escapeHtml txt = txt <-> Forall (fun c => isHtmlSpecial c = false) txt)
  /\ (escapeHtml (escapeHtml txt) = escapeHtml txt
      <-> Forall (fun c => isHtmlSpecial c = false) txt).
Proof.
  split; split.
  - apply escapeHtml_fixed.
  - apply escapeHtml_plain.
  - intros Heq%escapeHtml_inj. by apply escapeHtml_fixed.
  - intros Hplain. rewrite (escapeHtml_plain txt Hplain).
    by apply escapeHtml_plain.
Qed.

Lemma escapeHtml_fixed_points_witness :
  escapeHtml (str "plain text") = str "plain text"
  /\ ~ Forall (fun c => isHtmlSpecial c = false) (str "a & b")
  /\ escapeHtml (escapeHtml (str "a & b")) = str "a &amp;amp; b".
Proof.
  split; [|split].
  - apply (proj1 (escapeHtml_fixed_points (str "plain text"))).
    repeat constructor.
  - intros Hplain.
    apply (proj1 (escapeHtml_fixed_points (str "a & b"))) in Hplain.
    discriminate Hplain.
  - reflexivity.
Defined.

(** ** More on the matcher *)

Lemma first_down_some {R} (f : nat -> option R) lo len x :
  first_down f lo len = Some x ->
  exists j, lo <= j < lo + len /\ f j = Some x.
Proof.
  induction len as [|l IH]; [done|]. cbn.
  destruct (f (lo + l)) as [y|] eqn:Hf.
  - intros [= <-]. exists (lo + l). split; [lia | done].
  - intros (j & Hj & Hfj)%IH. exists j. split; [lia | done].
Qed.

Lemma reach_le cls max s : reach cls max s <= length s.
Proof.
  assert (length (fst (span cls s)) <= length s) as Hspan.
  { destruct (span cls s) as [w r] eqn:Hs. apply span_spec in Hs as [-> _].
    rewrite length_app. cbn. lia. }
  unfold reach. destruct max; lia.
Qed.

(** A repetition that matched stopped after some [j] repetitions within
    its bounds, and the rest of the pattern matched from there. *)
Lemma run_rep_some {R} cls min max s (k : jsstring -> option R) x :
  Regex.run_rep cls min max s k = Some x ->
  exists j, min <= j <= length s /\ j <= reach cls max s
            /\ k (drop j s) = Some x.
Proof.
  rewrite run_rep_spec. intros (j & Hj & Hk)%first_down_some.
  pose proof (reach_le cls max s).
  exists j. repeat split; try done; lia.
Qed.

(** One code unit of a class. *)
Lemma run_one {R} cls s (k : jsstring -> option R) :
  Regex.run_rep cls 1 (Some 1) s k
  = match s with
    | c :: s' => if cls c then k s' else None
    | [] => None
    end.
Proof.
  destruct s as [|c s']; [done|]. cbn [Regex.run_rep].
  destruct (cls c); [|done].
  rewrite bool_decide_eq_false_2 by done.
  cbn [andb negb pred fmap option_fmap option_map].
  destruct s' as [|c' s'']; cbn [Regex.run_rep].
  - by destruct (k []).
  - rewrite bool_decide_eq_true_2 by done. cbn [negb].
    rewrite andb_false_r. by destruct (k (c' :: s'')).
Qed.

(** A repetition before something that cannot start with a unit of the
    class takes the whole run of the class: nothing shorter can work. *)
Lemma run_rep_commit {R} cls min s (k : jsstring -> option R) :
  (forall c s', cls c = true -> k (c :: s') = None) ->
  Regex.run_rep cls min None s k
  = if min <=? length (fst (span cls s)) then k (snd (span cls s)) else None.
Proof.
  intros Hk. rewrite run_rep_spec. unfold reach.
  destruct (span cls s) as [w r] eqn:Hspan. cbn [fst snd].
  apply span_spec in Hspan as [-> Hw].
  assert (forall j, j < length w -> k (drop j (w ++ r)) = None) as Hlow.
  { intros j Hj. rewrite drop_app_le by lia.
    destruct (drop j w) as [|c tl] eqn:Hdrop.
    { apply (f_equal length) in Hdrop. rewrite length_drop in Hdrop.
      cbn in Hdrop. lia. }
    apply Hk. rewrite forallb_forall in Hw. apply Hw, list_elem_of_In.
    apply (subseteq_drop j w). rewrite Hdrop. left. }
  destruct (min <=? length w) eqn:Hmin.
  - apply Nat.leb_le in Hmin.
    replace (S (length w) - min) with (S (length w - min)) by lia.
    rewrite first_down_top.
    + replace (min + (length w - min)) with (length w) by lia.
      by rewrite drop_app_length.
    + intros j Hj. apply Hlow. lia.
  - apply Nat.leb_gt in Hmin.
    replace (S (length w) - min) with 0 by lia. done.
Qed.

(** [\s+.+]: what matches starts with white space and is two code units
    or more. *)
Lemma spaces_then_some_inv {R} s (k : jsstring -> option R) x :
  Regex.run_rep isSpace 1 None s
    (fun sa => Regex.run_rep isDot 1 None sa k) = Some x ->
  (exists c s', s = c :: s' /\ isSpace c = true) /\ 2 <= length s.
Proof.
  intros (j & Hj & Hreach & Hk)%run_rep_some.
  apply run_rep_some in Hk as (j' & Hj' & _ & _).
  rewrite length_drop in Hj'. split; [|lia].
  unfold reach in Hreach. destruct s as [|c s']; [cbn in Hj; lia|].
  exists c, s'. split; [done|]. cbn [span] in Hreach.
  destruct (isSpace c); [done|]. cbn in Hreach. lia.
Qed.

(** With white space at its start, two code units or more and no line
    terminator, a text is matched by [\s+(.+)$]. *)
Lemma space_then_rest_some c s' :
  isSpace c = true -> 1 <= length s' -> forallb isDot (c :: s') = true ->
  is_Some (space_then_rest (c :: s')).
Proof.
  intros Hc Hlen Hdot. unfold space_then_rest.
  destruct (span isSpace (c :: s')) as [w r] eqn:Hspan.
  pose proof Hspan as Hw0. cbn [span] in Hw0. rewrite Hc in Hw0.
  destruct (span isSpace s') as [a b]. injection Hw0 as <- <-.
  apply span_spec in Hspan as [Heq Hw]. rewrite Heq in Hdot.
  rewrite forallb_app in Hdot. apply andb_prop in Hdot as [Hda Hdb].
  destruct b as [|c' b'].
  - rewrite app_nil_r in Heq. injection Heq as ->.
    destruct (last (c :: a)) as [cl|] eqn:Hlast.
    2:{ by apply last_None in Hlast. }
    rewrite (forallb_last _ _ _ Hda Hlast).
    replace (2 <=? length (c :: a)) with true; [done|].
    symmetry. apply Nat.leb_le. cbn. lia.
  - by rewrite Hdb.
Qed.

Lemma run_one_cat {R} cls r2 s caps
  (k : jsstring -> Regex.captures -> option R) :
  Regex.run (Regex.Cat (Regex.One cls) r2) s caps k
  = match s with
    | c :: s' => if cls c then Regex.run r2 s' caps k else None
    | [] => None
    end.
Proof. cbn [Regex.run Regex.One]. apply run_one. Qed.

Lemma run_one_run {R} cls s caps (k : jsstring -> Regex.captures -> option R) :
  Regex.run (Regex.One cls) s caps k
  = match s with
    | c :: s' => if cls c then k s' caps else None
    | [] => None
    end.
Proof. cbn [Regex.run Regex.One]. apply run_one. Qed.

Lemma spaces_text_eos {R} s (G : jsstring -> R)
  (k : jsstring -> jsstring -> option R) :
  (forall sa, k sa [] = Some (G sa)) ->
  (forall sa c sb, k sa (c :: sb) = None) ->
  Regex.run_rep isSpace 1 None s
    (fun sa => Regex.run_rep isDot 1 None sa (k sa))
  = G <$> space_then_rest s.
Proof.
  intros Hnil Hcons. rewrite <- spaces_then_text.
  apply run_rep_ext. intros sa. rewrite run_rep_to_end.
  - by rewrite Hnil.
  - intros [|c sb] Hne; [done | apply Hcons].
Qed.

(** [\s+(.+)$] with the group numbered [n]. *)
Lemma run_item_tail n rest caps :
  Regex.run
    (Regex.Cat (Regex.Plus isSpace)
       (Regex.Cat (Regex.Grp n (Regex.Plus isDot)) Regex.Eos))
    rest caps (fun _ c => Some c)
  = (fun t => (n, t) :: caps) <$> space_then_rest rest.
Proof.
  cbn [Regex.run Regex.Plus].
  apply (spaces_text_eos rest (fun t => (n, t) :: caps)
           (fun sa sb =>
              match sb with
              | [] => Some ((n, take (length sa - length sb) sa) :: caps)
              | _ :: _ => None
              end)).
  - intros sa. cbn [length]. by rewrite Nat.sub_0_r, take_ge by lia.
  - done.
Qed.

Lemma isBullet_not_digit c : Pattern.isBullet c = true -> isDigit c = false.
Proof.
  unfold Pattern.isBullet, is_ch.
  intros [[->%N.eqb_eq | ->%N.eqb_eq]%orb_prop | ->%N.eqb_eq]%orb_prop; done.
Qed.

Lemma isDigit_not_dot c : isDigit c = true -> is_ch "." c = false.
Proof.
  unfold isDigit, is_ch. intros [H1%N.leb_le H2]%andb_prop.
  apply N.eqb_neq. intros ->. done.
Qed.

(** A trimmed line without line terminator that the dispatch of
    [tokenize] takes for the start of an unordered list is an item for
    [parseList], and the list is unordered. *)
Lemma unordered_start_is_item t :
  forallb isDot t = true ->
  Regex.test Pattern.unordered_start t = true ->
  Regex.test Pattern.ordered_marker t = false
  /\ Regex.test Pattern.unordered_item_test t = true
  /\ is_Some (Regex.exec Pattern.unordered_item t).
Proof.
  intros Hdot. unfold Regex.test, Regex.exec, Pattern.unordered_start.
  rewrite run_one_cat. destruct t as [|b rest]; [done|].
  destruct (Pattern.isBullet b) eqn:Hb; [|done].
  cbn [Regex.run Regex.Plus].
  destruct (Regex.run_rep isSpace 1 None rest _) as [x|] eqn:Hrun; [|done].
  intros _. apply spaces_then_some_inv in Hrun as [(c & s' & -> & Hc) Hlen].
  cbn [forallb] in Hdot. apply andb_prop in Hdot as [_ Hdot].
  destruct (space_then_rest_some c s' Hc) as [u Hu];
    [cbn in Hlen; lia | done |].
  split; [|split].
  - unfold Pattern.ordered_marker. cbn [Regex.run Regex.Plus].
    rewrite run_rep_commit.
    2:{ intros d s'' Hd. rewrite run_one_run.
        by rewrite (isDigit_not_dot d Hd). }
    cbn [span]. by rewrite (isBullet_not_digit b Hb).
  - unfold Pattern.unordered_item_test. rewrite run_one_cat, Hb.
    by rewrite run_item_tail, Hu.
  - unfold Pattern.unordered_item.
    change (Regex.run (Regex.Cat (Regex.Grp 1 (Regex.One Pattern.isBullet)) ?r)
              ?s ?c ?k)
      with (Regex.run_rep Pattern.isBullet 1 (Some 1) s
              (fun s1 => Regex.run r s1
                           ((1, take (length s - length s1) s) :: c) k)).
    rewrite run_one, Hb. by rewrite run_item_tail, Hu.
Qed.

Lemma digits_commit {R} s caps r2
  (k : jsstring -> Regex.captures -> option R) :
  Regex.run_rep isDigit 1 None s
    (fun s' => Regex.run (Regex.Cat (Regex.One (is_ch ".")) r2) s' caps k)
  = if 1 <=? length (fst (span isDigit s))
    then Regex.run (Regex.Cat (Regex.One (is_ch ".")) r2)
           (snd (span isDigit s)) caps k
    else None.
Proof.
  apply (run_rep_commit isDigit 1 s
           (fun s' => Regex.run (Regex.Cat (Regex.One (is_ch ".")) r2) s' caps k)).
  intros d s'' Hd. rewrite run_one_cat. by rewrite (isDigit_not_dot d Hd).
Qed.

(** The same for the start of an ordered list. *)
Lemma ordered_start_is_item t :
  forallb isDot t = true ->
  Regex.test Pattern.ordered_start t = true ->
  Regex.test Pattern.ordered_marker t = true
  /\ Regex.test Pattern.ordered_item_test t = true
  /\ is_Some (Regex.exec Pattern.ordered_item t).
Proof.
  intros Hdot. unfold Regex.test, Regex.exec, Pattern.ordered_start.
  change (Regex.run (Regex.Cat (Regex.Plus isDigit) ?r2) ?s ?c ?k)
    with (Regex.run_rep isDigit 1 None s (fun s' => Regex.run r2 s' c k)).
  rewrite digits_commit.
  destruct (span isDigit t) as [d r] eqn:Hspan. cbn [fst snd].
  destruct (1 <=? length d) eqn:Hd; [|done].
  rewrite run_one_cat. destruct r as [|p r']; [done|].
  destruct (is_ch "." p) eqn:Hp; [|done].
  cbn [Regex.run Regex.Plus].
  destruct (Regex.run_rep isSpace 1 None r' _) as [x|] eqn:Hrun; [|done].
  intros _. apply spaces_then_some_inv in Hrun as [(c & s' & -> & Hc) Hlen].
  apply span_spec in Hspan as Hsplit. destruct Hsplit as [-> _].
  rewrite forallb_app in Hdot. apply andb_prop in Hdot as [_ Hdot].
  cbn [forallb] in Hdot. apply andb_prop in Hdot as [_ Hdot].
  destruct (space_then_rest_some c s' Hc) as [u Hu];
    [cbn in Hlen; lia | done |].
  split; [|split].
  - unfold Pattern.ordered_marker.
    change (Regex.run (Regex.Cat (Regex.Plus isDigit) ?r2) ?s ?c ?k)
      with (Regex.run_rep isDigit 1 None s (fun s' => Regex.run r2 s' c k)).
    rewrite digits_commit, Hspan. cbn [fst snd]. rewrite Hd.
    rewrite run_one_cat, Hp, run_one_run. by rewrite Hc.
  - unfold Pattern.ordered_item_test.
    change (Regex.run (Regex.Cat (Regex.Plus isDigit) ?r2) ?s ?c ?k)
      with (Regex.run_rep isDigit 1 None s (fun s' => Regex.run r2 s' c k)).
    rewrite digits_commit, Hspan. cbn [fst snd]. rewrite Hd.
    rewrite run_one_cat, Hp. by rewrite run_item_tail, Hu.
  - unfold Pattern.ordered_item.
    change (Regex.run
              (Regex.Cat
                 (Regex.Grp 1 (Regex.Cat (Regex.Plus isDigit)
                                 (Regex.One (is_ch "."))))
                 ?r2) ?s ?c ?k)
      with (Regex.run_rep isDigit 1 None s
              (fun s1 =>
                 Regex.run (Regex.One (is_ch ".")) s1 c
                   (fun s2 c2 =>
                      Regex.run r2 s2
                        ((1, take (length s - length s2) s) :: c2) k))).
    rewrite run_rep_commit.
    2:{ intros x' s'' Hx. rewrite run_one_run.
        by rewrite (isDigit_not_dot x' Hx). }
    rewrite Hspan. cbn [fst snd]. rewrite Hd, run_one_run, Hp.
    by rewrite run_item_tail, Hu.
Qed.

(** The line that starts a list is the first item of the list, unless a
    line terminator stands in it. *)
Lemma list_start_is_item line :
  forallb isDot (trim line) = true ->
  Regex.test Pattern.unordered_start (trim line)
  || Regex.test Pattern.ordered_start (trim line) = true ->
  is_Some (listItemMatch (Regex.test Pattern.ordered_marker (trim line)) line).
Proof.
  intros Hdot Hstart. unfold listItemMatch.
  destruct (Regex.test Pattern.unordered_start (trim line)) eqn:Hu.
  - destruct (unordered_start_is_item _ Hdot Hu) as (-> & -> & [g ->]). done.
  - cbn [orb] in Hstart.
    destruct (ordered_start_is_item _ Hdot Hstart) as (-> & -> & [g ->]). done.
Qed.

(** ** Lines *)

Lemma trimStart_suffix s : exists p, s = p ++ trimStart s.
Proof.
  induction s as [|c s [p IH]]; [by exists []|]. cbn [trimStart].
  destruct (isSpace c).
  - exists (c :: p). cbn. by rewrite <- IH.
  - by exists [].
Qed.

Lemma trim_parts s : exists p q, s = p ++ trim s ++ q.
Proof.
  destruct (trimStart_suffix s) as [p Hp].
  destruct (trimStart_suffix (rev (trimStart s))) as [q Hq].
  exists p, (rev q). unfold trim, trimEnd. rewrite <- rev_app_distr, <- Hq.
  by rewrite rev_involutive.
Qed.

Lemma forallb_trim f s : forallb f s = true -> forallb f (trim s) = true.
Proof.
  destruct (trim_parts s) as (p & q & Hs). rewrite Hs at 1.
  rewrite !forallb_app. by intros [_ [? _]%andb_prop]%andb_prop.
Qed.

Lemma forallb_drop {A} (f : A -> bool) n l :
  forallb f l = true -> forallb f (drop n l) = true.
Proof.
  rewrite <- (take_drop n l) at 1. rewrite forallb_app.
  by intros [_ ?]%andb_prop.
Qed.

Lemma split_lines_length s :
  length (split_lines s) = S (count_occ N.eq_dec s 10%N).
Proof.
  induction s as [|c s IH]; [done|]. cbn [split_lines].
  destruct (N.eqb_spec c 10) as [->|Hne].
  - cbn [length]. rewrite IH. by rewrite count_occ_cons_eq.
  - rewrite count_occ_cons_neq by done. rewrite <- IH.
    by destruct (split_lines s).
Qed.

Lemma split_lines_trim_length s :
  length (split_lines (trim s)) <= length (split_lines s).
Proof.
  rewrite !split_lines_length. destruct (trim_parts s) as (p & q & Hs).
  rewrite Hs at 2. rewrite !count_occ_app. lia.
Qed.

Lemma split_lines_dot s :
  forallb tame s = true ->
  Forall (fun l => forallb isDot l = true) (split_lines s).
Proof.
  induction s as [|c s IH]; [by repeat constructor|].
  cbn [forallb split_lines]. intros [Hc Hs]%andb_prop. specialize (IH Hs).
  destruct (N.eqb_spec c 10) as [->|Hne].
  - by constructor.
  - assert (isDot c = true) as Hdot.
    { unfold tame in Hc. apply orb_prop in Hc as [Hc|Hc]; [done|].
      by apply N.eqb_eq in Hc. }
    destruct (split_lines s) as [|l ls].
    { constructor; [|done]. cbn. by rewrite Hdot. }
    inversion IH as [|? ? Hl Hls]; subst. constructor; [|done].
    cbn [forallb]. by rewrite Hl, Hdot.
Qed.

Lemma isDot_tame l : forallb isDot l = true -> forallb tame l = true.
Proof.
  induction l as [|c l IH]; [done|]. cbn [forallb].
  intros [Hc Hl]%andb_prop. rewrite IH by done. unfold tame. by rewrite Hc.
Qed.

Lemma isDot_no_newline l :
  forallb isDot l = true -> count_occ N.eq_dec l 10%N = 0.
Proof.
  induction l as [|c l IH]; [done|]. cbn [forallb].
  intros [Hc Hl]%andb_prop. rewrite count_occ_cons_neq; [by apply IH|].
  by intros ->.
Qed.

Lemma join_lines_cons l ls :
  ls ≠ [] -> join_lines (l :: ls) = l ++ 10%N :: join_lines ls.
Proof. by destruct ls. Qed.

Lemma join_lines_tame ls :
  Forall (fun l => forallb isDot l = true) ls ->
  forallb tame (join_lines ls) = true
  /\ count_occ N.eq_dec (join_lines ls) 10%N = length ls - 1.
Proof.
  induction 1 as [|l ls Hl _ [IH1 IH2]]; [done|].
  destruct ls as [|l' ls'].
  { cbn. split; [by apply isDot_tame | by apply isDot_no_newline]. }
  rewrite join_lines_cons by done. split.
  - rewrite forallb_app. cbn [forallb]. by rewrite isDot_tame, IH1.
  - rewrite count_occ_app, count_occ_cons_eq by done.
    rewrite IH2, isDot_no_newline by done. cbn [length]. lia.
Qed.

Lemma consumed_lines_Forall (P : jsstring -> Prop) rest :
  Forall P rest -> Forall P (consumed_lines rest).
Proof.
  induction 1 as [|l rest Hl _ IH]; [constructor|]. cbn [consumed_lines].
  destruct (quoted l); by constructor.
Qed.

Lemma consumed_lines_length rest :
  length (consumed_lines rest) <= length rest.
Proof.
  induction rest as [|l rest IH]; [done|]. cbn [consumed_lines].
  destruct (quoted l); cbn [length]; lia.
Qed.

Lemma blockquote_content_dot consumed :
  Forall (fun l => forallb isDot l = true) consumed ->
  Forall (fun l => forallb isDot l = true) (blockquote_content consumed).
Proof.
  induction 1 as [|l consumed Hl _ IH]; [constructor|].
  change (l :: consumed) with ([l] ++ consumed).
  rewrite blockquote_content_app. apply Forall_app. split; [|done].
  unfold blockquote_content. rewrite filter_cons, filter_nil.
  destruct (decide _); cbn [map]; constructor; [|done].
  apply forallb_trim. unfold slice_from. by apply forallb_drop.
Qed.

Lemma blockquote_content_length consumed :
  length (blockquote_content consumed) <= length consumed.
Proof.
  unfold blockquote_content. rewrite length_map. apply length_filter.
Qed.

(** ** How far the sub-parsers go *)

Lemma codeblock_scan_bounds rest i content :
  i <= fst (codeblock_scan rest i content) <= i + length rest.
Proof.
  revert i content. induction rest as [|l rest IH]; intros i content;
    cbn [codeblock_scan]; [cbn; lia|].
  destruct (negb (starts_with fence l)); [|cbn; lia].
  specialize (IH (S i) (content ++ [l])). cbn [length]. lia.
Qed.

Lemma list_scan_bounds isOrderedList rest i st :
  i <= fst (list_scan isOrderedList rest i st) <= i + length rest.
Proof.
  revert i st. induction rest as [|l rest IH]; intros i st;
    cbn [list_scan]; [cbn; lia|].
  destruct (listItemMatch isOrderedList l) as [[marker content]|].
  - specialize (IH (S i) (item_step isOrderedList l content st)).
    cbn [length]. lia.
  - destruct ((currentIndent st <? indent_of l)%Z && truthy (trim l)).
    + specialize (IH (S i) (continuation l st)). cbn [length]. lia.
    + cbn. lia.
Qed.

Lemma list_scan_first isOrderedList line rest i st :
  is_Some (listItemMatch isOrderedList line) ->
  S i <= fst (list_scan isOrderedList (line :: rest) i st).
Proof.
  intros [[marker content] Hm]. cbn [list_scan]. rewrite Hm.
  pose proof (list_scan_bounds isOrderedList rest (S i)
                (item_step isOrderedList line content st)). lia.
Qed.

(** ** The block tokenizer returns *)

Lemma tokenize_line_no_throw tokenize lines i line tokens e :
  tokenize_line tokenize lines i line tokens ≠ Throw e.
Proof.
  unfold tokenize_line, try_catch.
  by destruct (if starts_with (str "#") line then _ else _).
Qed.

Lemma tokenize_loop_no_throw tokenize fuel lines i tokens e :
  tokenize_loop tokenize fuel lines i tokens ≠ Throw e.
Proof.
  revert i tokens. induction fuel as [|fuel IH]; intros i tokens; [done|].
  cbn [tokenize_loop]. destruct (lines !! i) as [line|]; [|done].
  destruct (tokenize_line tokenize lines i line tokens) as [[ts i']| |] eqn:Hl.
  - apply IH.
  - by apply tokenize_line_no_throw in Hl.
  - done.
Qed.



Lemma drop_lookup_cons {A} (l : list A) i x :
  l !! i = Some x -> drop i l = x :: drop (S i) l.
Proof. intros Hx. by rewrite (drop_S l x i Hx). Qed.

(** One turn of the loop neither throws nor gets stuck, and leaves the
    index on a line at or after the one it was on. *)
Lemma tokenize_line_progress tokenize (lines : list jsstring) i line tokens :
  Forall (fun l : jsstring => forallb isDot l = true) lines ->
  lines !! i = Some line ->
  tokenize (join_lines (blockquote_content (consumed_lines (drop i lines))))
    ≠ OutOfFuel ->
  exists tokens' i',
    tokenize_line tokenize lines i line tokens = Ok (tokens', i')
    /\ (Z.of_nat i <= i' < Z.of_nat (length lines))%Z.
Proof.
  intros Hdot Hline Htk. pose proof (lookup_lt_Some _ _ _ Hline) as Hi.
  pose proof (drop_lookup_cons _ _ _ Hline) as Hdrop.
  unfold tokenize_line.
  destruct (starts_with (str "#") line).
  { eexists _, _. split; [reflexivity | unfold jsstring in *; lia]. }
  destruct (starts_with (str ">") line) eqn:Hq.
  { unfold parseBlockquote. rewrite blockquote_scan_spec. cbv beta iota.
    rewrite app_nil_l.
    pose proof (consumed_lines_length (drop i lines)) as Hlen.
    rewrite length_drop in Hlen.
    assert (1 <= length (consumed_lines (drop i lines))) as Hone.
    { rewrite Hdrop. cbn [consumed_lines]. unfold quoted. rewrite Hq.
      cbn. lia. }
    destruct (tokenize _) as [kids|e|]; [| |done].
    - eexists _, _. split; [reflexivity | unfold jsstring in *; lia].
    - eexists _, _. split; [reflexivity | unfold jsstring in *; lia]. }
  destruct (starts_with fence line).
  { unfold parseCodeBlock. rewrite Hline.
    pose proof (codeblock_scan_bounds (drop (i + 1) lines) (i + 1) []) as Hb.
    destruct (codeblock_scan (drop (i + 1) lines) (i + 1) []) as [j content].
    cbn [fst] in Hb.
    destruct (length lines <=? j) eqn:Hj.
    - eexists _, _. split; [reflexivity | unfold jsstring in *; lia].
    - apply Nat.leb_gt in Hj. eexists _, _. split; [reflexivity | unfold jsstring in *; lia]. }
  destruct (Regex.test Pattern.unordered_start (trim line)
            || Regex.test Pattern.ordered_start (trim line)) eqn:Hstart.
  { unfold parseList. rewrite Hline.
    assert (forallb isDot (trim line) = true) as Hdl.
    { apply forallb_trim. rewrite Forall_forall in Hdot. apply Hdot.
      by apply list_elem_of_lookup_2 in Hline. }
    pose proof (list_start_is_item line Hdl Hstart) as Hitem.
    pose proof (list_scan_bounds
                  (Regex.test Pattern.ordered_marker (trim line))
                  (drop i lines) i ListScan_init) as Hb.
    rewrite length_drop in Hb.
    pose proof (list_scan_first
                  (Regex.test Pattern.ordered_marker (trim line))
                  line (drop (S i) lines) i ListScan_init Hitem) as Hf.
    rewrite <- Hdrop in Hf.
    destruct (list_scan _ (drop i lines) i ListScan_init) as [j st].
    cbn [fst] in Hb, Hf.
    eexists _, _. split; [reflexivity | unfold jsstring in *; lia]. }
  destruct (truthy (trim line)); eexists _, _; (split; [reflexivity | unfold jsstring in *; lia]).
Qed.

Lemma tokenize_loop_returns tokenize (lines : list jsstring) fuel i tokens :
  Forall (fun l : jsstring => forallb isDot l = true) lines ->
  (forall j,
      tokenize
        (join_lines (blockquote_content (consumed_lines (drop j lines))))
      ≠ OutOfFuel) ->
  length lines - i < fuel ->
  exists ts, tokenize_loop tokenize fuel lines i tokens = Ok ts.
Proof.
  intros Hdot Htk. revert i tokens.
  induction fuel as [|fuel IH]; intros i tokens Hfuel; [unfold jsstring in *; lia|].
  cbn [tokenize_loop]. destruct (lines !! i) as [line|] eqn:Hline; [|eauto].
  destruct (tokenize_line_progress tokenize lines i line tokens Hdot Hline
              (Htk i)) as (tokens' & i' & -> & Hi').
  cbn. apply IH. (unfold jsstring in *; lia).
Qed.

Lemma split_lines_nonempty s : 1 <= length (split_lines s).
Proof. rewrite split_lines_length. (unfold jsstring in *; lia). Qed.

Lemma tokenize_not_stuck fuel stack markdown :
  forallb tame markdown = true ->
  length (split_lines (trim markdown)) < fuel ->
  tokenize stack fuel markdown ≠ OutOfFuel.
Proof.
  revert markdown. induction stack as [|stack IH]; intros markdown Htame Hfuel;
    [done|].
  cbn [tokenize].
  assert (Forall (fun l => forallb isDot l = true)
            (split_lines (trim markdown))) as Hdot.
  { by apply split_lines_dot, forallb_trim. }
  destruct (tokenize_loop_returns (tokenize stack fuel)
              (split_lines (trim markdown)) fuel 0 [] Hdot) as [ts ->];
    [|unfold jsstring in *; lia|done].
  intros j. set (consumed := consumed_lines _).
  assert (Forall (fun l => forallb isDot l = true)
            (blockquote_content consumed)) as Hcontent.
  { apply blockquote_content_dot, consumed_lines_Forall.
    by apply Forall_drop. }
  destruct (join_lines_tame _ Hcontent) as [Htame' Hcount].
  apply IH; [done|].
  pose proof (split_lines_trim_length
                (join_lines (blockquote_content consumed))) as Htrim.
  rewrite (split_lines_length (join_lines _)), Hcount in Htrim.
  pose proof (blockquote_content_length consumed) as Hlen.
  pose proof (consumed_lines_length
                (drop j (split_lines (trim markdown)))) as Hlen'.
  fold consumed in Hlen'. rewrite length_drop in Hlen'.
  pose proof (split_lines_nonempty (trim markdown)). (unfold jsstring in *; lia).
Qed.

(** X5. On a document without carriage return, line separator and
    paragraph separator the block tokenizer returns its tokens, given a
    frame of stack and fuel for more turns of the loop than the trimmed
    document has lines: every turn moves the index forward. *)
Theorem tokenize_returns (stack fuel : nat) (markdown : jsstring) :
  forallb tame markdown = true ->
  length (split_lines (trim markdown)) < fuel ->
  exists tokens, tokenize (S stack) fuel markdown = Ok tokens.
Proof.
  intros Htame Hfuel.
  destruct (tokenize (S stack) fuel markdown) as [ts|e|] eqn:Hr.
  - eauto.
  - cbn [tokenize] in Hr. by apply tokenize_loop_no_throw in Hr.
  - by apply tokenize_not_stuck in Hr.
Qed.

Lemma tokenize_returns_witness :
  exists tokens,
    tokenize 2 8 (str "# Title

> quoted
> - item
```
- a
  - b") = Ok tokens.
Proof.
  apply (tokenize_returns 1 8); [reflexivity | vm_compute; lia].
Defined.

(** ** The renderer and the facade return *)

Lemma bind_not_stuck {A B} (m : outcome A) (f : A -> outcome B) :
  m ≠ OutOfFuel -> (forall a, f a ≠ OutOfFuel) -> (m ≫= f) ≠ OutOfFuel.
Proof. destruct m; cbn; [by intros _ Hf | done | done]. Qed.

Lemma map_outcome_not_stuck {A B} (f : A -> outcome B) xs :
  (forall x, f x ≠ OutOfFuel) -> map_outcome f xs ≠ OutOfFuel.
Proof.
  intros Hf. induction xs as [|x xs IH]; [done|]. cbn [map_outcome].
  apply bind_not_stuck; [done|]. intros y.
  apply bind_not_stuck; [done | done].
Qed.

Section RenderReturns.
Context `{Host}.
Variable options : ParserOptions.
Variable languages : SyntaxHighlighter.Languages.

Lemma renderChildren_with_not_stuck tokensToHtml kids :
  (forall ts, tokensToHtml ts ≠ OutOfFuel) ->
  renderChildren_with tokensToHtml kids ≠ OutOfFuel.
Proof.
  intros Hr. destruct kids as [cs|]; [|done]. cbn [renderChildren_with].
  apply bind_not_stuck; [|done]. by apply map_outcome_not_stuck.
Qed.

Lemma renderListItems_not_stuck renderChildren stack its :
  (forall kids, renderChildren kids ≠ OutOfFuel) ->
  renderListItems renderChildren stack its ≠ OutOfFuel.
Proof.
  intros Hr. revert its. induction stack as [|stack IH]; intros its; [done|].
  cbn [renderListItems]. apply bind_not_stuck; [|done].
  apply map_outcome_not_stuck. intros item.
  apply bind_not_stuck; [done|]. intros itemContent.
  apply bind_not_stuck; [|done].
  destruct (items item) as [nested|]; [|done].
  apply bind_not_stuck; [apply IH | done].
Qed.

Lemma render_token_not_stuck tokensToHtml stack t :
  (forall ts, tokensToHtml ts ≠ OutOfFuel) ->
  render_token options languages tokensToHtml stack t ≠ OutOfFuel.
Proof.
  intros Hr. unfold render_token.
  pose proof (renderChildren_with_not_stuck tokensToHtml) as Hc.
  destruct (type t); try done;
    try (apply bind_not_stuck; [by auto | done]).
  apply bind_not_stuck; [|done].
  apply renderListItems_not_stuck. intros kids. by apply Hc.
Qed.

Lemma tokensToHtml_not_stuck stack tokens :
  tokensToHtml options languages stack tokens ≠ OutOfFuel.
Proof.
  revert tokens. induction stack as [|stack IH]; intros tokens; [done|].
  cbn [tokensToHtml]. apply bind_not_stuck; [|done].
  apply map_outcome_not_stuck. intros t. by apply render_token_not_stuck.
Qed.

(** X6. On a document without carriage return, line separator and
    paragraph separator [parse] returns a string, whatever the stack it is
    given, with fuel for more turns of the loop than the trimmed document
    has lines. *)
Theorem parse_returns (stack fuel : nat) (markdown : jsstring) :
  forallb tame markdown = true ->
  length (split_lines (trim markdown)) < fuel ->
  exists html, parse options languages stack fuel markdown = Ok html.
Proof.
  intros Htame Hfuel. unfold parse, pipeline, try_catch.
  pose proof (tokenize_not_stuck fuel stack markdown Htame Hfuel) as Htk.
  destruct (tokenize stack fuel markdown) as [tokens|e|]; [|eauto|done].
  cbn. pose proof (tokensToHtml_not_stuck stack tokens) as Hr.
  destruct (tokensToHtml options languages stack tokens); [eauto|eauto|done].
Qed.

End RenderReturns.

Lemma parse_returns_witness :
  exists html,
    parse default_options SyntaxHighlighter.new 4 8 (str "# Title

> quoted
> - item
```
- a
  - b") = Ok html.
Proof.
  apply (parse_returns default_options SyntaxHighlighter.new 4 8);
    [reflexivity | vm_compute; lia].
Defined.

(** ** The span of a block token *)

Lemma parseHeader_raw line : raw (parseHeader line) = line.
Proof.
  unfold parseHeader. destruct (Regex.exec Pattern.header line) as [m|]; [|done].
  by destruct (negb (truthy (or_empty (Regex.group 2 m)))).
Qed.

Lemma slice_lines_one (lines : list jsstring) i line :
  lines !! i = Some line -> join_lines (slice_lines lines i (S i)) = line.
Proof.
  intros Hline. unfold slice_lines.
  rewrite (drop_lookup_cons _ _ _ Hline).
  by replace (S i - i) with 1 by lia.
Qed.

(** X7. Whatever a turn of the loop of [tokenize] appends, its [raw] is
    the lines the turn went over, joined by newlines: from the line the
    turn started on up to the line the loop goes on after.  A turn appends
    one token, or none on a blank line. *)
Theorem tokenize_line_raw_is_consumed_span
  (tokenize : jsstring -> outcome (list Token)) (lines : list jsstring)
  (i : nat) (line : jsstring) (tokens tokens' : list Token) (i' : Z) :
  lines !! i = Some line ->
  tokenize_line tokenize lines i line tokens = Ok (tokens', i') ->
  (tokens' = tokens /\ i' = Z.of_nat i /\ truthy (trim line) = false)
  \/ exists t,
       tokens' = tokens ++ [t]
       /\ raw t = join_lines (slice_lines lines i (Z.to_nat (i' + 1))).
Proof.
  intros Hline. pose proof (slice_lines_one lines i line Hline) as Hone.
  assert (Z.to_nat (Z.of_nat i + 1) = S i) as Hnext by lia.
  unfold tokenize_line.
  destruct (starts_with (str "#") line).
  { intros [= <- <-]. right. eexists. split; [done|].
    by rewrite Hnext, Hone, parseHeader_raw. }
  destruct (starts_with (str ">") line).
  { unfold parseBlockquote.
    destruct (blockquote_scan (drop i lines) i []) as [j content].
    destruct (tokenize (join_lines content)) as [kids|e|]; cbn; [| |done].
    - intros [= <- <-]. right. eexists. split; [done|]. cbn [raw set_children token].
      by replace (Z.to_nat (Z.of_nat j - 1 + 1)) with j by lia.
    - intros [= <- <-]. right. eexists. split; [done|].
      by rewrite Hnext, Hone. }
  destruct (starts_with fence line).
  { unfold parseCodeBlock. rewrite Hline.
    destruct (codeblock_scan (drop (i + 1) lines) (i + 1) []) as [j content].
    destruct (length lines <=? j); cbn.
    - intros [= <- <-]. right. eexists. split; [done|].
      by rewrite Hnext, Hone.
    - intros [= <- <-]. right. eexists. split; [done|].
      cbn [raw set_lang set_text token].
      by replace (Z.to_nat (Z.of_nat j + 1)) with (j + 1) by lia. }
  destruct (Regex.test Pattern.unordered_start (trim line)
            || Regex.test Pattern.ordered_start (trim line)).
  { unfold parseList. rewrite Hline.
    destruct (list_scan _ (drop i lines) i ListScan_init) as [j st]. cbn.
    intros [= <- <-]. right. eexists. split; [done|].
    cbn [raw set_items set_ordered token].
    by replace (Z.to_nat (Z.of_nat j - 1 + 1)) with j by lia. }
  destruct (truthy (trim line)); cbn.
  - intros [= <- <-]. right. eexists. split; [done|]. by rewrite Hnext, Hone.
  - intros [= <- <-]. by left.
Qed.

Lemma tokenize_line_raw_is_consumed_span_witness :
  exists t,
    [paragraph_of (str "intro");
     set_children [paragraph_of (str "a"); paragraph_of (str "b")]
       (token TokenType.blockquote (join_lines [str "> a"; []; str "> b"]))]
    = [paragraph_of (str "intro")] ++ [t]
    /\ raw t = join_lines (slice_lines
                             [str "intro"; str "> a"; []; str "> b"; str "end"]
                             1 (Z.to_nat (3 + 1))).
Proof.
  destruct (tokenize_line_raw_is_consumed_span (tokenize 1 5)
              [str "intro"; str "> a"; []; str "> b"; str "end"] 1 (str "> a")
              [paragraph_of (str "intro")]
              ([paragraph_of (str "intro")]
                 ++ [set_children
                       [paragraph_of (str "a"); paragraph_of (str "b")]
                       (token TokenType.blockquote
                          (join_lines [str "> a"; []; str "> b"]))])
              3%Z eq_refl eq_refl)
    as [(Hsame & _) | (t & Ht & Hraw)].
  - by apply (f_equal length) in Hsame.
  - exists t. split; [exact Ht | exact Hraw].
Defined.

(** ** A closed code block *)

Lemma codeblock_scan_closed body closing post i content :
  Forall (fun l => starts_with fence l = false) body ->
  starts_with fence closing = true ->
  codeblock_scan (body ++ closing :: post) i content
  = (i + length body, content ++ body).
Proof.
  intros Hbody Hclose. revert i content.
  induction Hbody as [|l body Hl _ IH]; intros i content.
  { cbn [app codeblock_scan length]. rewrite Hclose. cbn [negb].
    by rewrite Nat.add_0_r, app_nil_r. }
  cbn [app codeblock_scan length]. rewrite Hl. cbn [negb]. rewrite IH.
  f_equal; [lia | by rewrite <- app_assoc].
Qed.

Lemma parseCodeBlock_at_closed_fence
  (pre body post : list jsstring) (opening closing : jsstring) :
  Forall (fun l => starts_with fence l = false) body ->
  starts_with fence closing = true ->
  parseCodeBlock (pre ++ opening :: body ++ closing :: post) (length pre)
  = Ok ({| type := TokenType.code_block;
           raw := join_lines (opening :: body ++ [closing]);
           text := Some (join_lines body);
           depth := None; items := None;
           lang := Some (trim (slice_from opening 3));
           url := None; children := None; ordered := None |},
        Z.of_nat (length pre + length body + 1)).
Proof.
  intros Hbody Hclose. unfold parseCodeBlock.
  rewrite list_lookup_middle by done.
  assert (drop (length pre + 1) (pre ++ opening :: body ++ closing :: post)
          = body ++ closing :: post) as ->.
  { replace (length pre + 1) with (length (pre ++ [opening]))
      by (rewrite length_app; cbn; lia).
    replace (pre ++ opening :: body ++ closing :: post)
      with ((pre ++ [opening]) ++ body ++ closing :: post)
      by (by rewrite <- app_assoc).
    apply drop_app_length. }
  rewrite codeblock_scan_closed by done. rewrite app_nil_l.
  unfold slice_lines. rewrite drop_app_length.
  replace (length pre + 1 + length body + 1 - length pre)
    with (length (opening :: body ++ [closing]))
    by (cbn [length]; rewrite length_app; cbn; lia).
  replace (opening :: body ++ closing :: post)
    with ((opening :: body ++ [closing]) ++ post)
    by (cbn; by rewrite <- app_assoc).
  rewrite take_app_length.
  destruct (_ <=? _) eqn:Hle.
  { apply Nat.leb_le in Hle. rewrite !length_app in Hle. cbn in Hle.
    rewrite !length_app in Hle. cbn in Hle. lia. }
  do 2 f_equal. lia.
Qed.

(** X8. A fence that is closed: for lines [pre], an opening line, [body]
    lines of which none starts with a fence, a closing line that does, and
    any lines [post], [parseCodeBlock] at the opening line returns a
    [code_block] token whose text is the body joined by newlines, taken as
    it is, whose language is the opening line after its first three code
    units, trimmed, and whose raw runs from the opening to the closing
    line; the index it hands back is that of the closing line. *)
Theorem parseCodeBlock_closed
  (pre body post : list jsstring) (opening closing : jsstring) :
  Forall (fun l => starts_with fence l = false) body ->
  starts_with fence closing = true ->
  parseCodeBlock (pre ++ opening :: body ++ closing :: post) (length pre)
  = Ok ({| type := TokenType.code_block;
           raw := join_lines (opening :: body ++ [closing]);
           text := Some (join_lines body);
           depth := None; items := None;
           lang := Some (trim (slice_from opening 3));
           url := None; children := None; ordered := None |},
        Z.of_nat (length pre + length body + 1)).
Proof. apply parseCodeBlock_at_closed_fence. Qed.

Lemma parseCodeBlock_closed_witness :
  parseCodeBlock
    ([str "text"] ++ str "``` js " :: [str "let a = `x`;"; []]
       ++ str "```" :: [str "after"]) 1
  = Ok ({| type := TokenType.code_block;
           raw := join_lines (str "``` js " :: [str "let a = `x`;"; []]
                                ++ [str "```"]);
           text := Some (join_lines [str "let a = `x`;"; []]);
           depth := None; items := None;
           lang := Some (str "js");
           url := None; children := None; ordered := None |},
        4%Z).
Proof.
  refine (parseCodeBlock_closed [str "text"] [str "let a = `x`;"; []]
            [str "after"] (str "``` js ") (str "```") _ _).
  - repeat constructor.
  - reflexivity.
Defined.

(** ** More on the inline tokenizer *)

Lemma starts_with_cons_ne a p c s :
  c ≠ a -> starts_with (a :: p) (c :: s) = false.
Proof. intros Hne. cbn. by rewrite (proj2 (N.eqb_neq a c)). Qed.

Lemma at_drop s i c : at_ s i = Some c -> exists tl, drop i s = c :: tl.
Proof. intros Hc. exists (drop (S i) s). by apply drop_lookup_cons. Qed.

Lemma inline_construct_no_marker txt i c :
  at_ txt i = Some c -> isInlineMarker c = false ->
  inline_construct txt i = None.
Proof.
  intros Hc Hm. destruct (at_drop _ _ _ Hc) as [tl Hdrop].
  unfold isInlineMarker in Hm.
  repeat (apply orb_false_iff in Hm as [Hm ?]).
  assert (c ≠ ch "*") as Hs by (by intros ->).
  assert (c ≠ ch "_") as Hu by (by intros ->).
  assert (starts_with (str "**") (c :: tl) = false) as Hbs
    by (by apply (starts_with_cons_ne (ch "*") [ch "*"])).
  assert (starts_with (str "__") (c :: tl) = false) as Hbu
    by (by apply (starts_with_cons_ne (ch "_") [ch "_"])).
  unfold inline_construct, inline_bold, inline_italic, inline_code,
    inline_link, startsWith, at_is. rewrite Hdrop, Hc, Hbs, Hbu. cbn [orb].
  by repeat match goal with H : is_ch _ c = false |- _ => rewrite H end.
Qed.

Lemma parseInline_loop_plain fuel txt i current tokens :
  Forall (fun c => isInlineMarker c = false) txt ->
  length txt - i < fuel ->
  parseInline_loop fuel txt i current tokens
  = Some (tokens ++ flush (current ++ drop i txt)).
Proof.
  intros Hplain. revert i current.
  induction fuel as [|fuel IH]; intros i current Hfuel; [lia|].
  cbn [parseInline_loop]. destruct (at_ txt i) as [c|] eqn:Hc.
  - rewrite (inline_construct_no_marker txt i c Hc).
    2:{ rewrite Forall_forall in Hplain. apply Hplain.
        by apply list_elem_of_lookup_2 in Hc. }
    apply at_Some_lt in Hc as Hlt. rewrite IH by lia.
    by rewrite <- app_assoc, (drop_lookup_cons _ _ _ Hc).
  - apply at_None_ge in Hc. by rewrite drop_ge, app_nil_r by lia.
Qed.

(** X9. A text in which no asterisk, underscore, backtick or opening
    bracket stands is one [text] token whose raw and text are the text
    itself; the empty text has no token. *)
Theorem parseInline_plain_text (txt : jsstring) :
  Forall (fun c => isInlineMarker c = false) txt ->
  parseInline txt
  = match txt with
    | [] => []
    | _ :: _ =>
        [ {| type := TokenType.text; raw := txt; text := Some txt;
             depth := None; items := None; lang := None; url := None;
             children := None; ordered := None |} ]
    end.
Proof.
  intros Hplain. unfold parseInline.
  rewrite (parseInline_loop_plain _ txt 0 [] [] Hplain) by lia.
  by destruct txt.
Qed.

Lemma parseInline_plain_text_witness :
  parseInline (str "plain text, with (brackets] & more")
  = [ set_text (str "plain text, with (brackets] & more")
        (token TokenType.text (str "plain text, with (brackets] & more")) ].
Proof.
  apply (parseInline_plain_text (str "plain text, with (brackets] & more")).
  repeat constructor.
Defined.

Lemma slice_nonempty s i j : i < j <= length s -> slice s i j ≠ [].
Proof.
  intros Hij Hnil. apply (f_equal length) in Hnil. unfold slice in Hnil.
  rewrite length_take, length_drop in Hnil. cbn in Hnil. lia.
Qed.

Ltac inline_shape :=
  unfold inline_shaped; cbn;
  repeat split; try done; try (intros [? ?]; done);
  try (rewrite !elem_of_cons; tauto).

Lemma inline_construct_shaped txt i t i' :
  inline_construct txt i = Some (t, i') -> inline_shaped t.
Proof.
  intros Hk. pose proof (inline_construct_span _ _ _ _ Hk) as [Hraw Hi].
  pose proof (slice_nonempty txt i i' Hi) as Hne. rewrite <- Hraw in Hne.
  revert Hk Hne. unfold inline_construct.
  destruct (inline_bold txt i) as [[t1 i1]|] eqn:Hb.
  { intros [= <- <-]. revert Hb. unfold inline_bold.
    destruct (_ || _); [|done]. destruct (indexOf _ _ _); [|done].
    intros [= <- _] Hne. inline_shape. }
  destruct (inline_italic txt i) as [[t1 i1]|] eqn:Hi'.
  { intros [= <- <-]. revert Hi'. unfold inline_italic.
    destruct (at_ txt i); [|done]. destruct (_ || _); [|done].
    destruct (indexOf _ _ _); [|done].
    intros [= <- _] Hne. inline_shape. }
  destruct (inline_code txt i) as [[t1 i1]|] eqn:Hc.
  { intros [= <- <-]. revert Hc. unfold inline_code.
    destruct (at_is txt i _); [|done]. destruct (indexOf _ _ _); [|done].
    intros [= <- _] Hne. inline_shape. }
  unfold inline_link. destruct (at_is txt i _); [|done].
  destruct (indexOf _ _ _); [|done]. destruct (at_is txt _ _); [|done].
  destruct (indexOf _ _ _); [|done].
  intros [= <- _] Hne. inline_shape; eauto.
Qed.

Lemma flush_shaped current : Forall inline_shaped (flush current).
Proof.
  unfold flush. destruct current as [|c current]; [constructor|].
  cbn [truthy]. apply Forall_singleton. inline_shape.
Qed.

Lemma parseInline_loop_shaped fuel txt i current tokens ts :
  Forall inline_shaped tokens ->
  parseInline_loop fuel txt i current tokens = Some ts ->
  Forall inline_shaped ts.
Proof.
  revert i current tokens.
  induction fuel as [|fuel IH]; intros i current tokens Hts; [done|].
  cbn [parseInline_loop]. destruct (at_ txt i) as [c|].
  - destruct (inline_construct txt i) as [[t i']|] eqn:Hk.
    + apply IH. apply Forall_app. split; [done|]. apply Forall_app.
      split; [apply flush_shaped|].
      apply Forall_singleton. by apply inline_construct_shaped in Hk.
    + by apply IH.
  - intros [= <-]. apply Forall_app. split; [done | apply flush_shaped].
Qed.

(** X10. Every token of [parseInline] is a [text], [bold], [italic],
    [code] or [link] token with a raw that is not empty and a text; it has
    a URL exactly if it is a link, and neither children nor items: inline
    spans do not nest. *)
Theorem parseInline_tokens_are_flat (txt : jsstring) :
  Forall inline_shaped (parseInline txt).
Proof.
  unfold parseInline.
  destruct (parseInline_loop (S (length txt)) txt 0 [] []) as [ts|] eqn:Hts;
    [|constructor].
  by apply (parseInline_loop_shaped _ _ _ _ _ _ (Forall_nil_2 _) Hts).
Qed.

(** X11. A doubled asterisk or underscore with no second pair after it is
    not left as text: the bold test fails, and the italic test that comes
    next finds the second marker as the closing one, so the pair becomes an
    [italic] token with the empty text. *)
Theorem inline_unclosed_bold_is_empty_italic
  (txt : jsstring) (i : nat) (m : N) :
  m = ch "*" \/ m = ch "_" ->
  startsWith txt [m; m] i = true ->
  indexOf txt [m; m] (i + 2) = None ->
  inline_construct txt i
  = Some ({| type := TokenType.italic; raw := [m; m]; text := Some [];
             depth := None; items := None; lang := None; url := None;
             children := None; ordered := None |}, i + 2).
Proof.
  intros Hm Hstart Hnone. unfold startsWith in Hstart.
  destruct (drop i txt) as [|c1 [|c2 tl]] eqn:Hdrop; try done.
  { cbn in Hstart. by rewrite andb_false_r in Hstart. }
  cbn in Hstart. rewrite andb_true_r in Hstart.
  apply andb_prop in Hstart as [H1%N.eqb_eq H2%N.eqb_eq].
  subst c1 c2.
  assert (at_ txt i = Some m) as Hat.
  { pose proof (lookup_drop txt i 0) as Hl.
    rewrite Hdrop, Nat.add_0_r in Hl. by symmetry. }
  assert (drop (i + 1) txt = m :: tl) as Hdrop1.
  { by rewrite <- drop_drop, Hdrop. }
  assert (substr txt i 2 = [m; m]) as Hsub.
  { unfold substr. by rewrite Hdrop. }
  assert (slice txt (i + 1) (i + 1) = []) as Hs1.
  { unfold slice. by rewrite Nat.sub_diag. }
  assert (slice txt i (i + 1 + 1) = [m; m]) as Hs2.
  { unfold slice. rewrite Hdrop.
    by replace (i + 1 + 1 - i) with 2 by lia. }
  unfold inline_construct, inline_bold, inline_italic, startsWith, indexOf.
  rewrite Hdrop, Hat, Hsub. fold (indexOf txt [m; m] (i + 2)).
  rewrite Hnone, Hdrop1.
  assert (is_ch "*" m || is_ch "_" m = true) as ->.
  { destruct Hm as [-> | ->]; done. }
  assert (starts_with (str "**") (m :: m :: tl)
          || starts_with (str "__") (m :: m :: tl) = true) as ->.
  { destruct Hm as [-> | ->]; done. }
  cbn [index_from starts_with]. rewrite N.eqb_refl. cbn [andb].
  rewrite Hs1, Hs2. by replace (i + 1 + 1) with (i + 2) by lia.
Qed.

Lemma inline_unclosed_bold_is_empty_italic_witness :
  inline_construct (str "a **b") 2
  = Some (set_text [] (token TokenType.italic (str "**")), 4)
  /\ parseInline (str "a **b")
     = [ set_text (str "a ") (token TokenType.text (str "a "));
         set_text [] (token TokenType.italic (str "**"));
         set_text (str "b") (token TokenType.text (str "b")) ].
Proof.
  split; [|reflexivity].
  apply (inline_unclosed_bold_is_empty_italic (str "a **b") 2 (ch "*"));
    [by left | reflexivity | reflexivity].
Defined.

(** ** Slugs *)

Ltac unit_values :=
  repeat match goal with
         | |- context [ch ?a] =>
             let v := eval vm_compute in (ch a) in change (ch a) with v
         | H : context [ch ?a] |- _ =>
             let v := eval vm_compute in (ch a) in change (ch a) with v in H
         end.

Ltac unit_facts :=
  unfold isSlugOut, isSlugUnit, isHtmlSpecial, isInlineMarker, URL.isLower,
    URL.isUpper, isDigit, isSpace, is_ch, dquote in *;
  unit_values;
  rewrite ?orb_true_iff, ?andb_true_iff, ?orb_false_iff, ?andb_false_iff,
    ?N.eqb_eq, ?N.eqb_neq, ?N.leb_le, ?N.leb_gt in *;
  try lia.

Lemma replace_runs_Forall (P : N -> Prop) f r b s :
  P r -> Forall (fun c => f c = false -> P c) s ->
  Forall P (Regex.replace_runs f [r] b s).
Proof.
  intros Hr Hs. revert b. induction Hs as [|c s Hc _ IH]; intros b; cbn.
  { constructor. }
  destruct (f c) eqn:Hf.
  - destruct b; [apply IH | constructor; [done | apply IH]].
  - constructor; [by apply Hc | apply IH].
Qed.

Lemma replace_runs_no_run f r b s :
  f r = true -> no_run f b (Regex.replace_runs f [r] b s) = true.
Proof.
  intros Hr. revert b. induction s as [|c s IH]; intros b; cbn; [done|].
  destruct (f c) eqn:Hf.
  - destruct b; [apply IH|]. cbn. rewrite Hr. apply IH.
  - cbn. rewrite Hf, andb_false_r. apply IH.
Qed.

Lemma replace_runs_none f rep b s :
  Forall (fun c => f c = false) s -> Regex.replace_runs f rep b s = s.
Proof.
  intros Hs. revert b. induction Hs as [|c s Hc _ IH]; intros b; cbn; [done|].
  by rewrite Hc, IH.
Qed.

Lemma replace_runs_no_run_id f r b s :
  (forall c, f c = true -> c = r) ->
  no_run f b s = true -> Regex.replace_runs f [r] b s = s.
Proof.
  intros Hf. revert b. induction s as [|c s IH]; intros b; cbn; [done|].
  intros [Hc Hs]%andb_prop. destruct (f c) eqn:Hfc.
  - destruct b; [done|]. cbn. by rewrite (Hf c Hfc), IH.
  - by rewrite IH.
Qed.

Lemma no_run_pair f b s i c d tl :
  no_run f b s = true -> drop i s = c :: d :: tl -> f c && f d = false.
Proof.
  revert b i. induction s as [|x s IH]; intros b i Hs Hdrop.
  { by rewrite drop_nil in Hdrop. }
  cbn in Hs. apply andb_prop in Hs as [_ Hs]. destruct i as [|i].
  - cbn in Hdrop. injection Hdrop as -> ->. cbn in Hs.
    apply andb_prop in Hs as [Hs _]. by apply negb_true_iff.
  - by apply (IH _ i Hs).
Qed.

Lemma slugify_units txt : Forall (fun c => isSlugOut c = true) (slugify txt).
Proof.
  unfold slugify.
  apply (replace_runs_Forall (fun c => isSlugOut c = true)); [done|].
  apply Forall_impl
    with (P := fun c => isSlugOut c = true); [|by intros c Hc _].
  apply (replace_runs_Forall (fun c => isSlugOut c = true)); [done|].
  apply Forall_forall. intros c [Hc _]%list_elem_of_filter. revert Hc.
  intros Hc Hsp. apply Is_true_true in Hc. revert Hc Hsp. unit_facts.
Qed.

Lemma slugify_no_run txt : no_run (is_ch "-") false (slugify txt) = true.
Proof. by apply replace_runs_no_run. Qed.

Lemma toLowerCase_slug s :
  Forall (fun c => isSlugOut c = true) s -> toLowerCase s = s.
Proof.
  induction 1 as [|c s Hc _ IH]; [done|].
  unfold toLowerCase in *. cbn [flat_map]. rewrite IH.
  assert (URL.isUpper c = false) as -> by (revert Hc; unit_facts).
  assert (N.eqb c 8490 = false) as -> by (revert Hc; unit_facts).
  assert (N.eqb c 304 = false) as -> by (revert Hc; unit_facts).
  done.
Qed.

Lemma filter_slug s :
  Forall (fun c => isSlugOut c = true) s ->
  filter (fun c => isSlugUnit c) s = s.
Proof.
  induction 1 as [|c s Hc _ IH]; [done|].
  rewrite filter_cons, IH. rewrite decide_True; [done|].
  apply Is_true_true. revert Hc. unit_facts.
Qed.

(** X12. A slug is made of lower case letters, digits and hyphens only, so
    that it holds none of the five characters of HTML and can stand in an
    attribute as it is; and no hyphen follows another one. *)
Theorem slugify_shape (txt : jsstring) :
  Forall (fun c => isSlugOut c = true /\ isHtmlSpecial c = false)
    (slugify txt)
  /\ forall i, startsWith (slugify txt) (str "--") i = false.
Proof.
  split.
  - eapply Forall_impl; [apply slugify_units|].
    intros c Hc. split; [done|]. revert Hc. unit_facts.
  - intros i. unfold startsWith.
    destruct (drop i (slugify txt)) as [|c [|d tl]] eqn:Hdrop; [done| |].
    { cbn. by rewrite andb_false_r. }
    pose proof (no_run_pair _ _ _ _ _ _ _ (slugify_no_run txt) Hdrop) as Hp.
    cbn. rewrite andb_true_r. unfold is_ch in Hp.
    by rewrite (N.eqb_sym _ c), (N.eqb_sym _ d).
Qed.

(** X13. [slugify] is idempotent: a slug is its own slug. *)
Theorem slugify_idempotent (txt : jsstring) :
  slugify (slugify txt) = slugify txt.
Proof.
  pose proof (slugify_units txt) as Hu.
  pose proof (slugify_no_run txt) as Hr.
  generalize dependent (slugify txt). intros s Hu Hr.
  unfold slugify, jsstring in *.
  rewrite (toLowerCase_slug s Hu), (filter_slug s Hu).
  rewrite (replace_runs_none isSpace).
  2:{ eapply Forall_impl; [exact Hu|]. intros c Hc. revert Hc. unit_facts. }
  apply replace_runs_no_run_id; [|done].
  intros c Hc. by apply N.eqb_eq in Hc.
Qed.

(** ** Paragraphs, line by line *)

Lemma tokenize_loop_paragraphs tokenize (lines : list jsstring) fuel i tokens :
  Forall (fun l => startsBlock l = false) lines ->
  length lines - i < fuel ->
  tokenize_loop tokenize fuel lines i tokens
  = Ok (tokens ++ map paragraph_of
                    (filter (fun l => truthy (trim l)) (drop i lines))).
Proof.
  intros Hlines. revert i tokens.
  induction fuel as [|fuel IH]; intros i tokens Hfuel;
    [unfold jsstring in *; lia|].
  cbn [tokenize_loop]. destruct (lines !! i) as [line|] eqn:Hline.
  2:{ apply lookup_ge_None in Hline. rewrite drop_ge by done.
      by rewrite app_nil_r. }
  pose proof (lookup_lt_Some _ _ _ Hline) as Hi.
  rewrite (drop_lookup_cons _ _ _ Hline), filter_cons.
  assert (startsBlock line = false) as Hb.
  { rewrite Forall_forall in Hlines. apply Hlines.
    by apply list_elem_of_lookup_2 in Hline. }
  unfold startsBlock in Hb.
  apply orb_false_iff in Hb as [Hb Hord].
  apply orb_false_iff in Hb as [Hb Hun].
  apply orb_false_iff in Hb as [Hb Hfence].
  apply orb_false_iff in Hb as [Hhash Hquote].
  unfold tokenize_line. rewrite Hhash, Hquote, Hfence, Hun, Hord.
  cbn [orb]. destruct (truthy (trim line)) eqn:Htext.
  - rewrite decide_True by done. cbn.
    replace (Z.to_nat (Z.of_nat i + 1)) with (S i) by lia.
    rewrite IH by (unfold jsstring in *; lia).
    by rewrite <- app_assoc.
  - rewrite decide_False by (by intros []). cbn.
    replace (Z.to_nat (Z.of_nat i + 1)) with (S i) by lia.
    by rewrite IH by (unfold jsstring in *; lia).
Qed.

(** X14. In a document none of whose lines begins a header, a blockquote,
    a code block or a list, every line that is not blank is a paragraph of
    its own, in the order of the lines, and a blank line gives no token:
    consecutive lines are not joined into one paragraph. *)
Theorem tokenize_paragraph_per_line
  (stack fuel : nat) (markdown : jsstring) :
  Forall (fun l => startsBlock l = false) (split_lines (trim markdown)) ->
  length (split_lines (trim markdown)) < fuel ->
  tokenize (S stack) fuel markdown
  = Ok (map paragraph_of
          (filter (fun l => truthy (trim l)) (split_lines (trim markdown)))).
Proof.
  intros Hlines Hfuel. cbn [tokenize].
  by rewrite tokenize_loop_paragraphs by (done || unfold jsstring in *; lia).
Qed.

Lemma tokenize_paragraph_per_line_witness :
  tokenize 1 5 (str "one
two

 three
")
  = Ok [paragraph_of (str "one"); paragraph_of (str "two");
        paragraph_of (str " three")].
Proof.
  apply (tokenize_paragraph_per_line 0 5).
  - repeat constructor.
  - vm_compute. lia.
Defined.

Lemma map_outcome_map {A B C} (f : B -> outcome C) (h : A -> B) (g : A -> C)
  (xs : list A) :
  Forall (fun x => f (h x) = Ok (g x)) xs ->
  map_outcome f (map h xs) = Ok (map g xs).
Proof.
  induction 1 as [|x xs Hx _ IH]; [done|].
  cbn [map map_outcome]. by rewrite Hx, IH.
Qed.

Lemma split_lines_Forall (f : N -> bool) s :
  forallb f s = true ->
  Forall (fun l => forallb f l = true) (split_lines s).
Proof.
  induction s as [|c s IH]; [by repeat constructor|].
  cbn [forallb split_lines]. intros [Hc Hs]%andb_prop. specialize (IH Hs).
  destruct (N.eqb c 10); [by constructor|].
  destruct (split_lines s) as [|l ls].
  { constructor; [|done]. cbn. by rewrite Hc. }
  inversion IH as [|? ? Hl Hls]; subst. constructor; [|done].
  cbn [forallb]. by rewrite Hl, Hc.
Qed.

Section RenderPlain.
Context `{Host}.
Variable options : ParserOptions.
Variable languages : SyntaxHighlighter.Languages.

Lemma tokensToHtml_text stack r x :
  tokensToHtml options languages (S stack)
    [set_text x (token TokenType.text r)]
  = Ok (escapeHtml x).
Proof. reflexivity. Qed.

Lemma render_plain_paragraph stack k (line : jsstring) :
  forallb (fun c => negb (isInlineMarker c)) line = true ->
  line ≠ [] ->
  render_token options languages
    (tokensToHtml options languages (S stack)) k (paragraph_of line)
  = Ok (plain_paragraph line).
Proof.
  intros Hplain Hne. unfold paragraph_of, parseInline.
  rewrite (parseInline_loop_plain _ line 0 [] []); [|
    apply Forall_forall; intros c Hc;
    rewrite forallb_forall in Hplain;
    apply negb_true_iff, Hplain, list_elem_of_In, Hc | lia].
  destruct line as [|c line]; [done|].
  cbn [app drop default id flush truthy].
  change (render_token _ _ _ _ _)
    with (Ok (str "<p>" ++ (escapeHtml (c :: line) ++ []) ++ str "</p>")).
  by rewrite app_nil_r.
Qed.

(** X15. A document without inline markers none of whose lines begins a
    block is rendered line by line: each line that is not blank becomes a
    [p] element around the escaped line, kept with its own white space, and
    the elements are joined by line feeds. *)
Theorem parse_plain_paragraphs (stack fuel : nat) (markdown : jsstring) :
  forallb (fun c => negb (isInlineMarker c)) markdown = true ->
  Forall (fun l => startsBlock l = false) (split_lines (trim markdown)) ->
  length (split_lines (trim markdown)) < fuel ->
  parse options languages (S (S stack)) fuel markdown
  = Ok (join_lines
          (map plain_paragraph
             (filter (fun l => truthy (trim l))
                (split_lines (trim markdown))))).
Proof.
  intros Hplain Hlines Hfuel. unfold parse, pipeline. cbn [tokenize].
  rewrite (tokenize_loop_paragraphs _ _ fuel 0 [] Hlines)
    by (unfold jsstring in *; lia).
  rewrite app_nil_l, drop_0. cbn [mbind outcome_bind tokensToHtml].
  rewrite (map_outcome_map _ _ plain_paragraph); [done|].
  apply Forall_forall. intros l [Hl Hin]%list_elem_of_filter.
  apply render_plain_paragraph.
  - pose proof (split_lines_Forall _ _ (forallb_trim _ _ Hplain)) as Hall.
    rewrite Forall_forall in Hall. by apply Hall.
  - apply Is_true_true in Hl. intros ->. done.
Qed.

End RenderPlain.

Lemma parse_plain_paragraphs_witness :
  parse default_options SyntaxHighlighter.new 2 4 (str "a < b
  c & d")
  = Ok (str "<p>a &lt; b</p>
<p>  c &amp; d</p>").
Proof.
  apply (parse_plain_paragraphs default_options SyntaxHighlighter.new 0 4).
  - reflexivity.
  - repeat constructor.
  - vm_compute. lia.
Defined.

(** ** Headers *)

Lemma space_then_rest_text ws c txt :
  ws ≠ [] -> forallb isSpace ws = true ->
  isSpace c = false -> forallb isDot (c :: txt) = true ->
  space_then_rest (ws ++ c :: txt) = Some (c :: txt).
Proof.
  intros Hws Hsp Hc Hdot. unfold space_then_rest.
  rewrite span_app by done.
  rewrite (span_stop isSpace (c :: txt)) by (by intros ? [= <-]).
  cbn [fst snd]. rewrite app_nil_r. destruct ws as [|w ws]; [done|].
  by rewrite Hdot.
Qed.

Lemma parseHeader_token n ws c txt :
  1 <= n <= 6 ->
  ws ≠ [] -> forallb isSpace ws = true ->
  isSpace c = false -> forallb isDot (c :: txt) = true ->
  parseHeader (hashes n ++ ws ++ c :: txt)
  = {| type := TokenType.header; raw := hashes n ++ ws ++ c :: txt;
       text := Some (c :: txt); depth := Some n; items := None;
       lang := None; url := None;
       children := Some (parseInline (c :: txt)); ordered := None |}.
Proof.
  intros Hn Hws Hsp Hc Hdot. unfold parseHeader, header_groups.
  rewrite header_exec_spec. unfold header_groups.
  rewrite span_hashes.
  2:{ destruct ws as [|w ws]; [done|]. cbn in *.
      apply andb_prop in Hsp as [Hw _]. by intros [= ->]. }
  unfold hashes at 1 2. rewrite length_replicate.
  replace (1 <=? n) with true by (symmetry; apply Nat.leb_le; lia).
  replace (n <=? 6) with true by (symmetry; apply Nat.leb_le; lia).
  cbn [andb]. rewrite space_then_rest_text by done.
  destruct (ws ++ c :: txt) eqn:E; [by destruct ws|]. rewrite <- E.
  cbn [Regex.group Regex.group_ Nat.eqb or_empty default id].
  assert (truthy (ws ++ c :: txt) = true) as -> by (by rewrite E).
  cbn [negb]. unfold set_children, set_depth, set_text, token, hashes.
  by rewrite length_replicate.
Qed.

(** X16. The text of a header is what follows the white space behind the
    number signs, up to the end of the line and with the white space at its
    end, and the children are the inline tokens of that text. *)
Theorem parseHeader_text_and_children
  (n : nat) (ws : jsstring) (c : N) (txt : jsstring) :
  1 <= n <= 6 ->
  ws ≠ [] -> forallb isSpace ws = true ->
  isSpace c = false -> forallb isDot (c :: txt) = true ->
  text (parseHeader (hashes n ++ ws ++ c :: txt)) = Some (c :: txt)
  /\ children (parseHeader (hashes n ++ ws ++ c :: txt))
     = Some (parseInline (c :: txt)).
Proof. intros. by rewrite parseHeader_token. Qed.

Lemma parseHeader_text_and_children_witness :
  text (parseHeader (str "##  Title one  ")) = Some (str "Title one  ")
  /\ children (parseHeader (str "##  Title one  "))
     = Some (parseInline (str "Title one  ")).
Proof.
  apply (parseHeader_text_and_children 2 (str "  ") (ch "T")
           (str "itle one  ")); [lia | done | reflexivity..].
Defined.

Lemma trimStart_head s c : head (trimStart s) = Some c -> isSpace c = false.
Proof.
  induction s as [|x s IH]; [done|]. cbn [trimStart].
  destruct (isSpace x) eqn:Hx; [done|]. by intros [= <-].
Qed.

Lemma trimStart_id s :
  (forall c, head s = Some c -> isSpace c = false) -> trimStart s = s.
Proof. destruct s as [|c s]; [done|]. intros Hc. cbn. by rewrite (Hc c). Qed.

Lemma trim_id s a z :
  head s = Some a -> isSpace a = false ->
  last s = Some z -> isSpace z = false ->
  trim s = s.
Proof.
  intros Ha Hna Hz Hnz. unfold trim, trimEnd.
  rewrite (trimStart_id s) by (intros c; rewrite Ha; by intros [= <-]).
  apply last_Some in Hz as [s' ->]. rewrite rev_app_distr. cbn [rev app].
  rewrite trimStart_id by (by intros c [= <-]).
  cbn [rev]. by rewrite rev_involutive.
Qed.

Lemma last_rev_head {A} (l : list A) : last (rev l) = head l.
Proof. destruct l as [|x l]; [done|]. cbn [rev]. by rewrite last_snoc. Qed.

Lemma trim_fixed_ends s :
  trim s = s -> s ≠ [] ->
  (exists a, head s = Some a /\ isSpace a = false)
  /\ (exists z, last s = Some z /\ isSpace z = false).
Proof.
  intros Hs Hne.
  destruct (trimStart_suffix s) as [p Hp].
  destruct (trimStart_suffix (rev (trimStart s))) as [q Hq].
  assert (length (trim s) <= length (trimStart s)) as Hle.
  { apply (f_equal length) in Hq. unfold trim, trimEnd.
    rewrite length_app, !length_rev in Hq. rewrite length_rev. lia. }
  assert (p = []) as ->.
  { apply (f_equal length) in Hp. rewrite length_app in Hp.
    rewrite Hs in Hle. apply nil_length_inv. lia. }
  cbn in Hp. split.
  - destruct s as [|a s]; [done|]. exists a. split; [done|].
    apply (trimStart_head (a :: s)). by rewrite <- Hp.
  - destruct (last s) as [z|] eqn:Hz; [|by apply last_None in Hz].
    exists z. split; [done|].
    apply (trimStart_head (rev (trimStart s))).
    rewrite <- Hs in Hz at 1. unfold trim, trimEnd in Hz.
    by rewrite last_rev_head in Hz.
Qed.

Lemma split_lines_single s : forallb isDot s = true -> split_lines s = [s].
Proof.
  induction s as [|c s IH]; [done|]. cbn [forallb split_lines].
  intros [Hc Hs]%andb_prop. rewrite (IH Hs).
  destruct (N.eqb_spec c 10) as [->|Hne]; done.
Qed.

Lemma tokenize_loop_header_line tokenize fuel (line : jsstring) :
  starts_with (str "#") line = true ->
  tokenize_loop tokenize (S (S fuel)) [line] 0 [] = Ok [parseHeader line].
Proof.
  intros Hstart. cbn [tokenize_loop]. change ([line] !! 0) with (Some line).
  unfold tokenize_line. rewrite Hstart. reflexivity.
Qed.

Section RenderHeader.
Context `{Host}.
Variable options : ParserOptions.
Variable languages : SyntaxHighlighter.Languages.

Lemma render_header_plain stack k line n (txt : jsstring) :
  forallb (fun c => negb (isInlineMarker c)) txt = true ->
  txt ≠ [] ->
  render_token options languages
    (tokensToHtml options languages (S stack)) k
    {| type := TokenType.header; raw := line; text := Some txt;
       depth := Some n; items := None; lang := None; url := None;
       children := Some (parseInline txt); ordered := None |}
  = Ok (header_html options n txt).
Proof.
  intros Hplain Hne. unfold parseInline.
  rewrite (parseInline_loop_plain _ txt 0 [] []); [|
    apply Forall_forall; intros c Hc;
    rewrite forallb_forall in Hplain;
    apply negb_true_iff, Hplain, list_elem_of_In, Hc | lia].
  destruct txt as [|c txt]; [done|].
  cbn [app drop default id flush truthy].
  unfold header_html.
  change (render_token _ _ _ _ _)
    with (Ok (str "<h" ++ of_nat n
                ++ (if headerIds options
                    then str " id=" ++ dquote :: slugify (c :: txt) ++ [dquote]
                    else [])
                ++ str ">" ++ (escapeHtml (c :: txt) ++ [])
                ++ str "</h" ++ of_nat n ++ str ">")).
  by rewrite app_nil_r.
Qed.

Lemma tokensToHtml_single stack t h :
  render_token options languages (tokensToHtml options languages stack)
    stack t = Ok h ->
  tokensToHtml options languages (S stack) [t] = Ok h.
Proof. intros Hr. cbn [tokensToHtml map_outcome]. by rewrite Hr. Qed.

(** X17. A document of one header line, of one to six number signs, blanks
    and a trimmed text without inline markers, is rendered as the [h]
    element of that depth around the escaped text; with [headerIds] on the
    element has the slug of the text as its [id]. *)
Theorem parse_header_line
  (stack fuel n : nat) (ws txt : jsstring) :
  1 <= n <= 6 ->
  ws ≠ [] -> forallb (fun c => isSpace c && isDot c) ws = true ->
  txt ≠ [] -> trim txt = txt ->
  forallb (fun c => isDot c && negb (isInlineMarker c)) txt = true ->
  parse options languages (S (S stack)) (S (S fuel)) (hashes n ++ ws ++ txt)
  = Ok (header_html options n txt).
Proof.
  intros Hn Hws Hsp Hne Htrim Htxt.
  assert (forallb isSpace ws = true /\ forallb isDot ws = true) as [Hs Hd].
  { split; apply forallb_forall; intros c Hc;
      rewrite forallb_forall in Hsp; by apply Hsp, andb_prop in Hc as [? ?]. }
  assert (forallb isDot txt = true
          /\ forallb (fun c => negb (isInlineMarker c)) txt = true)
    as [Hdot Hplain].
  { split; apply forallb_forall; intros c Hc;
      rewrite forallb_forall in Htxt; by apply Htxt, andb_prop in Hc as [? ?]. }
  destruct (trim_fixed_ends txt Htrim Hne) as [(a & Ha & Hna) (z & Hz & Hnz)].
  destruct txt as [|c txt]; [done|]. injection Ha as ->.
  set (line := hashes n ++ ws ++ a :: txt).
  assert (exists m, hashes n = ch "#" :: hashes m) as [m Hm].
  { destruct n as [|m]; [lia|]. by exists m. }
  assert (trim line = line) as Hline.
  { apply (trim_id line (ch "#") z); [by unfold line; rewrite Hm | done | |done].
    unfold line. by rewrite !last_app, Hz. }
  assert (split_lines line = [line]) as Hsplit.
  { apply split_lines_single. unfold line. rewrite !forallb_app, Hd, Hdot.
    rewrite andb_true_r. unfold hashes. clear. by induction n. }
  assert (starts_with (str "#") line = true) as Hstart.
  { unfold line. by rewrite Hm. }
  unfold parse, pipeline. cbn [tokenize]. rewrite Hline, Hsplit.
  rewrite (tokenize_loop_header_line _ _ _ Hstart).
  cbn [mbind outcome_bind].
  rewrite (tokensToHtml_single _ _ (header_html options n (a :: txt)));
    [done|].
  unfold line. rewrite parseHeader_token by done.
  by apply render_header_plain.
Qed.

End RenderHeader.

Lemma parse_header_line_witness :
  parse default_options SyntaxHighlighter.new 2 2 (str "## Q & A, part 2")
  = Ok (str "<h2 id=" ++ dquote :: str "q-a-part-2" ++ dquote
          :: str ">Q &amp; A, part 2</h2>").
Proof.
  apply (parse_header_line default_options SyntaxHighlighter.new 0 0 2
           (str " ") (str "Q & A, part 2"));
    [lia | done | reflexivity | done | reflexivity | reflexivity].
Defined.

(** ** The highlighter *)

(** X18. [escapeHtmlExceptStrings] decides once for all single quotes of
    the code: the test looks at the first single quote whichever quote is
    being replaced.  When that one is not inside a string literal the
    result is [escapeHtml] of the code; when it is, every single quote of
    the code is kept, inside a string or not.  The ampersand, the angle
    brackets and the double quote are escaped in both cases, inside string
    literals too. *)
Theorem escapeHtmlExceptStrings_all_or_nothing `{Host} (txt : jsstring) :
  SyntaxHighlighter.escapeHtmlExceptStrings txt
  = if SyntaxHighlighter.isInsideString txt (str "'")
    then flat_map (fun c => if is_ch "'" c then [c] else entity c) txt
    else escapeHtml txt.
Proof.
  rewrite escapeHtml_flat. unfold SyntaxHighlighter.escapeHtmlExceptStrings.
  assert (forall c,
             SyntaxHighlighter.escape_unit txt c
             = if SyntaxHighlighter.isInsideString txt (str "'")
               then (if is_ch "'" c then [c] else entity c)
               else entity c) as Hunit.
  { intros c. unfold SyntaxHighlighter.escape_unit, entity.
    destruct (is_ch "'" c) eqn:Hq.
    - apply N.eqb_eq in Hq as ->.
      change [ch "'"] with (str "'").
      by destruct (SyntaxHighlighter.isInsideString txt (str "'")).
    - cbn [andb].
      by destruct (SyntaxHighlighter.isInsideString txt (str "'")). }
  rewrite (flat_map_ext _ _ Hunit).
  destruct (SyntaxHighlighter.isInsideString txt (str "'")); done.
Qed.


(** ** Lists at one indentation *)

Lemma list_scan_ends ord post i st :
  list_ends ord (currentIndent st) post = true ->
  list_scan ord post i st = (i, st).
Proof.
  destruct post as [|line post]; [done|]. cbn [list_ends list_scan].
  destruct (listItemMatch ord line) as [[marker content]|]; [done|].
  by intros ->%negb_true_iff.
Qed.

Lemma alter_snoc {A} (f : A -> A) (base : list A) (arr : A) :
  alter f (length base) (base ++ [arr]) = base ++ [f arr].
Proof. by rewrite <- (Nat.add_0_r (length base)), alter_app_r. Qed.

Lemma list_scan_same_indent ord (ls post : list jsstring) i base arr stk k :
  Forall (fun l => indent_of l = k /\ is_Some (listItemMatch ord l)) ls ->
  list_scan ord (ls ++ post) i
    {| store := base ++ [arr]; listStack := stk ++ [length base];
       currentIndent := k |}
  = list_scan ord post (i + length ls)
      {| store :=
           base ++ [arr ++ map (fun l =>
                                  {| li_raw := l;
                                     li_text := item_content ord l;
                                     li_ordered := ord;
                                     li_children :=
                                       parseInline (item_content ord l);
                                     li_items := None |}) ls];
         listStack := stk ++ [length base];
         currentIndent := k |}.
Proof.
  intros Hls. revert i arr.
  induction Hls as [|l ls [Hk [[marker content] Hm]] _ IH]; intros i arr.
  { cbn [app map length]. by rewrite app_nil_r, Nat.add_0_r. }
  cbn [app list_scan]. rewrite Hm. unfold item_step, adjust_levels.
  cbn [currentIndent]. rewrite Hk, Z.ltb_irrefl. unfold push_item, top.
  cbn [store listStack currentIndent]. rewrite last_snoc. cbn [default id].
  rewrite alter_snoc, IH. cbn [map length].
  unfold item_content at 3 4. rewrite Hm.
  rewrite <- app_assoc. cbn [app]. by rewrite Nat.add_succ_r.
Qed.

Lemma list_items_flat ord (ls : list jsstring) :
  list_items 1
    [map (fun l =>
            {| li_raw := l; li_text := item_content ord l;
               li_ordered := ord;
               li_children := parseInline (item_content ord l);
               li_items := None |}) ls] 0
  = map (list_item_of ord) ls.
Proof.
  cbn [list_items lookup list_lookup default id]. rewrite map_map.
  by apply map_ext.
Qed.

Lemma slice_lines_middle (pre ls post : list jsstring) :
  slice_lines (pre ++ ls ++ post) (length pre) (length pre + length ls) = ls.
Proof.
  unfold slice_lines. rewrite drop_app_length.
  replace (length pre + length ls - length pre) with (length ls) by lia.
  by rewrite take_app_length.
Qed.

(** X20. A run of item lines without indentation, up to a line that is
    neither an item nor a continuation or to the end of the document, is
    one list token whose items are the [list_item] tokens of the lines, in
    their order, each with the content of its line as text and the inline
    tokens of that content as children; the index handed back is that of
    the last item line. *)
Theorem parseList_flat
  (pre post : list jsstring) (first : jsstring) (rest : list jsstring) :
  let isOrderedList := Regex.test Pattern.ordered_marker (trim first) in
  Forall (fun l => indent_of l = 0%Z
                   /\ is_Some (listItemMatch isOrderedList l))
    (first :: rest) ->
  list_ends isOrderedList 0 post = true ->
  parseList (pre ++ (first :: rest) ++ post) (length pre)
  = Ok ({| type := TokenType.list; raw := join_lines (first :: rest);
           text := None; depth := None;
           items := Some (map (list_item_of isOrderedList) (first :: rest));
           lang := None; url := None; children := None;
           ordered := Some isOrderedList |},
        Z.of_nat (length pre + length rest)).
Proof.
  intros ord Hls Hpost. unfold parseList.
  rewrite lookup_app_r, Nat.sub_diag by lia. cbn [app lookup list_lookup].
  fold ord. rewrite drop_app_length.
  pose proof (list_scan_same_indent ord (first :: rest) post (length pre)
                [] [] [] 0%Z Hls) as Hscan.
  cbn [app length] in Hscan. unfold ListScan_init. rewrite Hscan.
  rewrite list_scan_ends by done. cbn [store length].
  rewrite list_items_flat.
  pose proof (slice_lines_middle pre (first :: rest) post) as Hslice.
  cbn [length] in Hslice. cbn [app] in Hslice |- *. rewrite Hslice.
  unfold set_items, set_ordered, token. cbn [type raw text depth items lang
    url children ordered]. do 2 f_equal. lia.
Qed.

Lemma parseList_flat_witness :
  parseList [str "text"; str "1. one"; str "2. *two*"; str "- three"] 1
  = Ok (set_items [list_item_of true (str "1. one");
                   list_item_of true (str "2. *two*")]
          (set_ordered true
             (token TokenType.list (str "1. one
2. *two*"))), 2%Z).
Proof.
  refine (parseList_flat [str "text"] [str "- three"] (str "1. one")
            [str "2. *two*"] _ _).
  - repeat (apply Forall_cons_2; [split; [reflexivity | vm_compute; eauto] |]).
    apply Forall_nil_2.
  - reflexivity.
Defined.

(** X21. When the first item line of a list is indented, the level that
    is opened for it is attached to no item, the root level being empty:
    the items of that line and of the item lines that follow at the same
    indentation are lost.  The list token has no items, though its raw
    holds the lines and the index handed back is behind them. *)
Theorem parseList_indented_items_are_lost
  (pre post : list jsstring) (first : jsstring) (rest : list jsstring)
  (k : Z) :
  let isOrderedList := Regex.test Pattern.ordered_marker (trim first) in
  (0 < k)%Z ->
  Forall (fun l => indent_of l = k /\ is_Some (listItemMatch isOrderedList l))
    (first :: rest) ->
  list_ends isOrderedList k post = true ->
  parseList (pre ++ (first :: rest) ++ post) (length pre)
  = Ok ({| type := TokenType.list; raw := join_lines (first :: rest);
           text := None; depth := None; items := Some [];
           lang := None; url := None; children := None;
           ordered := Some isOrderedList |},
        Z.of_nat (length pre + length rest)).
Proof.
  intros ord Hk Hls Hpost. unfold parseList.
  rewrite lookup_app_r, Nat.sub_diag by lia. cbn [app lookup list_lookup].
  fold ord. rewrite drop_app_length.
  inversion Hls as [|? ? [Hfirst [[marker content] Hm]] Hrest]; subst.
  cbn [list_scan]. rewrite Hm.
  assert (item_step ord first content ListScan_init
          = {| store := [[]] ++ [[ {| li_raw := first; li_text := content;
                                      li_ordered := ord;
                                      li_children := parseInline content;
                                      li_items := None |} ]];
               listStack := [0] ++ [length [[] : list ListItem]];
               currentIndent := indent_of first |}) as ->.
  { unfold item_step, adjust_levels, ListScan_init. cbn [currentIndent].
    by replace (0 <? indent_of first)%Z with true
      by (symmetry; apply Z.ltb_lt; lia). }
  rewrite (list_scan_same_indent ord rest post (S (length pre))) by done.
  rewrite list_scan_ends by done. cbn [store length app].
  pose proof (slice_lines_middle pre (first :: rest) post) as Hslice.
  cbn [length app] in Hslice.
  replace (S (length pre) + length rest)
    with (length pre + S (length rest)) by lia.
  rewrite Hslice.
  unfold set_items, set_ordered, token. cbn. do 2 f_equal. lia.
Qed.

Lemma parseList_indented_items_are_lost_witness :
  parseList [str "text"; str "  - a"; str "  - b"] 1
  = Ok (set_items []
          (set_ordered false
             (token TokenType.list (str "  - a
  - b"))), 2%Z).
Proof.
  refine (parseList_indented_items_are_lost [str "text"] [] (str "  - a")
            [str "  - b"] 2 _ _ _).
  - lia.
  - repeat (apply Forall_cons_2; [split; [reflexivity | vm_compute; eauto] |]).
    apply Forall_nil_2.
  - reflexivity.
Defined.

(** ** Code that is not escaped *)

(** X22. The code of a closed fenced block whose language tag is not in
    the registry (the empty tag of a bare fence is none of the constructor's)
    goes into the page as it is, between the [code] tags of the template:
    neither the code nor the tag in the [class] attribute is escaped. *)
Theorem fenced_code_is_not_escaped `{Host}
  (options : ParserOptions) (languages : SyntaxHighlighter.Languages)
  (stack : nat) (pre body post : list jsstring) (opening closing : jsstring) :
  Forall (fun l => starts_with fence l = false) body ->
  starts_with fence closing = true ->
  languages !! trim (slice_from opening 3) = None ->
  ('(t, _) ← parseCodeBlock (pre ++ opening :: body ++ closing :: post)
               (length pre);
   tokensToHtml options languages (S stack) [t])
  = Ok (Html.code_block_html (trim (slice_from opening 3))
          (join_lines body)).
Proof.
  intros Hbody Hclose Hlang.
  rewrite parseCodeBlock_at_closed_fence by done.
  cbn [mbind outcome_bind tokensToHtml map_outcome render_token type lang
       text or_empty default id].
  unfold SyntaxHighlighter.highlight. by rewrite Hlang.
Qed.

Lemma fenced_code_is_not_escaped_witness :
  ('(t, _) ← parseCodeBlock
               [str "```"; str "<script>alert(1)</script>"; str "```"] 0;
   tokensToHtml default_options SyntaxHighlighter.new 1 [t])
  = Ok (Html.code_block_html [] (str "<script>alert(1)</script>")).
Proof.
  refine (fenced_code_is_not_escaped default_options SyntaxHighlighter.new 0
            [] [str "<script>alert(1)</script>"] [] (str "```") (str "```")
            _ _ _).
  - by repeat constructor.
  - reflexivity.
  - by vm_compute.
Defined.

(** ** White space around the document *)

Lemma trimStart_spaces w : forallb isSpace w = true -> trimStart w = [].
Proof.
  induction w as [|c w IH]; [done|]. cbn [forallb trimStart].
  by intros [-> Hw]%andb_prop; apply IH.
Qed.

Lemma trimStart_app_spaces w s :
  forallb isSpace w = true -> trimStart (w ++ s) = trimStart s.
Proof.
  induction w as [|c w IH]; [done|]. cbn [forallb app trimStart].
  by intros [-> Hw]%andb_prop; apply IH.
Qed.

Lemma trimStart_app s w :
  trimStart (s ++ w)
  = match trimStart s with
    | [] => trimStart w
    | _ :: _ => trimStart s ++ w
    end.
Proof.
  induction s as [|c s IH]; [done|]. cbn [app trimStart].
  by destruct (isSpace c).
Qed.

Lemma forallb_rev {A} (f : A -> bool) l :
  forallb f l = true -> forallb f (rev l) = true.
Proof.
  rewrite !forallb_forall. intros Hl x Hx. by apply Hl, in_rev.
Qed.

Lemma trimEnd_app_spaces s w :
  forallb isSpace w = true -> trimEnd (s ++ w) = trimEnd s.
Proof.
  intros Hw. unfold trimEnd. rewrite rev_app_distr.
  by rewrite trimStart_app_spaces by (by apply forallb_rev).
Qed.

Lemma trim_surrounded w1 s w2 :
  forallb isSpace w1 = true -> forallb isSpace w2 = true ->
  trim (w1 ++ s ++ w2) = trim s.
Proof.
  intros H1 H2. unfold trim. rewrite trimStart_app_spaces by done.
  rewrite trimStart_app. destruct (trimStart s) as [|c t] eqn:Hs.
  - by rewrite trimStart_spaces.
  - by rewrite trimEnd_app_spaces.
Qed.

(** X23. White space before and after a document, blank lines included,
    does not change its tokens, nor the page that is made of them. *)
Theorem tokenize_ignores_surrounding_space `{Host}
  (options : ParserOptions) (languages : SyntaxHighlighter.Languages)
  (stack fuel : nat) (w1 markdown w2 : jsstring) :
  forallb isSpace w1 = true -> forallb isSpace w2 = true ->
  tokenize stack fuel (w1 ++ markdown ++ w2) = tokenize stack fuel markdown
  /\ pipeline options languages stack fuel (w1 ++ markdown ++ w2)
     = pipeline options languages stack fuel markdown.
Proof.
  intros H1 H2.
  assert (tokenize stack fuel (w1 ++ markdown ++ w2)
          = tokenize stack fuel markdown) as Htk.
  { destruct stack as [|stack]; [done|]. cbn [tokenize].
    by rewrite trim_surrounded. }
  split; [done|]. unfold pipeline. by rewrite Htk.
Qed.

Lemma tokenize_ignores_surrounding_space_witness :
  tokenize 1 3 (str "

  # a
b
 ") = tokenize 1 3 (str "# a
b").
Proof.
  apply (tokenize_ignores_surrounding_space default_options
           SyntaxHighlighter.new 1 3 (str "

  ") (str "# a
b") (str "
 ")); reflexivity.
Defined.

(** ** The inline tokenizer, construct by construct *)

Lemma at_shift a s i : at_ (a ++ s) (length a + i) = at_ s i.
Proof.
  unfold at_, jsstring. rewrite lookup_app_r by lia. f_equal. lia.
Qed.

Lemma at_is_shift a s i x : at_is (a ++ s) (length a + i) x = at_is s i x.
Proof. unfold at_is. by rewrite at_shift. Qed.

Lemma index_from_shift p s n k :
  index_from p s (n + k)
  = match index_from p s k with Some e => Some (n + e) | None => None end.
Proof.
  revert k. induction s as [|c s IH]; intros k; [done|]. cbn [index_from].
  destruct (starts_with p (c :: s)); [done|].
  by rewrite <- Nat.add_succ_r, IH.
Qed.

Lemma indexOf_shift a s p k :
  indexOf (a ++ s) p (length a + k)
  = match indexOf s p k with Some e => Some (length a + e) | None => None end.
Proof. unfold indexOf. by rewrite drop_app_add, index_from_shift. Qed.

Lemma slice_shift a s x y :
  slice (a ++ s) (length a + x) (length a + y) = slice s x y.
Proof.
  unfold slice. rewrite drop_app_add. f_equal. lia.
Qed.

Lemma inline_construct_shift a s i :
  inline_construct (a ++ s) (length a + i)
  = match inline_construct s i with
    | Some (t, j) => Some (t, length a + j)
    | None => None
    end.
Proof.
  assert (inline_bold (a ++ s) (length a + i)
          = match inline_bold s i with
            | Some (t, j) => Some (t, length a + j)
            | None => None
            end) as Hbold.
  { unfold inline_bold, startsWith, substr. rewrite !drop_app_add.
    destruct (_ || _); [|done].
    rewrite <- Nat.add_assoc, indexOf_shift.
    destruct (indexOf s _ (i + 2)) as [e|]; [|done].
    rewrite <- !Nat.add_assoc, !slice_shift. done. }
  assert (inline_italic (a ++ s) (length a + i)
          = match inline_italic s i with
            | Some (t, j) => Some (t, length a + j)
            | None => None
            end) as Hitalic.
  { unfold inline_italic. rewrite at_shift.
    destruct (at_ s i) as [c|]; [|done]. destruct (_ || _); [|done].
    rewrite <- Nat.add_assoc, indexOf_shift.
    destruct (indexOf s _ (i + 1)) as [e|]; [|done].
    rewrite <- !Nat.add_assoc, !slice_shift. done. }
  assert (inline_code (a ++ s) (length a + i)
          = match inline_code s i with
            | Some (t, j) => Some (t, length a + j)
            | None => None
            end) as Hcode.
  { unfold inline_code. rewrite at_is_shift.
    destruct (at_is s i _); [|done].
    rewrite <- Nat.add_assoc, indexOf_shift.
    destruct (indexOf s _ (i + 1)) as [e|]; [|done].
    rewrite <- !Nat.add_assoc, !slice_shift. done. }
  assert (inline_link (a ++ s) (length a + i)
          = match inline_link s i with
            | Some (t, j) => Some (t, length a + j)
            | None => None
            end) as Hlink.
  { unfold inline_link. rewrite at_is_shift.
    destruct (at_is s i _); [|done]. rewrite indexOf_shift.
    destruct (indexOf s _ i) as [titleEnd|]; [|done].
    rewrite <- !Nat.add_assoc, at_is_shift.
    destruct (at_is s _ _); [|done]. rewrite indexOf_shift.
    destruct (indexOf s _ (titleEnd + 2)) as [urlEnd|]; [|done].
    rewrite <- !Nat.add_assoc, !slice_shift. done. }
  unfold inline_construct. rewrite Hbold, Hitalic, Hcode, Hlink.
  destruct (inline_bold s i) as [[? ?]|]; [done|].
  destruct (inline_italic s i) as [[? ?]|]; [done|].
  by destruct (inline_code s i) as [[? ?]|].
Qed.

Lemma parseInline_loop_shift fuel a s i current tokens :
  parseInline_loop fuel (a ++ s) (length a + i) current tokens
  = parseInline_loop fuel s i current tokens.
Proof.
  revert i current tokens.
  induction fuel as [|fuel IH]; intros i current tokens; [done|].
  cbn [parseInline_loop]. rewrite at_shift, inline_construct_shift.
  destruct (at_ s i) as [c|]; [|done].
  destruct (inline_construct s i) as [[t j]|]; [apply IH|].
  rewrite <- Nat.add_succ_r. apply IH.
Qed.

Lemma parseInline_loop_fuel fuel1 fuel2 txt i current tokens :
  length txt - i < fuel1 -> length txt - i < fuel2 ->
  parseInline_loop fuel1 txt i current tokens
  = parseInline_loop fuel2 txt i current tokens.
Proof.
  revert fuel2 i current tokens.
  induction fuel1 as [|fuel1 IH]; intros fuel2 i current tokens H1 H2; [lia|].
  destruct fuel2 as [|fuel2]; [lia|]. cbn [parseInline_loop].
  destruct (at_ txt i) as [c|] eqn:Hc; [|done].
  apply at_Some_lt in Hc.
  destruct (inline_construct txt i) as [[t j]|] eqn:Hk.
  - apply inline_construct_span in Hk as [_ Hj]. apply IH; lia.
  - apply IH; lia.
Qed.

Lemma parseInline_loop_tokens fuel txt i current pfx tokens :
  parseInline_loop fuel txt i current (pfx ++ tokens)
  = match parseInline_loop fuel txt i current tokens with
    | Some ts => Some (pfx ++ ts)
    | None => None
    end.
Proof.
  revert i current tokens.
  induction fuel as [|fuel IH]; intros i current tokens; [done|].
  cbn [parseInline_loop]. destruct (at_ txt i) as [c|].
  - destruct (inline_construct txt i) as [[t j]|]; [|apply IH].
    rewrite <- app_assoc. apply IH.
  - by rewrite <- app_assoc.
Qed.

Lemma parseInline_loop_parseInline fuel s :
  length s < fuel -> parseInline_loop fuel s 0 [] [] = Some (parseInline s).
Proof.
  intros Hfuel. unfold parseInline.
  rewrite (parseInline_loop_fuel fuel (S (length s))) by lia.
  destruct (parseInline_loop_returns (S (length s)) s 0 [] [])
    as (ts & -> & _); [lia | done | lia | done].
Qed.

Lemma parseInline_loop_plain_prefix fuel (pre s : jsstring) i current tokens :
  Forall (fun c => isInlineMarker c = false) pre ->
  i <= length pre -> length pre - i < fuel ->
  parseInline_loop fuel (pre ++ s) i current tokens
  = parseInline_loop (fuel - (length pre - i)) (pre ++ s) (length pre)
      (current ++ drop i pre) tokens.
Proof.
  intros Hplain. revert i current.
  induction fuel as [|fuel IH]; intros i current Hi Hfuel; [lia|].
  destruct (decide (i = length pre)) as [->|Hne].
  { by rewrite Nat.sub_diag, Nat.sub_0_r, drop_all, app_nil_r. }
  assert (exists c, pre !! i = Some c) as [c Hc]
    by (apply lookup_lt_is_Some; lia).
  cbn [parseInline_loop].
  assert (at_ (pre ++ s) i = Some c) as Hat.
  { unfold at_, jsstring. rewrite lookup_app_l by lia. done. }
  rewrite Hat, (inline_construct_no_marker _ i c Hat).
  2:{ rewrite Forall_forall in Hplain. apply Hplain.
      by apply list_elem_of_lookup_2 in Hc. }
  rewrite IH by lia. rewrite (drop_lookup_cons _ _ _ Hc), <- app_assoc.
  f_equal. lia.
Qed.

Lemma parseInline_construct_rest (pre s : jsstring) t j :
  Forall (fun c => isInlineMarker c = false) pre ->
  inline_construct s 0 = Some (t, j) ->
  parseInline (pre ++ s) = flush pre ++ t :: parseInline (drop j s).
Proof.
  intros Hplain Hk.
  pose proof (inline_construct_span _ _ _ _ Hk) as [_ Hj].
  unfold parseInline at 1.
  rewrite (parseInline_loop_plain_prefix _ pre s 0 [] [] Hplain)
    by (rewrite ?length_app; lia).
  rewrite app_nil_l, drop_0, Nat.sub_0_r, length_app.
  replace (S (length pre + length s) - length pre) with (S (length s)) by lia.
  rewrite <- (Nat.add_0_r (length pre)) at 1.
  rewrite parseInline_loop_shift. cbn [parseInline_loop].
  destruct (at_ s 0) as [c|] eqn:Hc.
  2:{ apply at_None_ge in Hc. lia. }
  rewrite Hk, app_nil_l.
  rewrite <- (app_nil_r (flush pre ++ [t])), parseInline_loop_tokens.
  assert (parseInline_loop (length s) s j [] []
          = Some (parseInline (drop j s))) as ->.
  { assert (length (take j s) = j) as Hlen by (rewrite length_take; lia).
    pose proof (parseInline_loop_shift (length s) (take j s) (drop j s)
                  0 [] []) as Hs.
    rewrite take_drop, Hlen, Nat.add_0_r in Hs. rewrite Hs.
    apply parseInline_loop_parseInline. rewrite length_drop. lia. }
  cbn [default id]. by rewrite <- app_assoc.
Qed.

(** X24. The inline tokenizer works from left to right and forgets what
    it has passed: where a construct is recognised at the start of [s],
    the tokens of [s] behind plain text are the text, as one token, the
    token of the construct, and the tokens of what follows the construct,
    as they would be on their own. *)
Theorem parseInline_construct_then_rest
  (pre s : jsstring) (t : Token) (j : nat) :
  Forall (fun c => isInlineMarker c = false) pre ->
  inline_construct s 0 = Some (t, j) ->
  parseInline (pre ++ s) = flush pre ++ t :: parseInline (drop j s).
Proof. apply parseInline_construct_rest. Qed.

Lemma parseInline_construct_then_rest_witness :
  parseInline (str "see " ++ str "`a*b` and *c*")
  = flush (str "see ")
      ++ set_text (str "a*b") (token TokenType.code (str "`a*b`"))
      :: parseInline (drop 5 (str "`a*b` and *c*")).
Proof.
  apply (parseInline_construct_then_rest (str "see ") (str "`a*b` and *c*")).
  - repeat constructor.
  - reflexivity.
Defined.

Lemma index_from_skip (c : N) (p body tail : jsstring) k :
  c ∉ body -> starts_with (c :: p) tail = true ->
  index_from (c :: p) (body ++ tail) k = Some (k + length body).
Proof.
  intros Hbody Htail. revert k.
  induction body as [|b body IH]; intros k.
  { cbn [app length]. destruct tail as [|x tail]; [done|].
    cbn [index_from]. by rewrite Htail, Nat.add_0_r. }
  apply not_elem_of_cons in Hbody as [Hb Hbody].
  cbn [app index_from length]. rewrite starts_with_cons_ne by done.
  rewrite IH by done. f_equal. lia.
Qed.

Lemma indexOf_found (c : N) (p a body r : jsstring) from :
  from = length a -> c ∉ body ->
  indexOf (a ++ body ++ (c :: p) ++ r) (c :: p) from
  = Some (from + length body).
Proof.
  intros -> Hbody. unfold indexOf. rewrite drop_app_length.
  apply index_from_skip; [done|]. cbn [app starts_with].
  rewrite N.eqb_refl. cbn [andb]. clear. by induction p; cbn;
    [|rewrite N.eqb_refl].
Qed.

Lemma slice_middle (a b c : jsstring) x y :
  x = length a -> y = length a + length b -> slice (a ++ b ++ c) x y = b.
Proof.
  intros -> ->. unfold slice. rewrite drop_app_length.
  replace (length a + length b - length a) with (length b) by lia.
  by rewrite take_app_length.
Qed.

Lemma slice_prefix (b c : jsstring) y :
  y = length b -> slice (b ++ c) 0 y = b.
Proof. intros ->. apply (slice_middle [] b c); done. Qed.

Lemma inline_bold_delimited m body rest :
  m = ch "*" \/ m = ch "_" -> m ∉ body ->
  inline_bold ([m; m] ++ body ++ [m; m] ++ rest) 0
  = Some ({| type := TokenType.bold; raw := [m; m] ++ body ++ [m; m];
             text := Some body; depth := None; items := None; lang := None;
             url := None; children := None; ordered := None |},
          length body + 4).
Proof.
  intros Hm Hbody. unfold inline_bold, startsWith, substr. rewrite drop_0.
  assert (starts_with (str "**") ([m; m] ++ body ++ [m; m] ++ rest)
          || starts_with (str "__") ([m; m] ++ body ++ [m; m] ++ rest)
          = true) as -> by (by destruct Hm as [-> | ->]).
  change (take 2 ([m; m] ++ body ++ [m; m] ++ rest)) with [m; m].
  rewrite (indexOf_found m [m] [m; m] body rest) by done.
  rewrite (slice_middle [m; m] body) by done.
  replace ([m; m] ++ body ++ [m; m] ++ rest)
    with (([m; m] ++ body ++ [m; m]) ++ rest)
    by (by rewrite <- !app_assoc).
  rewrite slice_prefix by (rewrite !length_app; cbn; lia).
  unfold set_text, token. cbn [type raw text depth items lang url children
    ordered]. do 2 f_equal. cbn. lia.
Qed.

Lemma inline_italic_delimited m b body rest :
  m = ch "*" \/ m = ch "_" -> m ∉ b :: body ->
  inline_construct ([m] ++ (b :: body) ++ [m] ++ rest) 0
  = Some ({| type := TokenType.italic; raw := [m] ++ (b :: body) ++ [m];
             text := Some (b :: body); depth := None; items := None;
             lang := None; url := None; children := None; ordered := None |},
          length (b :: body) + 2).
Proof.
  intros Hm Hbody.
  assert (m ≠ b) as Hb by (by apply not_elem_of_cons in Hbody as [? _]).
  unfold inline_construct.
  assert (inline_bold ([m] ++ (b :: body) ++ [m] ++ rest) 0 = None) as ->.
  { assert (forall x tl, starts_with [x; x] (m :: b :: tl) = false) as Hxx.
    { intros x tl. cbn [starts_with].
      destruct (N.eqb_spec x m) as [->|]; [|done].
      by rewrite (proj2 (N.eqb_neq m b)). }
    unfold inline_bold, startsWith. rewrite drop_0. cbn [app].
    change (str "**") with [ch "*"; ch "*"].
    change (str "__") with [ch "_"; ch "_"]. by rewrite !Hxx. }
  unfold inline_italic. change (at_ _ 0) with (Some m). cbv beta iota.
  assert (is_ch "*" m || is_ch "_" m = true) as ->
    by (by destruct Hm as [-> | ->]).
  rewrite (indexOf_found m [] [m] (b :: body) rest) by done.
  rewrite (slice_middle [m] (b :: body)) by done.
  replace ([m] ++ (b :: body) ++ [m] ++ rest)
    with (([m] ++ (b :: body) ++ [m]) ++ rest)
    by (by rewrite <- !app_assoc).
  rewrite slice_prefix by (rewrite !length_app; cbn; lia).
  unfold set_text, token. cbn [type raw text depth items lang url children
    ordered]. do 2 f_equal. cbn. lia.
Qed.

Lemma inline_code_delimited body rest :
  ch "`" ∉ body ->
  inline_construct (str "`" ++ body ++ str "`" ++ rest) 0
  = Some ({| type := TokenType.code; raw := str "`" ++ body ++ str "`";
             text := Some body; depth := None; items := None; lang := None;
             url := None; children := None; ordered := None |},
          length body + 2).
Proof.
  intros Hbody. unfold inline_construct.
  assert (inline_bold (str "`" ++ body ++ str "`" ++ rest) 0 = None) as ->
    by done.
  assert (inline_italic (str "`" ++ body ++ str "`" ++ rest) 0 = None) as ->
    by done.
  unfold inline_code. change (at_is _ 0 "`") with true. cbv iota.
  rewrite (indexOf_found (ch "`") [] (str "`") body rest) by done.
  rewrite (slice_middle (str "`") body) by done.
  replace (str "`" ++ body ++ str "`" ++ rest)
    with ((str "`" ++ body ++ str "`") ++ rest)
    by (by rewrite <- !app_assoc).
  rewrite slice_prefix by (rewrite !length_app; cbn; lia).
  unfold set_text, token. cbn [type raw text depth items lang url children
    ordered]. do 2 f_equal. cbn. lia.
Qed.

Lemma inline_link_delimited title u rest :
  ch "]" ∉ title -> ch ")" ∉ u ->
  inline_construct (str "[" ++ title ++ str "](" ++ u ++ str ")" ++ rest) 0
  = Some ({| type := TokenType.link;
             raw := str "[" ++ title ++ str "](" ++ u ++ str ")";
             text := Some title; depth := None; items := None; lang := None;
             url := Some u; children := None; ordered := None |},
          length title + length u + 4).
Proof.
  intros Htitle Hu. unfold inline_construct.
  set (s := str "[" ++ title ++ str "](" ++ u ++ str ")" ++ rest).
  assert (inline_bold s 0 = None) as -> by done.
  assert (inline_italic s 0 = None) as -> by done.
  assert (inline_code s 0 = None) as -> by done.
  unfold inline_link. change (at_is s 0 "[") with true. cbv iota.
  assert (indexOf s (str "]") 0 = Some (S (length title))) as ->.
  { unfold indexOf. rewrite drop_0. unfold s. cbn [app str map
      list_ascii_of_string index_from starts_with].
    change (N.eqb (ch "]") (ch "[")) with false. cbn [andb].
    change (ch "]" :: ch "(" :: u ++ str ")" ++ rest)
      with (str "](" ++ u ++ str ")" ++ rest).
    rewrite (index_from_skip (ch "]") [] title) by done. done. }
  assert (drop (S (length title)) s = str "](" ++ u ++ str ")" ++ rest)
    as Hdrop.
  { unfold s. change (str "[" ++ title ++ ?x) with (ch "[" :: title ++ x).
    cbn [drop]. apply drop_app_length. }
  assert (at_is s (S (length title) + 1) "(" = true) as ->.
  { pose proof (lookup_drop s (S (length title)) 1) as Hl.
    rewrite Hdrop in Hl. unfold at_is, at_.
    replace (s !! (S (length title) + 1)) with (Some (ch "("))
      by (transitivity ((str "](" ++ u ++ str ")" ++ rest) !! 1);
          [done | exact Hl]).
    done. }
  cbv iota.
  assert (s = (str "[" ++ title ++ str "](") ++ u ++ str ")" ++ rest) as Hs.
  { unfold s. by rewrite <- !app_assoc. }
  assert (length (str "[" ++ title ++ str "](") = S (length title) + 2)
    as Hlen by (rewrite !length_app; cbn; lia).
  rewrite Hs at 1.
  rewrite (indexOf_found (ch ")") [] _ u rest) by done.
  rewrite Hs at 1. rewrite (slice_middle _ u) by (by rewrite ?Hlen).
  assert (slice s (0 + 1) (S (length title)) = title) as ->.
  { unfold s. apply (slice_middle (str "[") title); [done | cbn; lia]. }
  assert (slice s 0 (S (length title) + 2 + length u + 1)
          = str "[" ++ title ++ str "](" ++ u ++ str ")") as ->.
  { replace s
      with ((str "[" ++ title ++ str "](" ++ u ++ str ")") ++ rest)
      by (unfold s; by rewrite <- !app_assoc).
    apply slice_prefix. rewrite !length_app. cbn. lia. }
  unfold set_url, set_text, token. cbn [type raw text depth items lang url
    children ordered]. do 2 f_equal. lia.
Qed.

(** X25. What the four constructs are.  A doubled asterisk or underscore,
    a body without that marker and the doubled marker again is [bold]; one
    marker, a body without it that is not empty and the marker again is
    [italic]; a backtick, a body without backtick and a backtick is
    [code]; a title without closing bracket in brackets and, right behind,
    a URL without closing parenthesis in parentheses is a [link].  The text
    of the token is the body, as it stands, and the scan goes on behind
    the construct. *)
Theorem inline_constructs_recognised (rest : jsstring) :
  (forall m body,
      m = ch "*" \/ m = ch "_" -> m ∉ body ->
      inline_construct ([m; m] ++ body ++ [m; m] ++ rest) 0
      = Some (set_text body
                (token TokenType.bold ([m; m] ++ body ++ [m; m])),
              length body + 4))
  /\ (forall m body,
        m = ch "*" \/ m = ch "_" -> m ∉ body -> body ≠ [] ->
        inline_construct ([m] ++ body ++ [m] ++ rest) 0
        = Some (set_text body
                  (token TokenType.italic ([m] ++ body ++ [m])),
                length body + 2))
  /\ (forall body,
        ch "`" ∉ body ->
        inline_construct (str "`" ++ body ++ str "`" ++ rest) 0
        = Some (set_text body
                  (token TokenType.code (str "`" ++ body ++ str "`")),
                length body + 2))
  /\ (forall title u,
        ch "]" ∉ title -> ch ")" ∉ u ->
        inline_construct
          (str "[" ++ title ++ str "](" ++ u ++ str ")" ++ rest) 0
        = Some (set_url u
                  (set_text title
                     (token TokenType.link
                        (str "[" ++ title ++ str "](" ++ u ++ str ")"))),
                length title + length u + 4)).
Proof.
  split; [|split; [|split]].
  - intros m body Hm Hbody. apply inline_construct_bold.
    by apply inline_bold_delimited.
  - intros m [|b body] Hm Hbody Hne; [done|].
    by apply inline_italic_delimited.
  - intros body Hbody. by apply inline_code_delimited.
  - intros title u Htitle Hu. by apply inline_link_delimited.
Qed.

Lemma inline_constructs_recognised_witness :
  inline_construct (str "**a_b** c") 0
  = Some (set_text (str "a_b") (token TokenType.bold (str "**a_b**")), 7)
  /\ inline_construct (str "_a*b_ c") 0
     = Some (set_text (str "a*b") (token TokenType.italic (str "_a*b_")), 5)
  /\ inline_construct (str "`a*b` c") 0
     = Some (set_text (str "a*b") (token TokenType.code (str "`a*b`")), 5)
  /\ inline_construct (str "[a*b](u_v) c") 0
     = Some (set_url (str "u_v")
               (set_text (str "a*b")
                  (token TokenType.link (str "[a*b](u_v)"))), 10).
Proof.
  destruct (inline_constructs_recognised (str " c")) as (Hb & Hi & Hc & Hl).
  split; [|split; [|split]].
  - apply (Hb (ch "*") (str "a_b")); [by left|].
    apply (bool_decide_unpack _). by vm_compute.
  - apply (Hi (ch "_") (str "a*b")); [by right | | done].
    apply (bool_decide_unpack _). by vm_compute.
  - apply (Hc (str "a*b")). apply (bool_decide_unpack _). by vm_compute.
  - apply (Hl (str "a*b") (str "u_v")); apply (bool_decide_unpack _);
      by vm_compute.
Defined.

(** ** Item lines *)

Lemma space_then_rest_inv rest t :
  space_then_rest rest = Some t ->
  exists ws, rest = ws ++ t /\ ws ≠ [] /\ forallb isSpace ws = true
             /\ t ≠ [] /\ forallb isDot t = true.
Proof.
  unfold space_then_rest. destruct (span isSpace rest) as [w r] eqn:Hspan.
  apply span_spec in Hspan as [-> Hw].
  destruct w as [|c0 w]; [done|]. destruct r as [|c r].
  - destruct (last (c0 :: w)) as [c|] eqn:Hlast; [|done].
    destruct (isDot c) eqn:Hc; [|done].
    destruct (2 <=? length (c0 :: w)) eqn:Hlen; [|done].
    intros [= <-]. apply Nat.leb_le in Hlen.
    apply last_Some in Hlast as [w' Hw']. rewrite Hw' in Hw, Hlen |- *.
    rewrite forallb_app in Hw. apply andb_prop in Hw as [Hw1 _].
    rewrite length_app in Hlen. cbn in Hlen.
    exists w'. rewrite app_nil_r. repeat split; try done.
    + intros ->. cbn in Hlen. lia.
    + cbn. by rewrite Hc.
  - destruct (forallb isDot (c :: r)) eqn:Hdot; [|done].
    intros [= <-]. by exists (c0 :: w).
Qed.

Lemma exec_unordered_item t :
  Regex.exec Pattern.unordered_item t
  = match t with
    | b :: rest =>
        if Pattern.isBullet b
        then (fun c => [(2, c); (1, [b])]) <$> space_then_rest rest
        else None
    | [] => None
    end.
Proof.
  unfold Regex.exec, Pattern.unordered_item.
  change (Regex.run (Regex.Cat (Regex.Grp 1 (Regex.One Pattern.isBullet)) ?r)
            ?s ?c ?k)
    with (Regex.run_rep Pattern.isBullet 1 (Some 1) s
            (fun s1 => Regex.run r s1
                         ((1, take (length s - length s1) s) :: c) k)).
  rewrite run_one. destruct t as [|b rest]; [done|].
  destruct (Pattern.isBullet b); [|done]. rewrite run_item_tail.
  cbn [length]. replace (S (length rest) - length rest) with 1 by lia. done.
Qed.

Lemma exec_ordered_item t :
  Regex.exec Pattern.ordered_item t
  = match span isDigit t with
    | ((_ :: _) as d, p :: rest) =>
        if is_ch "." p
        then (fun c => [(2, c); (1, d ++ [p])]) <$> space_then_rest rest
        else None
    | _ => None
    end.
Proof.
  unfold Regex.exec, Pattern.ordered_item.
  change (Regex.run
            (Regex.Cat
               (Regex.Grp 1 (Regex.Cat (Regex.Plus isDigit)
                               (Regex.One (is_ch "."))))
               ?r2) ?s ?c ?k)
    with (Regex.run_rep isDigit 1 None s
            (fun s1 =>
               Regex.run (Regex.One (is_ch ".")) s1 c
                 (fun s2 c2 =>
                    Regex.run r2 s2
                      ((1, take (length s - length s2) s) :: c2) k))).
  rewrite run_rep_commit.
  2:{ intros x' s'' Hx. rewrite run_one_run.
      by rewrite (isDigit_not_dot x' Hx). }
  destruct (span isDigit t) as [d r] eqn:Hspan. cbn [fst snd].
  apply span_spec in Hspan as [-> _].
  destruct d as [|d0 d]; [done|]. cbn [length Nat.leb].
  rewrite run_one_run. destruct r as [|p rest]; [done|].
  destruct (is_ch "." p); [|done]. rewrite run_item_tail.
  replace (take _ _) with ((d0 :: d) ++ [p]); [done|].
  replace ((d0 :: d) ++ p :: rest) with (((d0 :: d) ++ [p]) ++ rest)
    by (by rewrite <- app_assoc).
  rewrite length_app.
  replace (length ((d0 :: d) ++ [p]) + length rest - length rest)
    with (length ((d0 :: d) ++ [p])) by lia.
  by rewrite take_app_length.
Qed.

Lemma listItemMatch_inv ord line marker content :
  listItemMatch ord line = Some (marker, content) ->
  exists ws,
    trim line = marker ++ ws ++ content
    /\ ws ≠ [] /\ forallb isSpace ws = true
    /\ content ≠ [] /\ forallb isDot content = true
    /\ if ord
       then exists d, marker = d ++ str "." /\ d ≠ []
                      /\ forallb isDigit d = true
       else exists b, marker = [b] /\ Pattern.isBullet b = true.
Proof.
  unfold listItemMatch. destruct ord.
  - rewrite exec_ordered_item.
    destruct (span isDigit (trim line)) as [d r] eqn:Hspan.
    apply span_spec in Hspan as [-> Hd].
    destruct d as [|d0 d]; [done|]. destruct r as [|p rest]; [done|].
    destruct (is_ch "." p) eqn:Hp; [|done]. apply N.eqb_eq in Hp as ->.
    destruct (space_then_rest rest) as [t|] eqn:Ht; [|done].
    cbn [fmap option_fmap option_map Regex.group_ Regex.group Nat.eqb
         default id].
    destruct (Regex.test _ _); [|done]. intros [= <- <-].
    apply space_then_rest_inv in Ht as (ws & -> & Hws & Hsp & Hne & Hdot).
    exists ws. split.
    { change ((d0 :: d) ++ ch "." :: ws ++ t
              = ((d0 :: d) ++ [ch "."]) ++ ws ++ t).
      by rewrite <- app_assoc. }
    repeat split; try done. exists (d0 :: d). by repeat split.
  - rewrite exec_unordered_item. destruct (trim line) as [|b rest]; [done|].
    destruct (Pattern.isBullet b) eqn:Hb; [|done].
    destruct (space_then_rest rest) as [t|] eqn:Ht; [|done].
    cbn [fmap option_fmap option_map Regex.group_ Regex.group Nat.eqb
         default id].
    destruct (Regex.test _ _); [|done]. intros [= <- <-].
    apply space_then_rest_inv in Ht as (ws & -> & Hws & Hsp & Hne & Hdot).
    exists ws. repeat split; try done. by exists b.
Qed.

(** X26. What [parseList] takes for an item.  The trimmed line is the
    marker, white space, and the content; the marker is one of the three
    bullets in an unordered list, digits and a full stop in an ordered one;
    the content is never empty and holds no line terminator. *)
Theorem listItemMatch_parts
  (isOrderedList : bool) (line marker content : jsstring) :
  listItemMatch isOrderedList line = Some (marker, content) ->
  exists ws,
    trim line = marker ++ ws ++ content
    /\ ws ≠ [] /\ forallb isSpace ws = true
    /\ content ≠ [] /\ forallb isDot content = true
    /\ if isOrderedList
       then exists d, marker = d ++ str "." /\ d ≠ []
                      /\ forallb isDigit d = true
       else exists b, marker = [b] /\ Pattern.isBullet b = true.
Proof. apply listItemMatch_inv. Qed.

Lemma listItemMatch_parts_witness :
  exists ws,
    trim (str "  12.  twelve ") = str "12." ++ ws ++ str "twelve"
    /\ ws ≠ [] /\ forallb isSpace ws = true
    /\ str "twelve" ≠ [] /\ forallb isDot (str "twelve") = true
    /\ exists d, str "12." = d ++ str "." /\ d ≠ []
                 /\ forallb isDigit d = true.
Proof.
  apply (listItemMatch_parts true (str "  12.  twelve ") (str "12.")
           (str "twelve")).
  reflexivity.
Defined.

(** ** A continuation line *)

(** X27. An indented line that is no item, behind an item line without
    indentation, continues the item: the text of the item is the content
    of the item line, a line feed and the trimmed line, and the children
    are the inline tokens of the content and one [text] token for the
    trimmed line, whatever markers it holds.  The raw of the item stays
    the item line. *)
Theorem parseList_lazy_continuation
  (pre post : list jsstring) (first cont marker content : jsstring) :
  let isOrderedList := Regex.test Pattern.ordered_marker (trim first) in
  indent_of first = 0%Z ->
  listItemMatch isOrderedList first = Some (marker, content) ->
  listItemMatch isOrderedList cont = None ->
  (0 < indent_of cont)%Z -> trim cont ≠ [] ->
  list_ends isOrderedList 0 post = true ->
  parseList (pre ++ [first; cont] ++ post) (length pre)
  = Ok ({| type := TokenType.list; raw := join_lines [first; cont];
           text := None; depth := None;
           items :=
             Some [ {| type := TokenType.list_item; raw := first;
                       text := Some (content ++ 10%N :: trim cont);
                       depth := None; items := None; lang := None;
                       url := None;
                       children :=
                         Some (parseInline content
                                 ++ [set_text (trim cont)
                                       (token TokenType.text (trim cont))]);
                       ordered := Some isOrderedList |} ];
           lang := None; url := None; children := None;
           ordered := Some isOrderedList |},
        Z.of_nat (length pre + 1)).
Proof.
  intros ord Hindent Hfirst Hcont Hpos Htext Hpost. unfold parseList.
  rewrite lookup_app_r, Nat.sub_diag by lia. cbn [app lookup list_lookup].
  fold ord. rewrite drop_app_length.
  destruct (listItemMatch_inv _ _ _ _ Hfirst) as (_ & _ & _ & _ & Hne & _).
  cbn [list_scan]. rewrite Hfirst, Hcont.
  unfold item_step, adjust_levels, ListScan_init. cbn [currentIndent].
  rewrite Hindent. cbn [Z.ltb Z.compare]. unfold push_item, top.
  cbn [store listStack currentIndent last default id alter list_alter app].
  replace (0 <? indent_of cont)%Z with true by (symmetry; by apply Z.ltb_lt).
  assert (truthy (trim cont) = true) as -> by (by destruct (trim cont)).
  cbn [andb]. rewrite list_scan_ends by done.
  unfold continuation, top, alter_last, continue_item.
  cbn [store listStack currentIndent last default id alter list_alter length
       Nat.sub li_text li_raw li_ordered li_children li_items].
  assert (truthy content = true) as -> by (by destruct content).
  cbn [list_items lookup list_lookup default id map li_text li_raw
       li_ordered li_children li_items].
  pose proof (slice_lines_middle pre [first; cont] post) as Hslice.
  cbn [length app] in Hslice.
  replace (S (S (length pre))) with (length pre + 2) by lia.
  rewrite Hslice.
  unfold set_items, set_ordered, set_children, set_text, token.
  cbn [type raw text depth items lang url children ordered].
  do 2 f_equal. lia.
Qed.

Lemma parseList_lazy_continuation_witness :
  parseList [str "- a"; str "  **b**"; []] 0
  = Ok (set_items
          [ set_children
              [ set_text (str "a") (token TokenType.text (str "a"));
                set_text (str "**b**") (token TokenType.text (str "**b**")) ]
              (set_ordered false
                 (set_text (str "a
**b**") (token TokenType.list_item (str "- a")))) ]
          (set_ordered false
             (token TokenType.list (str "- a
  **b**"))), 1%Z).
Proof.
  refine (parseList_lazy_continuation [] [[]] (str "- a") (str "  **b**")
            (str "-") (str "a") _ _ _ _ _ _);
    try reflexivity; done.
Defined.

(** ** Lists on the page *)

Lemma item_content_nonempty ord l :
  is_Some (listItemMatch ord l) -> item_content ord l ≠ [].
Proof.
  intros [[marker content] Hm]. unfold item_content. rewrite Hm.
  by destruct (listItemMatch_inv _ _ _ _ Hm) as (_ & _ & _ & _ & Hne & _).
Qed.

Section RenderList.
Context `{Host}.
Variable options : ParserOptions.
Variable languages : SyntaxHighlighter.Languages.

Lemma renderChildren_plain k (c : jsstring) :
  Forall (fun x => isInlineMarker x = false) c -> c ≠ [] ->
  renderChildren_with (tokensToHtml options languages (S k))
    (Some (parseInline c))
  = Ok (escapeHtml c).
Proof.
  intros Hplain Hne. unfold parseInline.
  rewrite (parseInline_loop_plain _ c 0 [] [] Hplain) by lia.
  destruct c as [|x c]; [done|].
  cbn [app drop default id flush truthy].
  change (renderChildren_with _ _) with (Ok (escapeHtml (x :: c) ++ [])).
  by rewrite app_nil_r.
Qed.

Lemma renderListItems_flat k j ord (ls : list jsstring) :
  Forall (fun l => Forall (fun x => isInlineMarker x = false)
                     (item_content ord l)
                   /\ item_content ord l ≠ []) ls ->
  renderListItems
    (renderChildren_with (tokensToHtml options languages (S k)))
    (S j) (map (list_item_of ord) ls)
  = Ok (join_lines (map (fun l => li_html (item_content ord l) []) ls)).
Proof.
  intros Hls. cbn [renderListItems].
  rewrite (map_outcome_map _ _ (fun l => li_html (item_content ord l) []));
    [done|].
  eapply Forall_impl; [exact Hls|]. intros l [Hplain Hne].
  cbn [children items list_item_of]. by rewrite renderChildren_plain.
Qed.

(** X28. A list of item lines without indentation and without inline
    markers in their contents comes out as the [ol] or [ul] of the
    template around one [li] for each line, holding the escaped content,
    the [li] elements joined by line feeds. *)
Theorem flat_list_rendered
  (stack : nat) (pre post : list jsstring) (first : jsstring)
  (rest : list jsstring) :
  let isOrderedList := Regex.test Pattern.ordered_marker (trim first) in
  Forall (fun l => indent_of l = 0%Z
                   /\ is_Some (listItemMatch isOrderedList l))
    (first :: rest) ->
  Forall (fun l => Forall (fun x => isInlineMarker x = false)
                     (item_content isOrderedList l))
    (first :: rest) ->
  list_ends isOrderedList 0 post = true ->
  ('(t, _) ← parseList (pre ++ (first :: rest) ++ post) (length pre);
   tokensToHtml options languages (S (S (S stack))) [t])
  = Ok (Html.list_html (list_tag isOrderedList)
          (join_lines
             (map (fun l => li_html (item_content isOrderedList l) [])
                (first :: rest)))).
Proof.
  intros ord Hitems Hplain Hpost.
  pose proof (list_scan_same_indent ord (first :: rest) post (length pre)
                [] [] [] 0%Z Hitems) as Hscan.
  cbn [app length] in Hscan. unfold parseList.
  rewrite lookup_app_r, Nat.sub_diag by lia. cbn [app lookup list_lookup].
  fold ord. rewrite drop_app_length. unfold ListScan_init. rewrite Hscan.
  rewrite list_scan_ends by done. cbn [store length].
  rewrite list_items_flat. cbn [mbind outcome_bind].
  apply tokensToHtml_single.
  unfold render_token. cbn [type set_items set_ordered token items ordered
    default id].
  rewrite renderListItems_flat; [done|].
  apply Forall_forall. intros l Hl. rewrite Forall_forall in Hitems, Hplain.
  split; [by apply Hplain|]. apply item_content_nonempty. by apply Hitems.
Qed.

End RenderList.

Lemma flat_list_rendered_witness :
  ('(t, _) ← parseList [str "- a < b"; str "- c"] 0;
   tokensToHtml default_options SyntaxHighlighter.new 3 [t])
  = Ok (Html.list_html (str "ul") (str "<li>a &lt; b</li>
<li>c</li>")).
Proof.
  refine (flat_list_rendered default_options SyntaxHighlighter.new 0 [] []
            (str "- a < b") [str "- c"] _ _ _).
  - repeat (apply Forall_cons_2; [split; [reflexivity | vm_compute; eauto] |]).
    apply Forall_nil_2.
  - repeat (apply Forall_cons_2; [by repeat constructor|]). apply Forall_nil_2.
  - reflexivity.
Defined.

(** ** A list of two levels *)

Lemma item_step_content ord l st :
  is_Some (listItemMatch ord l) ->
  match listItemMatch ord l with
  | Some (_, content) => item_step ord l content st
  | None => st
  end
  = push_item
      {| li_raw := l; li_text := item_content ord l; li_ordered := ord;
         li_children := parseInline (item_content ord l); li_items := None |}
      (adjust_levels (indent_of l) st).
Proof.
  intros [[marker content] Hm]. unfold item_content. by rewrite Hm.
Qed.

Lemma list_scan_item ord l rest i st :
  is_Some (listItemMatch ord l) ->
  list_scan ord (l :: rest) i st
  = list_scan ord rest (S i)
      (push_item
         {| li_raw := l; li_text := item_content ord l; li_ordered := ord;
            li_children := parseInline (item_content ord l);
            li_items := None |}
         (adjust_levels (indent_of l) st)).
Proof.
  intros Hm. rewrite <- (item_step_content ord l st Hm).
  destruct Hm as [[marker content] Hm]. cbn [list_scan]. by rewrite Hm.
Qed.

Lemma parseList_nested (pre post : list jsstring) (first second : jsstring)
  (rest : list jsstring) (k : Z) :
  let ord := Regex.test Pattern.ordered_marker (trim first) in
  indent_of first = 0%Z -> is_Some (listItemMatch ord first) ->
  (0 < k)%Z ->
  Forall (fun l => indent_of l = k /\ is_Some (listItemMatch ord l))
    (second :: rest) ->
  list_ends ord k post = true ->
  parseList (pre ++ (first :: second :: rest) ++ post) (length pre)
  = Ok ({| type := TokenType.list;
           raw := join_lines (first :: second :: rest);
           text := None; depth := None;
           items :=
             Some [ set_items (map (list_item_of ord) (second :: rest))
                      (list_item_of ord first) ];
           lang := None; url := None; children := None;
           ordered := Some ord |},
        Z.of_nat (length pre + S (length rest))).
Proof.
  intros ord Hindent Hfirst Hk Hrest Hpost. unfold parseList.
  rewrite lookup_app_r, Nat.sub_diag by lia. cbn [app lookup list_lookup].
  fold ord. rewrite drop_app_length.
  inversion Hrest as [|? ? [Hsecond Hm2] Hrest']; subst.
  rewrite (list_scan_item ord first) by done.
  rewrite (list_scan_item ord second) by done.
  set (it1 := {| li_raw := first; li_text := item_content ord first;
                 li_ordered := ord;
                 li_children := parseInline (item_content ord first);
                 li_items := None |}).
  set (it2 := {| li_raw := second; li_text := item_content ord second;
                 li_ordered := ord;
                 li_children := parseInline (item_content ord second);
                 li_items := None |}).
  assert (push_item it2
            (adjust_levels (indent_of second)
               (push_item it1
                  (adjust_levels (indent_of first) ListScan_init)))
          = {| store := [[set_li_items 1 it1]] ++ [[it2]];
               listStack := [0] ++ [length [[set_li_items 1 it1]]];
               currentIndent := indent_of second |}) as ->.
  { rewrite Hindent. unfold adjust_levels at 2. unfold ListScan_init.
    cbn [currentIndent Z.ltb Z.compare]. unfold push_item at 2, top.
    cbn [store listStack currentIndent last default id alter list_alter app].
    unfold adjust_levels. cbn [currentIndent].
    replace (0 <? indent_of second)%Z with true
      by (symmetry; apply Z.ltb_lt; lia).
    reflexivity. }
  rewrite (list_scan_same_indent ord rest post (S (S (length pre)))) by done.
  rewrite list_scan_ends by done.
  cbn [store length app list_items lookup list_lookup default id map
       set_li_items li_items li_raw li_text li_ordered li_children it1].
  rewrite map_map.
  pose proof (slice_lines_middle pre (first :: second :: rest) post)
    as Hslice.
  cbn [length app] in Hslice.
  replace (S (S (length pre)) + length rest)
    with (length pre + S (S (length rest))) by lia.
  rewrite Hslice.
  unfold set_items, set_ordered, set_children, set_text, token, list_item_of.
  cbn [type raw text depth items lang url children ordered].
  do 2 f_equal. lia.
Qed.

(** X29. Item lines that are indented, behind an item line that is not,
    make the nested list of that item: the list token has the one item of
    the first line, and the items of the indented lines, in their order,
    are its [items]. *)
Theorem parseList_two_levels
  (pre post : list jsstring) (first second : jsstring)
  (rest : list jsstring) (k : Z) :
  let isOrderedList := Regex.test Pattern.ordered_marker (trim first) in
  indent_of first = 0%Z -> is_Some (listItemMatch isOrderedList first) ->
  (0 < k)%Z ->
  Forall (fun l => indent_of l = k
                   /\ is_Some (listItemMatch isOrderedList l))
    (second :: rest) ->
  list_ends isOrderedList k post = true ->
  parseList (pre ++ (first :: second :: rest) ++ post) (length pre)
  = Ok ({| type := TokenType.list;
           raw := join_lines (first :: second :: rest);
           text := None; depth := None;
           items :=
             Some [ set_items
                      (map (list_item_of isOrderedList) (second :: rest))
                      (list_item_of isOrderedList first) ];
           lang := None; url := None; children := None;
           ordered := Some isOrderedList |},
        Z.of_nat (length pre + S (length rest))).
Proof. exact (parseList_nested pre post first second rest k). Qed.

Lemma parseList_two_levels_witness :
  parseList [str "1. a"; str "   1. b"; str "   2. c"; str "text"] 0
  = Ok (set_items
          [ set_items [list_item_of true (str "   1. b");
                       list_item_of true (str "   2. c")]
              (list_item_of true (str "1. a")) ]
          (set_ordered true
             (token TokenType.list (str "1. a
   1. b
   2. c"))), 2%Z).
Proof.
  refine (parseList_two_levels [] [str "text"] (str "1. a") (str "   1. b")
            [str "   2. c"] 3 _ _ _ _ _).
  - reflexivity.
  - vm_compute. eauto.
  - lia.
  - repeat (apply Forall_cons_2; [split; [reflexivity | vm_compute; eauto] |]).
    apply Forall_nil_2.
  - reflexivity.
Defined.

Section RenderNested.
Context `{Host}.
Variable options : ParserOptions.
Variable languages : SyntaxHighlighter.Languages.

Lemma renderListItems_S renderChildren k its :
  renderListItems renderChildren (S k) its
  = (parts ← map_outcome
       (fun item =>
          itemContent ← renderChildren (children item);
          nestedList ←
            match items item with
            | Some nested =>
                r ← renderListItems renderChildren k nested;
                Ok (10%N :: r ++ [10%N])
            | None => Ok []
            end;
          Ok (str "<li>" ++ itemContent ++ nestedList ++ str "</li>"))
       its;
     Ok (join_lines parts)).
Proof. reflexivity. Qed.

(** X30. A nested list has no [ol] or [ul] of its own on the page: the
    [li] elements of the indented lines stand, between two line feeds,
    inside the [li] of the item they belong to, behind its content. *)
Theorem nested_list_rendered
  (stack : nat) (pre post : list jsstring) (first second : jsstring)
  (rest : list jsstring) (k : Z) :
  let isOrderedList := Regex.test Pattern.ordered_marker (trim first) in
  indent_of first = 0%Z -> is_Some (listItemMatch isOrderedList first) ->
  (0 < k)%Z ->
  Forall (fun l => indent_of l = k
                   /\ is_Some (listItemMatch isOrderedList l))
    (second :: rest) ->
  Forall (fun l => Forall (fun x => isInlineMarker x = false)
                     (item_content isOrderedList l))
    (first :: second :: rest) ->
  list_ends isOrderedList k post = true ->
  ('(t, _) ← parseList (pre ++ (first :: second :: rest) ++ post)
               (length pre);
   tokensToHtml options languages (S (S (S (S stack)))) [t])
  = Ok (Html.list_html (list_tag isOrderedList)
          (li_html (item_content isOrderedList first)
             (10%N
              :: join_lines
                   (map (fun l => li_html (item_content isOrderedList l) [])
                      (second :: rest))
              ++ [10%N]))).
Proof.
  intros ord Hindent Hfirst Hk Hrest Hplain Hpost.
  rewrite (parseList_nested pre post first second rest k Hindent Hfirst Hk
             Hrest Hpost).
  fold ord. cbn [mbind outcome_bind].
  apply tokensToHtml_single.
  unfold render_token. cbn [type items ordered default id].
  inversion Hplain as [|? ? Hp1 Hp2]; subst.
  rewrite renderListItems_S.
  cbn [map_outcome children items set_items list_item_of].
  rewrite renderChildren_plain by (done || by apply item_content_nonempty).
  cbn [mbind outcome_bind].
  rewrite (renderListItems_flat options languages (S (S stack)) (S stack) ord
             (second :: rest)); [done|].
  apply Forall_forall. intros l Hl. rewrite Forall_forall in Hrest, Hp2.
  split; [by apply Hp2|]. apply item_content_nonempty. by apply Hrest.
Qed.

End RenderNested.

Lemma nested_list_rendered_witness :
  ('(t, _) ← parseList [str "- a"; str "  - b"; str "  - c"] 0;
   tokensToHtml default_options SyntaxHighlighter.new 4 [t])
  = Ok (Html.list_html (str "ul") (str "<li>a
<li>b</li>
<li>c</li>
</li>")).
Proof.
  refine (nested_list_rendered default_options SyntaxHighlighter.new 0 [] []
            (str "- a") (str "  - b") [str "  - c"] 2 _ _ _ _ _ _).
  - reflexivity.
  - vm_compute. eauto.
  - lia.
  - repeat (apply Forall_cons_2; [split; [reflexivity | vm_compute; eauto] |]).
    apply Forall_nil_2.
  - repeat (apply Forall_cons_2; [by repeat constructor|]). apply Forall_nil_2.
  - reflexivity.
Defined.
